(** * Hopscotch hash map: a shallow embedding of [hash_map.hpp]

    The development models the class template [HashMap<KeyType, ValueType,
    Hash>] of [src/hash_map.hpp]: the bucket vector with its per-bucket
    linkage fields, the entry list, and the private placement routines
    ([InsertObject], [FindObject], [EraseObject], [Reallocate],
    [HandleCollision]) together with the public operations built on them.

    Conventions.
    - [SizeType] is [size_t]: a value in [[0, 2^64)], arithmetic wraps
      ([to_size]).  Adding a [size_t] to a bucket iterator converts it to
      [ptrdiff_t] first ([to_diff]).
    - A bucket iterator is the index of the bucket ([buckets_.begin()] is
      [0], [buckets_.end()] is the length of the vector).  Dereferencing an
      index outside the vector is undefined behaviour: the model stops with
      [Fault].
    - A [std::list] iterator is the identity of a list node.  The two
      members [object_it_] and [object_const_it_] of a bucket are always
      assigned and swapped together and designate the same node; the model
      keeps the one field [object_it_].
    - Loops carry a fuel argument; running out of fuel is [Timeout]. *)

From Stdlib Require Import ZArith Lia.
From stdpp Require Import base numbers option list sorting.

Open Scope Z_scope.

(** ** Machine integers *)

Definition size_modulus : Z := 18446744073709551616.
Definition SIZE_MAX : Z := 18446744073709551615.

(** Conversion to [size_t] (wrap-around). *)
Definition to_size (z : Z) : Z := z mod size_modulus.

(** Conversion of a [size_t] to [ptrdiff_t]. *)
Definition to_diff (z : Z) : Z :=
  if z <? 9223372036854775808 then z else z - size_modulus.

Definition NULL_DELTA : Z := SIZE_MAX.
Definition EMPTY_BUCKET : Z := SIZE_MAX.
Definition size_modifier_ : Z := 3.
Definition neighbourhood_modifier_ : Z := 3.
Definition min_neighbourhood_size_ : Z := 4.

(** ** Outcomes *)

Inductive exn := out_of_range | bad_alloc.

Inductive outcome (A : Type) : Type :=
  | Ok (a : A)
  | Throw (e : exn)
  | Fault
  | Timeout.
Arguments Ok {A} a.
Arguments Throw {A} e.
Arguments Fault {A}.
Arguments Timeout {A}.

Definition bind {A B} (m : outcome A) (k : A → outcome B) : outcome B :=
  match m with
  | Ok a => k a
  | Throw e => Throw e
  | Fault => Fault
  | Timeout => Timeout
  end.

Notation "'let*' x := m 'in' k" := (bind m (λ x, k))
  (at level 10, x name, m at level 100, k at level 200,
   format "'[v' 'let*'  x  :=  m  'in' '/' k ']'").
Notation "'let*' ' p := m 'in' k" := (bind m (λ x, match x with p => k end))
  (at level 10, p pattern, m at level 100, k at level 200,
   format "'[v' 'let*'  ' p  :=  m  'in' '/' k ']'").

(** ** Buckets *)

Inductive iterator := Singular | Node (id : nat) | End.

Global Instance iterator_eq_dec : EqDecision iterator.
Proof. solve_decision. Defined.

Record Bucket := mkBucket {
  object_it_ : iterator;
  first_delta_ : Z;
  next_delta_ : Z;
  prev_delta_ : Z;
  object_bucket_ : Z
}.

(** [Bucket{}] *)
Definition Bucket_default : Bucket :=
  mkBucket Singular NULL_DELTA NULL_DELTA NULL_DELTA EMPTY_BUCKET.

Definition set_object_it (b : Bucket) (v : iterator) : Bucket :=
  mkBucket v (first_delta_ b) (next_delta_ b) (prev_delta_ b) (object_bucket_ b).
Definition set_first_delta (b : Bucket) (v : Z) : Bucket :=
  mkBucket (object_it_ b) v (next_delta_ b) (prev_delta_ b) (object_bucket_ b).
Definition set_next_delta (b : Bucket) (v : Z) : Bucket :=
  mkBucket (object_it_ b) (first_delta_ b) v (prev_delta_ b) (object_bucket_ b).
Definition set_prev_delta (b : Bucket) (v : Z) : Bucket :=
  mkBucket (object_it_ b) (first_delta_ b) (next_delta_ b) v (object_bucket_ b).
Definition set_object_bucket (b : Bucket) (v : Z) : Bucket :=
  mkBucket (object_it_ b) (first_delta_ b) (next_delta_ b) (prev_delta_ b) v.

(** ** The bucket vector *)

Definition vsize (bs : list Bucket) : Z := Z.of_nat (length bs).

Definition getb (bs : list Bucket) (i : Z) : option Bucket :=
  if i <? 0 then None else bs !! Z.to_nat i.

Definition setb (bs : list Bucket) (i : Z) (b : Bucket) : list Bucket :=
  <[Z.to_nat i := b]> bs.

Definition read (bs : list Bucket) (i : Z) : outcome Bucket :=
  match getb bs i with
  | Some b => Ok b
  | None => Fault
  end.

Definition modify (bs : list Bucket) (i : Z) (f : Bucket → Bucket)
  : outcome (list Bucket) :=
  match getb bs i with
  | Some b => Ok (setb bs i (f b))
  | None => Fault
  end.

(** [std::swap(a->field, b->field)] on buckets [i] and [j]. *)
Definition swap_field {A} (get : Bucket → A) (set : Bucket → A → Bucket)
    (bs : list Bucket) (i j : Z) : outcome (list Bucket) :=
  let* bi := read bs i in
  let* bj := read bs j in
  let* bs := modify bs i (λ b, set b (get bj)) in
  modify bs j (λ b, set b (get bi)).

(** Every loop over the bucket vector moves an index monotonically inside
    it; one more than its length bounds the number of loop tests. *)
Definition scan_fuel (bs : list Bucket) : nat := S (length bs).

(** ** Placement: the loops of [InsertObject] *)

(** Lines 245-247: linear probe for the first empty bucket. *)
Fixpoint probe_free (fuel : nat) (bs : list Bucket) (free_bucket : Z)
  : outcome Z :=
  match fuel with
  | O => Timeout
  | S fuel =>
      if free_bucket =? vsize bs then Ok free_bucket else
      let* b := read bs free_bucket in
      if object_bucket_ b =? EMPTY_BUCKET then Ok free_bucket
      else probe_free fuel bs (free_bucket + 1)
  end.

(** Lines 252-260: the displacement-candidate search.  Returns the value of
    [fit_bucket] when the inner [while] is left. *)
Fixpoint scan_fit (fuel : nat) (bs : list Bucket) (nbh free_bucket fit_bucket : Z)
  : outcome Z :=
  match fuel with
  | O => Timeout
  | S fuel =>
      if negb (fit_bucket =? 0)
         && (to_size (to_size (free_bucket - fit_bucket) + 1) <? nbh) then
        let* b := read bs (fit_bucket - 1) in
        if to_size (free_bucket - (0 + to_diff (object_bucket_ b))) <? nbh
        then Ok fit_bucket
        else scan_fit fuel bs nbh free_bucket (fit_bucket - 1)
      else Ok fit_bucket
  end.

(** Lines 261-264: the test that follows the search. *)
Definition scan_failed (nbh free_bucket fit_bucket : Z) : bool :=
  (fit_bucket =? 0) || (nbh <=? to_size (to_size (free_bucket - fit_bucket) + 1)).

(** Lines 266-270: the chain predecessor of the occupant follows it to
    [free_bucket]. *)
Definition relink_prev (bs : list Bucket) (free_bucket fit_bucket : Z)
  : outcome (list Bucket) :=
  let d := free_bucket - fit_bucket in
  let* b := read bs fit_bucket in
  if prev_delta_ b =? NULL_DELTA then Ok bs else
  let* bs := modify bs (fit_bucket - to_diff (prev_delta_ b))
               (λ p, set_next_delta p (to_size (next_delta_ p + d))) in
  let* bs := modify bs fit_bucket
               (λ x, set_prev_delta x (to_size (prev_delta_ x + d))) in
  swap_field prev_delta_ set_prev_delta bs fit_bucket free_bucket.

(** Lines 271-275: the same for the chain successor. *)
Definition relink_next (bs : list Bucket) (free_bucket fit_bucket : Z)
  : outcome (list Bucket) :=
  let d := free_bucket - fit_bucket in
  let* b := read bs fit_bucket in
  if next_delta_ b =? NULL_DELTA then Ok bs else
  let* bs := modify bs (fit_bucket + to_diff (next_delta_ b))
               (λ n, set_prev_delta n (to_size (prev_delta_ n - d))) in
  let* bs := modify bs fit_bucket
               (λ x, set_next_delta x (to_size (next_delta_ x - d))) in
  swap_field next_delta_ set_next_delta bs fit_bucket free_bucket.

(** Lines 276-280: the home bucket follows the occupant when it heads the
    chain. *)
Definition relink_first (bs : list Bucket) (free_bucket fit_bucket : Z)
  : outcome (list Bucket) :=
  let* b := read bs fit_bucket in
  let home := 0 + to_diff (object_bucket_ b) in
  let* hb := read bs home in
  if fit_bucket =? home + to_diff (first_delta_ hb)
  then modify bs home (λ h, set_first_delta h (to_size (free_bucket - home)))
  else Ok bs.

(** Lines 266-283: move the occupant of [fit_bucket] into [free_bucket] and
    repair the links of its chain. *)
Definition displace (bs : list Bucket) (free_bucket fit_bucket : Z)
  : outcome (list Bucket) :=
  let* bs := relink_prev bs free_bucket fit_bucket in
  let* bs := relink_next bs free_bucket fit_bucket in
  let* bs := relink_first bs free_bucket fit_bucket in
  let* bs := swap_field object_it_ set_object_it bs fit_bucket free_bucket in
  swap_field object_bucket_ set_object_bucket bs fit_bucket free_bucket.

(** Lines 251-285: the hop loop.  [None] is [return buckets_.end()]; [Some f]
    is the free bucket the loop ends with. *)
Fixpoint hop_loop (fuel : nat) (bs : list Bucket) (nbh start_bucket free_bucket : Z)
  : outcome (list Bucket * option Z) :=
  match fuel with
  | O => Timeout
  | S fuel =>
      if nbh <=? to_size (free_bucket - start_bucket) then
        let* fit_bucket := scan_fit (scan_fuel bs) bs nbh free_bucket free_bucket in
        if scan_failed nbh free_bucket fit_bucket then Ok (bs, None) else
        let fit_bucket := fit_bucket - 1 in
        let* bs := displace bs free_bucket fit_bucket in
        hop_loop fuel bs nbh start_bucket fit_bucket
      else Ok (bs, Some free_bucket)
  end.

(** Lines 293-296: the search for the chain predecessor. *)
Fixpoint scan_previous (fuel : nat) (bs : list Bucket)
    (start_bucket free_bucket previous_bucket : Z) : outcome Z :=
  match fuel with
  | O => Timeout
  | S fuel =>
      if previous_bucket =? start_bucket then Ok previous_bucket else
      let* pb := read bs (previous_bucket - 1) in
      let* fb := read bs free_bucket in
      if object_bucket_ pb =? object_bucket_ fb then Ok previous_bucket
      else scan_previous fuel bs start_bucket free_bucket (previous_bucket - 1)
  end.

(** Lines 298-305: splice [free_bucket] in after [previous_bucket]. *)
Definition splice_after (bs : list Bucket) (free_bucket previous_bucket : Z)
  : outcome (list Bucket) :=
  let* pb := read bs previous_bucket in
  let* bs := (if negb (next_delta_ pb =? NULL_DELTA) then
                let next_bucket := previous_bucket + to_diff (next_delta_ pb) in
                let* bs := modify bs next_bucket
                             (λ b, set_prev_delta b (to_size (next_bucket - free_bucket))) in
                modify bs free_bucket
                       (λ b, set_next_delta b (to_size (next_bucket - free_bucket)))
              else Ok bs) in
  let* bs := modify bs previous_bucket
               (λ b, set_next_delta b (to_size (free_bucket - previous_bucket))) in
  modify bs free_bucket
         (λ b, set_prev_delta b (to_size (free_bucket - previous_bucket))).

(** Lines 307-312: [free_bucket] becomes the head of the chain. *)
Definition splice_head (bs : list Bucket) (start_bucket free_bucket : Z)
  : outcome (list Bucket) :=
  let* sb := read bs start_bucket in
  let* bs := (if negb (first_delta_ sb =? NULL_DELTA) then
                let next_bucket := start_bucket + to_diff (first_delta_ sb) in
                let* bs := modify bs next_bucket
                             (λ b, set_prev_delta b (to_size (next_bucket - free_bucket))) in
                modify bs free_bucket
                       (λ b, set_next_delta b (to_size (next_bucket - free_bucket)))
              else Ok bs) in
  modify bs start_bucket
         (λ b, set_first_delta b (to_size (free_bucket - start_bucket))).

(** Lines 286-314: install the entry in [free_bucket] and splice it into the
    chain of [start_bucket].  The second component is the returned bucket
    iterator. *)
Definition install (bs : list Bucket) (it : iterator) (start_bucket free_bucket : Z)
  : outcome (list Bucket * Z) :=
  if free_bucket <? start_bucket then Ok (bs, vsize bs) else
  let* bs := modify bs free_bucket (λ b, set_object_it b it) in
  let* bs := modify bs free_bucket
               (λ b, set_object_bucket b (to_size (start_bucket - 0))) in
  let* previous_bucket :=
    scan_previous (scan_fuel bs) bs start_bucket free_bucket free_bucket in
  if negb (previous_bucket =? start_bucket) then
    let* bs := splice_after bs free_bucket (previous_bucket - 1) in
    Ok (bs, free_bucket)
  else
    let* bs := splice_head bs start_bucket free_bucket in
    Ok (bs, free_bucket).

(** Lines 348-366: take [object_bucket] out of its chain. *)
Definition unlink (bs : list Bucket) (object_bucket : Z) : outcome (list Bucket) :=
  let* ob := read bs object_bucket in
  if negb (prev_delta_ ob =? NULL_DELTA) then
    let previous_bucket := object_bucket - to_diff (prev_delta_ ob) in
    if negb (next_delta_ ob =? NULL_DELTA) then
      let next_bucket := object_bucket + to_diff (next_delta_ ob) in
      let* bs := modify bs previous_bucket
                   (λ b, set_next_delta b (to_size (next_bucket - previous_bucket))) in
      modify bs next_bucket
             (λ b, set_prev_delta b (to_size (next_bucket - previous_bucket)))
    else
      modify bs previous_bucket (λ b, set_next_delta b NULL_DELTA)
  else
    let start_bucket := 0 + to_diff (object_bucket_ ob) in
    if negb (next_delta_ ob =? NULL_DELTA) then
      let next_bucket := object_bucket + to_diff (next_delta_ ob) in
      let* bs := modify bs start_bucket
                   (λ b, set_first_delta b (to_size (next_bucket - start_bucket))) in
      modify bs next_bucket (λ b, set_prev_delta b NULL_DELTA)
    else
      modify bs start_bucket (λ b, set_first_delta b NULL_DELTA).

(** Lines 347-370. *)
Definition EraseObject (bs : list Bucket) (object_bucket : Z)
  : outcome (list Bucket) :=
  let* bs := unlink bs object_bucket in
  let* bs := modify bs object_bucket (λ b, set_next_delta b NULL_DELTA) in
  let* bs := modify bs object_bucket (λ b, set_prev_delta b NULL_DELTA) in
  modify bs object_bucket (λ b, set_object_bucket b EMPTY_BUCKET).

(** ** The container *)

Section HashMap.

Context {KeyType ValueType : Type} `{EqDecision KeyType}.

(** The hash function object, the value [ValueType{}], and the largest
    bucket vector the allocator delivers ([buckets_.assign] throws beyond
    it). *)
Variable hasher_ : KeyType → Z.
Variable ValueType_default : ValueType.
Variable max_size : Z.

Definition ObjectType : Type := KeyType * ValueType.

(** [objects_] is a [std::list<ObjectType>]; each node carries its identity.
    [next_node] is the identity the next allocated node gets. *)
Record HashMap := mkHashMap {
  objects_ : list (nat * ObjectType);
  buckets_ : list Bucket;
  neighbourhood_size_ : Z;
  next_node : nat
}.

Definition with_buckets (m : HashMap) (bs : list Bucket) : HashMap :=
  mkHashMap (objects_ m) bs (neighbourhood_size_ m) (next_node m).

Fixpoint node_lookup (l : list (nat * ObjectType)) (id : nat) : option ObjectType :=
  match l with
  | [] => None
  | (n, o) :: l => if Nat.eqb n id then Some o else node_lookup l id
  end.

Fixpoint node_remove (l : list (nat * ObjectType)) (id : nat)
  : list (nat * ObjectType) :=
  match l with
  | [] => []
  | (n, o) :: l => if Nat.eqb n id then l else (n, o) :: node_remove l id
  end.

(** [*it] for a list iterator. *)
Definition deref (l : list (nat * ObjectType)) (it : iterator) : outcome ObjectType :=
  match it with
  | Node id =>
      match node_lookup l id with
      | Some o => Ok o
      | None => Fault
      end
  | _ => Fault
  end.

(** [objects_.erase(it)] *)
Definition list_erase (l : list (nat * ObjectType)) (it : iterator)
  : outcome (list (nat * ObjectType)) :=
  match it with
  | Node id =>
      match node_lookup l id with
      | Some _ => Ok (node_remove l id)
      | None => Fault
      end
  | _ => Fault
  end.

(** Lines 25-28. *)
Definition HashMap_new : HashMap :=
  mkHashMap [] (replicate (Z.to_nat min_neighbourhood_size_) Bucket_default)
            min_neighbourhood_size_ 0%nat.

Definition size (m : HashMap) : Z := Z.of_nat (length (objects_ m)).
Definition empty (m : HashMap) : bool := bool_decide (objects_ m = []).
Definition capacity (m : HashMap) : Z := vsize (buckets_ m).

(** Lines 234-240. *)
Definition GetStartBucket (bs : list Bucket) (key : KeyType) : outcome Z :=
  if vsize bs =? 0 then Fault
  else Ok (0 + to_size (hasher_ key) mod vsize bs).

(** Lines 242-315.  The result carries the bucket iterator returned;
    [buckets_.end()] is the length of the vector. *)
Definition InsertObject (m : HashMap) (object_it : iterator)
  : outcome (HashMap * Z) :=
  let* o := deref (objects_ m) object_it in
  let bs := buckets_ m in
  let* start_bucket := GetStartBucket bs o.1 in
  let* free_bucket := probe_free (scan_fuel bs) bs start_bucket in
  if free_bucket =? vsize bs then Ok (m, vsize bs) else
  let* '(bs, r) := hop_loop (scan_fuel bs) bs (neighbourhood_size_ m) start_bucket free_bucket in
  match r with
  | None => Ok (with_buckets m bs, vsize bs)
  | Some free_bucket =>
      let* '(bs, r) := install bs object_it start_bucket free_bucket in
      Ok (with_buckets m bs, r)
  end.

(** Lines 323-325: the chain walk of [FindObject]. *)
Fixpoint chain_walk (fuel : nat) (l : list (nat * ObjectType)) (bs : list Bucket)
    (key : KeyType) (start_bucket : Z) : outcome Z :=
  match fuel with
  | O => Timeout
  | S fuel =>
      let* b := read bs start_bucket in
      let* o := deref l (object_it_ b) in
      if negb (bool_decide (o.1 = key)) && negb (next_delta_ b =? NULL_DELTA)
      then chain_walk fuel l bs key (start_bucket + to_diff (next_delta_ b))
      else Ok start_bucket
  end.

(** Lines 317-345. *)
Definition FindObject (m : HashMap) (key : KeyType) : outcome Z :=
  let bs := buckets_ m in
  let* start_bucket := GetStartBucket bs key in
  let* sb := read bs start_bucket in
  if first_delta_ sb =? NULL_DELTA then Ok (vsize bs) else
  let start_bucket := start_bucket + to_diff (first_delta_ sb) in
  let* start_bucket := chain_walk (scan_fuel bs) (objects_ m) bs key start_bucket in
  let* b := read bs start_bucket in
  let* o := deref (objects_ m) (object_it_ b) in
  if negb (bool_decide (o.1 = key)) then Ok (vsize bs) else Ok start_bucket.

(** Lines 223-231: the loop of [Reallocate] over the nodes of [objects_]. *)
Fixpoint reinsert (m : HashMap) (its : list (nat * ObjectType))
  : outcome (HashMap * bool) :=
  match its with
  | [] => Ok (m, true)
  | (id, _) :: its =>
      let* '(m, bucket_it) := InsertObject m (Node id) in
      if bucket_it =? vsize (buckets_ m) then Ok (m, false)
      else reinsert m its
  end.

(** Lines 213-232. *)
Definition Reallocate (m : HashMap) (new_capacity new_neighbourhood_size : Z)
  : outcome (HashMap * bool) :=
  if (new_capacity <=? vsize (buckets_ m))
     && (new_neighbourhood_size <=? neighbourhood_size_ m)
  then Ok (m, false) else
  if max_size <? new_capacity then Throw bad_alloc else
  let m := mkHashMap (objects_ m)
             (replicate (Z.to_nat new_capacity) Bucket_default)
             new_neighbourhood_size (next_node m) in
  reinsert m (objects_ m).

(** The capacity and neighbourhood size that one pass of the [while] loop of
    [HandleCollision] hands to [Reallocate] (lines 202-206). *)
Definition retry_capacity (m : HashMap) : Z :=
  if (vsize (buckets_ m) <=? to_size (neighbourhood_size_ m * neighbourhood_modifier_))
     || (vsize (buckets_ m) <=? size m)
  then to_size (vsize (buckets_ m) * size_modifier_)
  else vsize (buckets_ m).

Definition retry_neighbourhood (m : HashMap) : Z :=
  to_size (neighbourhood_size_ m * neighbourhood_modifier_).

(** Lines 201-207. *)
Fixpoint retry_loop (fuel : nat) (m : HashMap) (handle : bool) : outcome HashMap :=
  if handle then Ok m else
  match fuel with
  | O => Timeout
  | S fuel =>
      let* '(m, handle) := Reallocate m (retry_capacity m) (retry_neighbourhood m) in
      retry_loop fuel m handle
  end.

(** Lines 195-211.  The handler rethrows what it catches. *)
Definition HandleCollision (fuel : nat) (m : HashMap) : outcome HashMap :=
  let* '(m, handle) :=
     (if vsize (buckets_ m) <=? size m
      then Reallocate m (to_size (vsize (buckets_ m) * size_modifier_))
                      (neighbourhood_size_ m)
      else Ok (m, false)) in
  retry_loop fuel m handle.

(** Each pass of the [while] loop triples the neighbourhood size, which
    never exceeds the capacity; 64 passes exhaust [size_t]. *)
Definition collision_fuel : nat := 64.

(** Lines 75-101 (both overloads). *)
Definition insert (m : HashMap) (value : ObjectType) : outcome (HashMap * iterator) :=
  let* it := FindObject m value.1 in
  if negb (it =? vsize (buckets_ m)) then
    let* b := read (buckets_ m) it in
    Ok (m, object_it_ b)
  else
    let node := next_node m in
    let m := mkHashMap ((node, value) :: objects_ m) (buckets_ m)
               (neighbourhood_size_ m) (S node) in
    let* '(m, it) := InsertObject m (Node node) in
    let* '(m, it) := (if it =? vsize (buckets_ m) then
                   let* m := HandleCollision collision_fuel m in
                   let* it := FindObject m value.1 in
                   Ok (m, it)
                 else Ok (m, it)) in
    let* b := read (buckets_ m) it in
    Ok (m, object_it_ b).

(** Lines 103-110. *)
Definition erase (m : HashMap) (key : KeyType) : outcome HashMap :=
  let* it := FindObject m key in
  if it =? vsize (buckets_ m) then Ok m else
  let* b := read (buckets_ m) it in
  let* l := list_erase (objects_ m) (object_it_ b) in
  let* bs := EraseObject (buckets_ m) it in
  Ok (mkHashMap l bs (neighbourhood_size_ m) (next_node m)).

(** Lines 128-142. *)
Definition find (m : HashMap) (key : KeyType) : outcome iterator :=
  let* it := FindObject m key in
  if it =? vsize (buckets_ m) then Ok End else
  let* b := read (buckets_ m) it in
  Ok (object_it_ b).

(** Lines 144-152: [operator[]]; the reference returned is the value of the
    node the iterator designates. *)
Definition subscript (m : HashMap) (key : KeyType) : outcome (HashMap * iterator) :=
  insert m (key, ValueType_default).

(** Lines 154-160. *)
Definition at_ (m : HashMap) (key : KeyType) : outcome ValueType :=
  let* it := FindObject m key in
  if it =? vsize (buckets_ m) then Throw out_of_range else
  let* b := read (buckets_ m) it in
  let* o := deref (objects_ m) (object_it_ b) in
  Ok o.2.

(** Lines 162-166. *)
Definition clear (m : HashMap) : HashMap :=
  mkHashMap [] (replicate (Z.to_nat min_neighbourhood_size_) Bucket_default)
            min_neighbourhood_size_ (next_node m).

(** * Views and predicates used in the statements *)

(** ** Field views of the bucket vector *)

Definition B (bs : list Bucket) (i : Z) : Bucket :=
  default Bucket_default (getb bs i).

Definition it_at (bs : list Bucket) (i : Z) : iterator := object_it_ (B bs i).
Definition fd_at (bs : list Bucket) (i : Z) : Z := first_delta_ (B bs i).
Definition nx_at (bs : list Bucket) (i : Z) : Z := next_delta_ (B bs i).
Definition pv_at (bs : list Bucket) (i : Z) : Z := prev_delta_ (B bs i).
Definition ob_at (bs : list Bucket) (i : Z) : Z := object_bucket_ (B bs i).

(** Pointwise update of a field view. *)
Definition upd {A} (f : Z → A) (i : Z) (v : A) : Z → A :=
  λ j, if decide (j = i) then v else f j.

(** [bs'] has the size of [bs] and the given field views. *)
Definition has_views (bs' : list Bucket) (n : Z) (fit : Z → iterator)
    (ffd fnx fpv fob : Z → Z) : Prop :=
  vsize bs' = n ∧
  (∀ j, it_at bs' j = fit j) ∧
  (∀ j, fd_at bs' j = ffd j) ∧
  (∀ j, nx_at bs' j = fnx j) ∧
  (∀ j, pv_at bs' j = fpv j) ∧
  (∀ j, ob_at bs' j = fob j).

(** ** Chains *)

(** [first_in P lo r]: [r] is the least index at or after [lo] that satisfies
    [P], if there is one.  [last_in P hi r]: [r] is the greatest index before
    [hi] that satisfies [P], if there is one. *)
Definition first_in (P : Z → Prop) (lo : Z) (r : option Z) : Prop :=
  match r with
  | None => ∀ j, lo ≤ j → ¬ P j
  | Some j => lo ≤ j ∧ P j ∧ ∀ m, lo ≤ m < j → ¬ P m
  end.

Definition last_in (P : Z → Prop) (hi : Z) (r : option Z) : Prop :=
  match r with
  | None => ∀ j, j < hi → ¬ P j
  | Some j => j < hi ∧ P j ∧ ∀ m, j < m < hi → ¬ P m
  end.

(** The buckets whose occupant has home [h]. *)
Definition homed (bs : list Bucket) (h : Z) : Z → Prop := λ j, ob_at bs j = h.

(** The bucket a delta stored in bucket [i] designates. *)
Definition fwd (i d : Z) : option Z :=
  if d =? NULL_DELTA then None else Some (i + d).
Definition bwd (i d : Z) : option Z :=
  if d =? NULL_DELTA then None else Some (i - d).

(** The delta that designates [r] from bucket [i]. *)
Definition enc (i : Z) (r : option Z) : Z :=
  match r with
  | None => NULL_DELTA
  | Some j => j - i
  end.
Definition enc_back (i : Z) (r : option Z) : Z :=
  match r with
  | None => NULL_DELTA
  | Some j => i - j
  end.

Definition upd_opt {A} (f : Z → A) (r : option Z) (g : Z → A) : Z → A :=
  match r with
  | None => f
  | Some i => upd f i (g i)
  end.

(** The invariant of the bucket vector: [first_delta_] of bucket [h] leads
    to the first bucket with home [h]; an occupied bucket lies in the
    neighbourhood of its home, and its [next_delta_] and [prev_delta_] lead
    to the nearest buckets of the same home on either side; an empty
    bucket has no links. *)
Record table_ok (bs : list Bucket) (nbh : Z) : Prop := mk_table_ok {
  tb_size : vsize bs < 9223372036854775808;
  tb_head : ∀ h, 0 ≤ h < vsize bs →
    first_in (homed bs h) h (fwd h (fd_at bs h));
  tb_empty : ∀ i, 0 ≤ i < vsize bs → ob_at bs i = EMPTY_BUCKET →
    nx_at bs i = NULL_DELTA ∧ pv_at bs i = NULL_DELTA;
  tb_home : ∀ i, 0 ≤ i < vsize bs → ob_at bs i ≠ EMPTY_BUCKET →
    0 ≤ ob_at bs i ≤ i ∧ i < ob_at bs i + nbh;
  tb_next : ∀ i, 0 ≤ i < vsize bs → ob_at bs i ≠ EMPTY_BUCKET →
    first_in (homed bs (ob_at bs i)) (i + 1) (fwd i (nx_at bs i));
  tb_prev : ∀ i, 0 ≤ i < vsize bs → ob_at bs i ≠ EMPTY_BUCKET →
    last_in (homed bs (ob_at bs i)) i (bwd i (pv_at bs i))
}.

(** Following [first_delta_] of bucket [h], then [next_delta_] repeatedly. *)
Fixpoint chain_from (fuel : nat) (bs : list Bucket) (cur : Z) : list Z :=
  match fuel with
  | O => []
  | S fuel =>
      cur :: (if nx_at bs cur =? NULL_DELTA then []
              else chain_from fuel bs (cur + to_diff (nx_at bs cur)))
  end.

Definition chain (bs : list Bucket) (h : Z) : list Z :=
  if fd_at bs h =? NULL_DELTA then []
  else chain_from (length bs) bs (h + to_diff (fd_at bs h)).

(** The occupied buckets with home [h], by increasing index. *)
Definition occupants (bs : list Bucket) (h : Z) : list Z :=
  filter (λ i, ob_at bs i = h) (seqZ 0 (vsize bs)).

(** A property of bucket vectors that moving an occupant to an empty bucket
    preserves. *)
Definition move_stable (I : list Bucket → Prop) : Prop :=
  ∀ bs bs' s f,
    I bs → 0 ≤ s < vsize bs → 0 ≤ f < vsize bs →
    ob_at bs s ≠ EMPTY_BUCKET → ob_at bs f = EMPTY_BUCKET →
    vsize bs' = vsize bs →
    (∀ j, ob_at bs' j = upd (upd (ob_at bs) s EMPTY_BUCKET) f (ob_at bs s) j) →
    (∀ j, it_at bs' j = upd (upd (it_at bs) s (it_at bs f)) f (it_at bs s) j) →
    I bs'.

(** ** The displacement-candidate search *)

(** The test of lines 255-256 on the bucket at index [s]. *)
Definition passes (bs : list Bucket) (nbh free_bucket s : Z) : Prop :=
  to_size (free_bucket - (0 + to_diff (ob_at bs s))) < nbh.

(** The occupant of [s] can move to [free_bucket] and stay in the
    neighbourhood of its home. *)
Definition can_move (bs : list Bucket) (nbh free_bucket s : Z) : Prop :=
  ob_at bs s ≠ EMPTY_BUCKET ∧ ob_at bs s ≤ s ∧ free_bucket - ob_at bs s < nbh.

(** The window the search looks at. *)
Definition in_window (nbh free_bucket s : Z) : Prop :=
  Z.max (free_bucket - (nbh - 1)) 0 ≤ s ≤ free_bucket - 1.

(** ** The container *)

Definition keys (l : list (nat * ObjectType)) : list KeyType :=
  (λ n, n.2.1) <$> l.

(** The home index of a key in the bucket vector [bs]. *)
Definition home_index (bs : list Bucket) (key : KeyType) : Z :=
  to_size (hasher_ key) mod vsize bs.

Record store_ok (l : list (nat * ObjectType)) (next : nat) : Prop := mk_store_ok {
  st_ids : NoDup (l.*1);
  st_keys : NoDup (keys l);
  st_fresh : ∀ id o, (id, o) ∈ l → (id < next)%nat
}.

(** The occupied buckets of [bs] hold exactly the nodes [placed], each once,
    at the home index of its key. *)
Record nodes_ok (placed : list (nat * ObjectType)) (bs : list Bucket) : Prop :=
  mk_nodes_ok {
  nd_node : ∀ i, 0 ≤ i < vsize bs → ob_at bs i ≠ EMPTY_BUCKET →
    ∃ id o, it_at bs i = Node id ∧ (id, o) ∈ placed ∧
            ob_at bs i = home_index bs o.1;
  nd_placed : ∀ id o, (id, o) ∈ placed →
    ∃ i, 0 ≤ i < vsize bs ∧ ob_at bs i ≠ EMPTY_BUCKET ∧ it_at bs i = Node id;
  nd_inj : ∀ i j, 0 ≤ i < vsize bs → 0 ≤ j < vsize bs →
    ob_at bs i ≠ EMPTY_BUCKET → ob_at bs j ≠ EMPTY_BUCKET →
    it_at bs i = it_at bs j → i = j
}.

Record capacity_ok (m : HashMap) : Prop := mk_capacity_ok {
  cp_pos : 0 < neighbourhood_size_ m;
  cp_le : neighbourhood_size_ m ≤ capacity m;
  cp_max : capacity m ≤ max_size
}.

Record Inv (m : HashMap) : Prop := mk_Inv {
  inv_store : store_ok (objects_ m) (next_node m);
  inv_capacity : capacity_ok m;
  inv_table : table_ok (buckets_ m) (neighbourhood_size_ m);
  inv_nodes : nodes_ok (objects_ m) (buckets_ m)
}.

(** The containers the public operations produce from an empty one. *)
Inductive reachable : HashMap → Prop :=
  | reach_new : reachable HashMap_new
  | reach_insert m value m' it :
      reachable m → insert m value = Ok (m', it) → reachable m'
  | reach_erase m key m' :
      reachable m → erase m key = Ok m' → reachable m'
  | reach_subscript m key m' it :
      reachable m → subscript m key = Ok (m', it) → reachable m'
  | reach_clear m : reachable m → reachable (clear m).

(** ** The growth policy, in the words of the specification *)

(** The capacity and neighbourhood size one rehash attempt asks for. *)
Definition rehash_policy (count cap nbh : Z) : Z * Z :=
  if cap <=? count then (cap * 3, nbh)
  else if cap <=? nbh * 3 then (cap * 3, nbh * 3)
  else (cap, nbh * 3).

(** Reapply the policy until an attempt places every entry. *)
Fixpoint rehash_by_policy (fuel : nat) (m : HashMap) : outcome HashMap :=
  match fuel with
  | O => Timeout
  | S fuel =>
      let '(c, n) :=
        rehash_policy (size m) (capacity m) (neighbourhood_size_ m) in
      let* '(m, ok) := Reallocate m c n in
      if ok : bool then Ok m else rehash_by_policy fuel m
  end.

(** ** Sequences of insertions *)

Fixpoint insert_all (m : HashMap) (values : list ObjectType) : outcome HashMap :=
  match values with
  | [] => Ok m
  | value :: values =>
      let* '(m, _) := insert m value in
      insert_all m values
  end.

(** The statement that the displacement-candidate search picks the candidate
    with the smallest index, and what the code does instead. *)
Definition chooses_earliest (bs : list Bucket) (nbh free_bucket : Z) : Prop :=
  ∀ fit,
    scan_fit (scan_fuel bs) bs nbh free_bucket free_bucket = Ok fit →
    scan_failed nbh free_bucket fit = false →
    ∀ s, in_window nbh free_bucket s → can_move bs nbh free_bucket s →
         fit - 1 ≤ s.

Definition chooses_latest (bs : list Bucket) (nbh free_bucket : Z) : Prop :=
  ∀ fit,
    scan_fit (scan_fuel bs) bs nbh free_bucket free_bucket = Ok fit →
    scan_failed nbh free_bucket fit = false →
    in_window nbh free_bucket (fit - 1) ∧
    can_move bs nbh free_bucket (fit - 1) ∧
    ∀ s, in_window nbh free_bucket s → can_move bs nbh free_bucket s →
         s ≤ fit - 1.

(** The statement that two insertions of a key leave the first value stored. *)
Definition second_insert_keeps_first_value (m : HashMap) (key : KeyType)
    (v1 v2 : ValueType) : Prop :=
  ∀ m1 it1 m2 it2,
    insert m (key, v1) = Ok (m1, it1) →
    insert m1 (key, v2) = Ok (m2, it2) →
    at_ m2 key = Ok v1 ∧ it2 = it1 ∧ size m2 = size m1.

End HashMap.

(** The links of an occupied bucket, decoded. *)
Record links (bs : list Bucket) (e : Z) (h : Z) (rp rn : option Z) : Prop := mk_links {
  lk_home : ob_at bs e = h;
  lk_range : 0 ≤ h ≤ e ∧ e < vsize bs;
  lk_prev : bwd e (pv_at bs e) = rp;
  lk_next : fwd e (nx_at bs e) = rn;
  lk_prev_in : last_in (homed bs h) e rp;
  lk_next_in : first_in (homed bs h) (e + 1) rn;
  lk_prev_range : ∀ p, rp = Some p → h ≤ p < e ∧ pv_at bs e = e - p;
  lk_next_range : ∀ n, rn = Some n → e < n < vsize bs ∧ nx_at bs e = n - e
}.

(** * A concrete instance: integer keys and values *)

Definition int_hasher (key : Z) : Z := key.
Definition int_max_size : Z := 1000000.

Definition IntMap : Type := @HashMap Z Z.

Definition int_map (values : list (Z * Z)) : IntMap :=
  match insert_all int_hasher int_max_size HashMap_new values with
  | Ok m => m
  | _ => HashMap_new
  end.

(** Keys [0 .. 3] fill the initial table; key [4] forces a rehash to
    capacity 12 with neighbourhood size 4. *)
Definition five_keys : list (Z * Z) := [(0, 0); (1, 10); (2, 20); (3, 30); (4, 40)].

Definition map_of_five : IntMap := Eval vm_compute in int_map five_keys.

Definition table_of_five : list Bucket := Eval vm_compute in buckets_ map_of_five.

(** The same map after the insertion of key [7]. *)
Definition map_of_six : IntMap := Eval vm_compute in int_map (five_keys ++ [(7, 70)]).

(** The state in which [insert] calls [HandleCollision] for key [4]: the
    four buckets of the initial table are occupied and the fifth entry is in
    the list already. *)
Definition map_of_four : IntMap :=
  Eval vm_compute in int_map [(0, 0); (1, 10); (2, 20); (3, 30)].

Definition map_awaiting_rehash : IntMap :=
  Eval vm_compute in
    mkHashMap ((next_node map_of_four, (4, 40)) :: objects_ map_of_four)
              (buckets_ map_of_four) (neighbourhood_size_ map_of_four)
              (S (next_node map_of_four)).

(** * The remaining constructors, iteration and writes through a handle *)

Section HashMap_more.

Context {KeyType ValueType : Type} `{EqDecision KeyType}.
Variable hasher_ : KeyType → Z.
Variable ValueType_default : ValueType.
Variable max_size : Z.

Local Abbreviation HM := (@HashMap KeyType ValueType).
Local Abbreviation OT := (@ObjectType KeyType ValueType).

(** Lines 30-39: the range constructor, to which the constructor from an
    initializer list delegates: an empty container, then [insert] of each
    element in turn. *)
Definition HashMap_range (values : list OT) : outcome HM :=
  insert_all hasher_ max_size HashMap_new values.

(** Lines 41-46: the copy constructor.  The result of [Reallocate] is not
    looked at; the entries of [other] are inserted from [other.begin()] to
    [other.end()]. *)
Definition HashMap_copy (other : HM) : outcome HM :=
  let* '(m, _) := Reallocate hasher_ max_size HashMap_new
                    (vsize (buckets_ other)) (neighbourhood_size_ other) in
  insert_all hasher_ max_size m ((objects_ other).*2).

(** Lines 112-126: [begin()] and [end()] are those of [objects_]. *)
Definition begin_ (m : HM) : iterator :=
  match objects_ m with
  | [] => End
  | (id, _) :: _ => Node id
  end.

Definition end_ (m : HM) : iterator := End.

(** The entries in the order in which a loop from [begin()] to [end()]
    visits them: the order of the list [objects_]. *)
Definition entries (m : HM) : list OT := (objects_ m).*2.

(** [it->second = v]: a store through a list iterator.  The key of an entry
    is [const]. *)
Fixpoint node_store (l : list (nat * OT)) (id : nat) (v : ValueType)
  : list (nat * OT) :=
  match l with
  | [] => []
  | (n, o) :: l =>
      if Nat.eqb n id then (n, (o.1, v)) :: l else (n, o) :: node_store l id v
  end.

Definition assign (m : HM) (it : iterator) (v : ValueType) : outcome HM :=
  match it with
  | Node id =>
      match node_lookup (objects_ m) id with
      | Some _ =>
          Ok (mkHashMap (node_store (objects_ m) id v) (buckets_ m)
                        (neighbourhood_size_ m) (next_node m))
      | None => Fault
      end
  | _ => Fault
  end.

(** [map[key] = v]: lines 144-147 followed by the store through the
    reference returned. *)
Definition subscript_assign (m : HM) (key : KeyType) (v : ValueType) : outcome HM :=
  let* '(m, it) := subscript hasher_ ValueType_default max_size m key in
  assign m it v.

(** ** Predicates used in the statements *)

(** The value of the first pair of [values] with the given key. *)
Fixpoint first_value (key : KeyType) (values : list OT) : option ValueType :=
  match values with
  | [] => None
  | (k, v) :: values => if decide (k = key) then Some v else first_value key values
  end.

(** The entry list after [insert] of each pair of [values] in turn into a
    container whose entries are [es]: a new key goes to the front, a key
    already there changes nothing. *)
Fixpoint insert_entries (es values : list OT) : list OT :=
  match values with
  | [] => es
  | (k, v) :: values =>
      insert_entries (if decide (k ∈ es.*1) then es else (k, v) :: es) values
  end.

(** What [at] returns in a container whose entries are [values]. *)
Definition at_of (key : KeyType) (values : list OT) : outcome ValueType :=
  match first_value key values with
  | Some v => Ok v
  | None => Throw out_of_range
  end.

(** The occupied buckets, by increasing index. *)
Definition occupied (bs : list Bucket) : list Z :=
  filter (λ i, ob_at bs i ≠ EMPTY_BUCKET) (seqZ 0 (vsize bs)).

(** The capacity and the neighbourhood size of [m'] are those of [m]
    multiplied by powers of 3. *)
Definition grown (m m' : HM) : Prop :=
  ∃ a b : nat,
    capacity m' = capacity m * 3 ^ Z.of_nat a ∧
    neighbourhood_size_ m' = neighbourhood_size_ m * 3 ^ Z.of_nat b.

(** The containers that the constructors, the public operations and stores
    through handles produce. *)
Inductive usable : HM → Prop :=
  | usable_new : usable HashMap_new
  | usable_insert m value m' it :
      usable m → insert hasher_ max_size m value = Ok (m', it) → usable m'
  | usable_erase m key m' :
      usable m → erase hasher_ m key = Ok m' → usable m'
  | usable_subscript m key m' it :
      usable m → subscript hasher_ ValueType_default max_size m key = Ok (m', it) →
      usable m'
  | usable_clear m : usable m → usable (clear m)
  | usable_assign m it v m' :
      usable m → assign m it v = Ok m' → usable m'
  | usable_copy other m :
      usable other → HashMap_copy other = Ok m → usable m.

End HashMap_more.

(** The copy of the container of the five keys. *)
Definition copy_of_five : IntMap :=
  Eval vm_compute in
    match HashMap_copy int_hasher int_max_size map_of_five with
    | Ok m => m
    | _ => HashMap_new
    end.

(** The container of the five keys after [erase(3)]. *)
Definition map_without_three : IntMap :=
  Eval vm_compute in
    match erase int_hasher map_of_five 3 with
    | Ok m => m
    | _ => HashMap_new
    end.

(** The statement that a placement whose free bucket lies within the first
    [H − 1] buckets goes through the hop loop without a fault and reports
    failure when no occupant of the window can move. *)
Definition low_edge_reports_failure (bs : list Bucket)
    (nbh start_bucket free_bucket : Z) : Prop :=
  free_bucket - (nbh - 1) < 0 →
  ∃ bs' r, hop_loop (scan_fuel bs) bs nbh start_bucket free_bucket = Ok (bs', r) ∧
    ((∀ s, in_window nbh free_bucket s → ¬ can_move bs nbh free_bucket s) →
     r = None).

(** The bucket vector of an empty container. *)
Definition initial_table : list Bucket :=
  Eval vm_compute in buckets_ (HashMap_new : IntMap).

(** * Basic facts *)

(** ** Machine integers *)

Arguments to_size : simpl never.
Arguments to_diff : simpl never.


Lemma to_size_small z : 0 ≤ z < size_modulus → to_size z = z.
Proof. intros. unfold to_size. apply Z.mod_small. lia. Qed.

Lemma to_size_range z : 0 ≤ to_size z < size_modulus.
Proof. unfold to_size. apply Z.mod_pos_bound. reflexivity. Qed.

Lemma to_diff_small z : 0 ≤ z < 9223372036854775808 → to_diff z = z.
Proof.
  intros. unfold to_diff.
  destruct (Z.ltb_spec z 9223372036854775808); [done | lia].
Qed.

Lemma to_diff_SIZE_MAX : to_diff SIZE_MAX = -1.
Proof. reflexivity. Qed.

Lemma to_size_neg z : - size_modulus ≤ z < 0 → to_size z = z + size_modulus.
Proof.
  intros. unfold to_size.
  rewrite <- (Z.mod_add z 1 size_modulus) by done.
  apply Z.mod_small. lia.
Qed.

(** ** The bucket vector and its field views *)

Lemma vsize_nonneg bs : 0 ≤ vsize bs.
Proof. unfold vsize. lia. Qed.

Lemma getb_Some_range bs i b : getb bs i = Some b → 0 ≤ i < vsize bs.
Proof.
  unfold getb, vsize. destruct (Z.ltb_spec i 0); [done |].
  intros Hl. apply lookup_lt_Some in Hl. lia.
Qed.

Lemma getb_in_range bs i : 0 ≤ i < vsize bs → getb bs i = Some (B bs i).
Proof.
  unfold B, getb, vsize. intros Hi.
  destruct (Z.ltb_spec i 0); [lia |].
  destruct (lookup_lt_is_Some_2 bs (Z.to_nat i)) as [b Hb]; [lia |].
  by rewrite Hb.
Qed.

Lemma getb_out_of_range bs i : ¬ (0 ≤ i < vsize bs) → getb bs i = None.
Proof.
  intros Hi. destruct (getb bs i) as [b|] eqn:Hb; [|done].
  apply getb_Some_range in Hb. contradiction.
Qed.

Lemma getb_Some_B bs i b : getb bs i = Some b → B bs i = b.
Proof. unfold B. by intros ->. Qed.

Lemma B_out_of_range bs i : ¬ (0 ≤ i < vsize bs) → B bs i = Bucket_default.
Proof. intros Hi. unfold B. by rewrite getb_out_of_range. Qed.

Lemma vsize_setb bs i b : vsize (setb bs i b) = vsize bs.
Proof. unfold vsize, setb. by rewrite length_insert. Qed.

Lemma B_setb bs i b j :
  0 ≤ i < vsize bs → B (setb bs i b) j = if decide (j = i) then b else B bs j.
Proof.
  intros Hi. unfold B, getb, setb. unfold vsize in Hi.
  destruct (decide (j = i)) as [-> | Hne].
  - destruct (Z.ltb_spec i 0); [lia |].
    rewrite list_lookup_insert_eq; [done | lia].
  - destruct (Z.ltb_spec j 0); [done |].
    rewrite list_lookup_insert_ne; [done | lia].
Qed.

Lemma vsize_replicate n b : 0 ≤ n → vsize (replicate (Z.to_nat n) b) = n.
Proof. intros. unfold vsize. rewrite length_replicate. lia. Qed.

Lemma B_replicate n b i : 0 ≤ i < n → B (replicate (Z.to_nat n) b) i = b.
Proof.
  intros Hi. unfold B, getb.
  destruct (Z.ltb_spec i 0); [lia |].
  rewrite lookup_replicate_2; [done | lia].
Qed.

Lemma read_in_range bs i : 0 ≤ i < vsize bs → read bs i = Ok (B bs i).
Proof. intros Hi. unfold read. by rewrite getb_in_range. Qed.

Lemma modify_in_range bs i f :
  0 ≤ i < vsize bs → modify bs i f = Ok (setb bs i (f (B bs i))).
Proof. intros Hi. unfold modify. by rewrite getb_in_range. Qed.

Lemma read_Ok bs i b : read bs i = Ok b → 0 ≤ i < vsize bs ∧ b = B bs i.
Proof.
  unfold read. destruct (getb bs i) as [b'|] eqn:Hb; [|done].
  intros [= <-]. split; [by eapply getb_Some_range | by rewrite (getb_Some_B _ _ _ Hb)].
Qed.

(** ** Writes, seen through the field views *)

Local Ltac view_setb :=
  intros;
  unfold it_at, fd_at, nx_at, pv_at, ob_at, upd;
  rewrite B_setb by lia; case_decide; subst; reflexivity.

Lemma has_views_refl bs :
  has_views bs (vsize bs) (it_at bs) (fd_at bs) (nx_at bs) (pv_at bs) (ob_at bs).
Proof. by repeat split. Qed.

Lemma modify_it_spec bs i (g : Bucket → iterator) :
  0 ≤ i < vsize bs →
  ∃ bs', modify bs i (λ b, set_object_it b (g b)) = Ok bs' ∧
    has_views bs' (vsize bs) (upd (it_at bs) i (g (B bs i))) (fd_at bs)
              (nx_at bs) (pv_at bs) (ob_at bs).
Proof.
  intros Hi. eexists. split; [by apply modify_in_range |].
  split; [apply vsize_setb |]. repeat split; view_setb.
Qed.

Lemma modify_fd_spec bs i (g : Bucket → Z) :
  0 ≤ i < vsize bs →
  ∃ bs', modify bs i (λ b, set_first_delta b (g b)) = Ok bs' ∧
    has_views bs' (vsize bs) (it_at bs) (upd (fd_at bs) i (g (B bs i)))
              (nx_at bs) (pv_at bs) (ob_at bs).
Proof.
  intros Hi. eexists. split; [by apply modify_in_range |].
  split; [apply vsize_setb |]. repeat split; view_setb.
Qed.

Lemma modify_nx_spec bs i (g : Bucket → Z) :
  0 ≤ i < vsize bs →
  ∃ bs', modify bs i (λ b, set_next_delta b (g b)) = Ok bs' ∧
    has_views bs' (vsize bs) (it_at bs) (fd_at bs)
              (upd (nx_at bs) i (g (B bs i))) (pv_at bs) (ob_at bs).
Proof.
  intros Hi. eexists. split; [by apply modify_in_range |].
  split; [apply vsize_setb |]. repeat split; view_setb.
Qed.

Lemma modify_pv_spec bs i (g : Bucket → Z) :
  0 ≤ i < vsize bs →
  ∃ bs', modify bs i (λ b, set_prev_delta b (g b)) = Ok bs' ∧
    has_views bs' (vsize bs) (it_at bs) (fd_at bs)
              (nx_at bs) (upd (pv_at bs) i (g (B bs i))) (ob_at bs).
Proof.
  intros Hi. eexists. split; [by apply modify_in_range |].
  split; [apply vsize_setb |]. repeat split; view_setb.
Qed.

Lemma modify_ob_spec bs i (g : Bucket → Z) :
  0 ≤ i < vsize bs →
  ∃ bs', modify bs i (λ b, set_object_bucket b (g b)) = Ok bs' ∧
    has_views bs' (vsize bs) (it_at bs) (fd_at bs)
              (nx_at bs) (pv_at bs) (upd (ob_at bs) i (g (B bs i))).
Proof.
  intros Hi. eexists. split; [by apply modify_in_range |].
  split; [apply vsize_setb |]. repeat split; view_setb.
Qed.

Local Ltac view_swap Hi Hj :=
  intros; unfold swap_field;
  rewrite !read_in_range by lia; simpl;
  rewrite modify_in_range by lia; simpl;
  rewrite modify_in_range by (rewrite vsize_setb; lia);
  eexists; split; [reflexivity |];
  split; [by rewrite !vsize_setb |];
  repeat split; intros;
  unfold it_at, fd_at, nx_at, pv_at, ob_at, upd;
  rewrite !B_setb by (rewrite ?vsize_setb; lia);
  repeat case_decide; subst; try reflexivity; try lia.

Lemma swap_it_spec bs i j :
  0 ≤ i < vsize bs → 0 ≤ j < vsize bs →
  ∃ bs', swap_field object_it_ set_object_it bs i j = Ok bs' ∧
    has_views bs' (vsize bs) (upd (upd (it_at bs) i (it_at bs j)) j (it_at bs i))
              (fd_at bs) (nx_at bs) (pv_at bs) (ob_at bs).
Proof. intros Hi Hj. view_swap Hi Hj. Qed.

Lemma swap_nx_spec bs i j :
  0 ≤ i < vsize bs → 0 ≤ j < vsize bs →
  ∃ bs', swap_field next_delta_ set_next_delta bs i j = Ok bs' ∧
    has_views bs' (vsize bs) (it_at bs) (fd_at bs)
              (upd (upd (nx_at bs) i (nx_at bs j)) j (nx_at bs i))
              (pv_at bs) (ob_at bs).
Proof. intros Hi Hj. view_swap Hi Hj. Qed.

Lemma swap_pv_spec bs i j :
  0 ≤ i < vsize bs → 0 ≤ j < vsize bs →
  ∃ bs', swap_field prev_delta_ set_prev_delta bs i j = Ok bs' ∧
    has_views bs' (vsize bs) (it_at bs) (fd_at bs) (nx_at bs)
              (upd (upd (pv_at bs) i (pv_at bs j)) j (pv_at bs i))
              (ob_at bs).
Proof. intros Hi Hj. view_swap Hi Hj. Qed.

Lemma swap_ob_spec bs i j :
  0 ≤ i < vsize bs → 0 ≤ j < vsize bs →
  ∃ bs', swap_field object_bucket_ set_object_bucket bs i j = Ok bs' ∧
    has_views bs' (vsize bs) (it_at bs) (fd_at bs) (nx_at bs) (pv_at bs)
              (upd (upd (ob_at bs) i (ob_at bs j)) j (ob_at bs i)).
Proof. intros Hi Hj. view_swap Hi Hj. Qed.

(** * Least and greatest elements under insertion, removal and moves *)

Section first_last.

Implicit Types (P Q : Z → Prop) (r : option Z).

Lemma first_in_ext P Q lo r :
  (∀ j, lo ≤ j → (P j ↔ Q j)) → first_in P lo r → first_in Q lo r.
Proof.
  intros HPQ. destruct r as [j|]; simpl.
  - intros (Hlo & HP & Hmin). split; [done |]. split; [by apply HPQ |].
    intros m Hm HQ. apply (Hmin m Hm). apply HPQ; [lia | done].
  - intros Hnone j Hj HQ. apply (Hnone j Hj). by apply HPQ.
Qed.

Lemma last_in_ext P Q hi r :
  (∀ j, j < hi → (P j ↔ Q j)) → last_in P hi r → last_in Q hi r.
Proof.
  intros HPQ. destruct r as [j|]; simpl.
  - intros (Hhi & HP & Hmax). split; [done |]. split; [by apply HPQ |].
    intros m Hm HQ. apply (Hmax m Hm). apply HPQ; [lia | done].
  - intros Hnone j Hj HQ. apply (Hnone j Hj). by apply HPQ.
Qed.

Lemma first_in_unique P lo r r' :
  first_in P lo r → first_in P lo r' → r = r'.
Proof.
  destruct r as [j|], r' as [j'|]; simpl; try done.
  - intros (? & HP & Hm) (? & HP' & Hm'). f_equal.
    destruct (Z.lt_trichotomy j j') as [? | [? | ?]]; [| done |].
    + exfalso. apply (Hm' j); [lia | done].
    + exfalso. apply (Hm j'); [lia | done].
  - intros (? & HP & _) Hn. exfalso. by apply (Hn j).
  - intros Hn (? & HP & _). exfalso. by apply (Hn j').
Qed.

Lemma last_in_unique P hi r r' :
  last_in P hi r → last_in P hi r' → r = r'.
Proof.
  destruct r as [j|], r' as [j'|]; simpl; try done.
  - intros (? & HP & Hm) (? & HP' & Hm'). f_equal.
    destruct (Z.lt_trichotomy j j') as [? | [? | ?]]; [| done |].
    + exfalso. apply (Hm j'); [lia | done].
    + exfalso. apply (Hm' j); [lia | done].
  - intros (? & HP & _) Hn. exfalso. by apply (Hn j).
  - intros Hn (? & HP & _). exfalso. by apply (Hn j').
Qed.

(** Moving the lower bound across indices outside [P]. *)
Lemma first_in_from P lo lo' r :
  (∀ m, Z.min lo lo' ≤ m < Z.max lo lo' → ¬ P m) →
  first_in P lo r → first_in P lo' r.
Proof.
  intros Hgap. destruct r as [j|]; simpl.
  - intros (Hlo & HP & Hmin).
    assert (lo' ≤ j).
    { destruct (Z.le_gt_cases lo' j); [done |]. exfalso. apply (Hgap j); [lia | done]. }
    split; [done |]. split; [done |].
    intros m Hm HPm. destruct (Z.le_gt_cases lo m).
    + apply (Hmin m); [lia | done].
    + apply (Hgap m); [lia | done].
  - intros Hn j Hj HPj. destruct (Z.le_gt_cases lo j).
    + by apply (Hn j).
    + apply (Hgap j); [lia | done].
Qed.

Lemma last_in_from P hi hi' r :
  (∀ m, Z.min hi hi' ≤ m < Z.max hi hi' → ¬ P m) →
  last_in P hi r → last_in P hi' r.
Proof.
  intros Hgap. destruct r as [j|]; simpl.
  - intros (Hhi & HP & Hmax).
    assert (j < hi').
    { destruct (Z.le_gt_cases hi' j); [| done]. exfalso. apply (Hgap j); [lia | done]. }
    split; [done |]. split; [done |].
    intros m Hm HPm. destruct (Z.le_gt_cases hi m).
    + apply (Hgap m); [lia | done].
    + apply (Hmax m); [lia | done].
  - intros Hn j Hj HPj. destruct (Z.le_gt_cases hi j).
    + apply (Hgap j); [lia | done].
    + by apply (Hn j).
Qed.

(** ** Adding an index *)

Lemma first_in_add_keep P f lo r :
  first_in P lo r →
  f < lo ∨ (∃ j, r = Some j ∧ j < f) →
  first_in (λ j, j = f ∨ P j) lo r.
Proof.
  intros Hr Hcase. destruct r as [j|]; simpl in *.
  - destruct Hr as (Hlo & HP & Hmin). split; [done |]. split; [by right |].
    intros m Hm [-> | HPm]; [| by apply (Hmin m)].
    destruct Hcase as [? | (j' & [= <-] & ?)]; lia.
  - intros j Hj [-> | HPj]; [| by apply (Hr j)].
    destruct Hcase as [? | (j' & [=] & ?)]; lia.
Qed.

Lemma first_in_add_new P f lo r :
  first_in P lo r → lo ≤ f →
  r = None ∨ (∃ j, r = Some j ∧ f < j) →
  first_in (λ j, j = f ∨ P j) lo (Some f).
Proof.
  intros Hr Hlo Hcase. simpl. split; [done |]. split; [by left |].
  intros m Hm [-> | HPm]; [lia |].
  destruct Hcase as [-> | (j & -> & Hj)]; simpl in Hr.
  - by apply (Hr m); [lia |].
  - destruct Hr as (_ & _ & Hmin). apply (Hmin m); [lia | done].
Qed.

Lemma last_in_add_keep P f hi r :
  last_in P hi r →
  hi ≤ f ∨ (∃ j, r = Some j ∧ f < j) →
  last_in (λ j, j = f ∨ P j) hi r.
Proof.
  intros Hr Hcase. destruct r as [j|]; simpl in *.
  - destruct Hr as (Hhi & HP & Hmax). split; [done |]. split; [by right |].
    intros m Hm [-> | HPm]; [| by apply (Hmax m)].
    destruct Hcase as [? | (j' & [= <-] & ?)]; lia.
  - intros j Hj [-> | HPj]; [| by apply (Hr j)].
    destruct Hcase as [? | (j' & [=] & ?)]; lia.
Qed.

Lemma last_in_add_new P f hi r :
  last_in P hi r → f < hi →
  r = None ∨ (∃ j, r = Some j ∧ j < f) →
  last_in (λ j, j = f ∨ P j) hi (Some f).
Proof.
  intros Hr Hhi Hcase. simpl. split; [done |]. split; [by left |].
  intros m Hm [-> | HPm]; [lia |].
  destruct Hcase as [-> | (j & -> & Hj)]; simpl in Hr.
  - by apply (Hr m); [lia |].
  - destruct Hr as (_ & _ & Hmax). apply (Hmax m); [lia | done].
Qed.

(** ** Removing an index *)

Lemma first_in_remove_keep P e lo r :
  first_in P lo r → r ≠ Some e →
  first_in (λ j, j ≠ e ∧ P j) lo r.
Proof.
  intros Hr Hne. destruct r as [j|]; simpl in *.
  - destruct Hr as (Hlo & HP & Hmin). split; [done |].
    split; [split; [congruence | done] |].
    intros m Hm [_ HPm]. by apply (Hmin m).
  - intros j Hj [_ HPj]. by apply (Hr j).
Qed.

Lemma first_in_remove_first P e lo r :
  first_in P lo (Some e) → first_in P (e + 1) r →
  first_in (λ j, j ≠ e ∧ P j) lo r.
Proof.
  intros (Hlo & HPe & Hmin) Hr. destruct r as [j|]; simpl in *.
  - destruct Hr as (Hj & HP & Hmin'). split; [lia |].
    split; [split; [lia | done] |].
    intros m Hm [Hne HPm].
    destruct (Z.lt_trichotomy m e) as [? | [? | ?]]; [| done |].
    + apply (Hmin m); [lia | done].
    + apply (Hmin' m); [lia | done].
  - intros j Hj [Hne HPj].
    destruct (Z.lt_trichotomy j e) as [? | [? | ?]]; [| done |].
    + apply (Hmin j); [lia | done].
    + apply (Hr j); [lia | done].
Qed.

Lemma last_in_remove_keep P e hi r :
  last_in P hi r → r ≠ Some e →
  last_in (λ j, j ≠ e ∧ P j) hi r.
Proof.
  intros Hr Hne. destruct r as [j|]; simpl in *.
  - destruct Hr as (Hhi & HP & Hmax). split; [done |].
    split; [split; [congruence | done] |].
    intros m Hm [_ HPm]. by apply (Hmax m).
  - intros j Hj [_ HPj]. by apply (Hr j).
Qed.

Lemma last_in_remove_last P e hi r :
  last_in P hi (Some e) → last_in P e r →
  last_in (λ j, j ≠ e ∧ P j) hi r.
Proof.
  intros (Hhi & HPe & Hmax) Hr. destruct r as [j|]; simpl in *.
  - destruct Hr as (Hj & HP & Hmax'). split; [lia |].
    split; [split; [lia | done] |].
    intros m Hm [Hne HPm].
    destruct (Z.lt_trichotomy m e) as [? | [? | ?]]; [| done |].
    + apply (Hmax' m); [lia | done].
    + apply (Hmax m); [lia | done].
  - intros j Hj [Hne HPj].
    destruct (Z.lt_trichotomy j e) as [? | [? | ?]]; [| done |].
    + apply (Hr j); [lia | done].
    + apply (Hmax j); [lia | done].
Qed.

End first_last.

(** * The invariant of the bucket vector *)

Lemma ob_at_in_range bs i : ob_at bs i ≠ EMPTY_BUCKET → 0 ≤ i < vsize bs.
Proof.
  intros Hne. destruct (decide (0 ≤ i < vsize bs)) as [|Hout]; [done |].
  exfalso. apply Hne. unfold ob_at. by rewrite B_out_of_range.
Qed.

Lemma homed_in_range bs h i :
  0 ≤ h < vsize bs → vsize bs < 9223372036854775808 → homed bs h i →
  0 ≤ i < vsize bs.
Proof.
  unfold homed. intros Hh Hsz Hi. apply ob_at_in_range. rewrite Hi.
  unfold EMPTY_BUCKET, SIZE_MAX. lia.
Qed.

Lemma fwd_Some i d j : fwd i d = Some j → d ≠ NULL_DELTA ∧ j = i + d.
Proof.
  unfold fwd. destruct (Z.eqb_spec d NULL_DELTA); [done |]. by intros [= <-].
Qed.

Lemma fwd_None i d : fwd i d = None → d = NULL_DELTA.
Proof. unfold fwd. by destruct (Z.eqb_spec d NULL_DELTA). Qed.

Lemma bwd_Some i d j : bwd i d = Some j → d ≠ NULL_DELTA ∧ j = i - d.
Proof.
  unfold bwd. destruct (Z.eqb_spec d NULL_DELTA); [done |]. by intros [= <-].
Qed.

Lemma bwd_None i d : bwd i d = None → d = NULL_DELTA.
Proof. unfold bwd. by destruct (Z.eqb_spec d NULL_DELTA). Qed.

Lemma fwd_enc i r :
  (∀ j, r = Some j → j - i ≠ NULL_DELTA) → fwd i (enc i r) = r.
Proof.
  destruct r as [j|]; simpl; [| done].
  intros Hj. unfold fwd. destruct (Z.eqb_spec (j - i) NULL_DELTA) as [E|_].
  - by destruct (Hj j).
  - f_equal. lia.
Qed.

Lemma bwd_enc_back i r :
  (∀ j, r = Some j → i - j ≠ NULL_DELTA) → bwd i (enc_back i r) = r.
Proof.
  destruct r as [j|]; simpl; [| done].
  intros Hj. unfold bwd. destruct (Z.eqb_spec (i - j) NULL_DELTA) as [E|_].
  - by destruct (Hj j).
  - f_equal. lia.
Qed.

Lemma table_links bs nbh e :
  table_ok bs nbh → 0 ≤ e < vsize bs → ob_at bs e ≠ EMPTY_BUCKET →
  links bs e (ob_at bs e) (bwd e (pv_at bs e)) (fwd e (nx_at bs e)).
Proof.
  intros Hok He Hocc.
  pose proof (tb_size _ _ Hok) as Hsz.
  pose proof (tb_home _ _ Hok e He Hocc) as [Hh Hn].
  pose proof (tb_prev _ _ Hok e He Hocc) as Hp.
  pose proof (tb_next _ _ Hok e He Hocc) as Hx.
  split; try done; try lia.
  - intros p Ep. rewrite Ep in Hp. destruct Hp as (Hlt & Hhp & _).
    apply bwd_Some in Ep as [_ ->].
    assert (0 ≤ e - pv_at bs e < vsize bs) as Hr
      by (eapply (homed_in_range bs (ob_at bs e)); [lia | done | done]).
    assert (ob_at bs (e - pv_at bs e) ≠ EMPTY_BUCKET) as Hocc' by (unfold homed in Hhp; congruence).
    pose proof (tb_home _ _ Hok _ Hr Hocc') as [Hh' _].
    unfold homed in Hhp. rewrite Hhp in Hh'. lia.
  - intros n En. rewrite En in Hx. destruct Hx as (Hlt & Hhn & _).
    apply fwd_Some in En as [_ ->].
    assert (0 ≤ e + nx_at bs e < vsize bs) as Hr
      by (eapply (homed_in_range bs (ob_at bs e)); [lia | done | done]).
    lia.
Qed.

(** * [EraseObject] *)

Ltac hv H :=
  let Hsz := fresh "Hsz" in let Hit := fresh "Hit" in let Hfd := fresh "Hfd" in
  let Hnx := fresh "Hnx" in let Hpv := fresh "Hpv" in let Hob := fresh "Hob" in
  destruct H as (Hsz & Hit & Hfd & Hnx & Hpv & Hob).

(** Rewrite the views of intermediate bucket vectors away. *)
Ltac views1 :=
  match goal with
  | H : ∀ j, it_at ?b j = _ |- context [it_at ?b _] => rewrite !H
  | H : ∀ j, fd_at ?b j = _ |- context [fd_at ?b _] => rewrite !H
  | H : ∀ j, nx_at ?b j = _ |- context [nx_at ?b _] => rewrite !H
  | H : ∀ j, pv_at ?b j = _ |- context [pv_at ?b _] => rewrite !H
  | H : ∀ j, ob_at ?b j = _ |- context [ob_at ?b _] => rewrite !H
  | H : vsize ?b = _ |- context [vsize ?b] => rewrite !H
  end.


Ltac fold_views :=
  repeat match goal with
  | |- context [object_it_ (B ?b ?i)] => change (object_it_ (B b i)) with (it_at b i)
  | |- context [first_delta_ (B ?b ?i)] => change (first_delta_ (B b i)) with (fd_at b i)
  | |- context [next_delta_ (B ?b ?i)] => change (next_delta_ (B b i)) with (nx_at b i)
  | |- context [prev_delta_ (B ?b ?i)] => change (prev_delta_ (B b i)) with (pv_at b i)
  | |- context [object_bucket_ (B ?b ?i)] => change (object_bucket_ (B b i)) with (ob_at b i)
  end.

Ltac views := repeat first [views1 | progress unfold upd | progress fold_views].

Ltac small :=
  unfold size_modulus, NULL_DELTA, EMPTY_BUCKET, SIZE_MAX, size_modifier_,
    neighbourhood_modifier_, min_neighbourhood_size_ in *; lia.

Ltac finish_views :=
  repeat split; intros; views; unfold upd_opt, upd, enc, enc_back;
  rewrite ?Z.add_0_l, ?Z.sub_0_r;
  rewrite ?to_size_small by small;
  repeat case_decide; try done; try lia; try congruence; try (f_equal; lia).

Lemma unlink_spec bs nbh e :
  table_ok bs nbh → 0 ≤ e < vsize bs → ob_at bs e ≠ EMPTY_BUCKET →
  ∃ bs', unlink bs e = Ok bs' ∧
    has_views bs' (vsize bs) (it_at bs)
      (if pv_at bs e =? NULL_DELTA
       then upd (fd_at bs) (ob_at bs e) (enc (ob_at bs e) (fwd e (nx_at bs e)))
       else fd_at bs)
      (upd_opt (nx_at bs) (bwd e (pv_at bs e)) (λ p, enc p (fwd e (nx_at bs e))))
      (upd_opt (pv_at bs) (fwd e (nx_at bs e)) (λ n, enc_back n (bwd e (pv_at bs e))))
      (ob_at bs).
Proof.
  intros Hok He Hocc.
  pose proof (tb_size _ _ Hok) as Hsize.
  destruct (table_links bs nbh e Hok He Hocc) as [_ Hh _ _ _ _ Hpr Hnr].
  unfold unlink. rewrite read_in_range by done. cbn [bind]. fold_views.
  unfold bwd, fwd in *.
  destruct (Z.eqb_spec (pv_at bs e) NULL_DELTA) as [Ep | Ep];
    destruct (Z.eqb_spec (nx_at bs e) NULL_DELTA) as [En | En]; cbn [negb].
  - (* head, last *)
    rewrite to_diff_small by lia.
    edestruct modify_fd_spec as (bs1 & E1 & V1); [| rewrite E1]; [lia |].
    eexists; split; [done |]. hv V1. finish_views.
  - (* head, with successor *)
    destruct (Hnr _ eq_refl) as [Hn Hnx].
    rewrite !to_diff_small by lia.
    edestruct modify_fd_spec as (bs1 & E1 & V1); [| rewrite E1]; [lia |].
    cbn [bind]. hv V1.
    edestruct modify_pv_spec as (bs2 & E2 & V2); [| rewrite E2]; [lia |].
    hv V2.
    eexists; split; [done |]. finish_views.
  - (* with predecessor, last *)
    destruct (Hpr _ eq_refl) as [Hp Hpv].
    rewrite !to_diff_small by lia.
    edestruct modify_nx_spec as (bs1 & E1 & V1); [| rewrite E1]; [lia |].
    eexists; split; [done |]. hv V1. finish_views.
  - (* with predecessor and successor *)
    destruct (Hpr _ eq_refl) as [Hp Hpv]. destruct (Hnr _ eq_refl) as [Hn Hnx].
    rewrite !to_diff_small by lia.
    edestruct modify_nx_spec as (bs1 & E1 & V1); [| rewrite E1]; [lia |].
    cbn [bind]. hv V1.
    edestruct modify_pv_spec as (bs2 & E2 & V2); [| rewrite E2]; [lia |].
    hv V2.
    eexists; split; [done |]. finish_views.
Qed.

Lemma EraseObject_views bs nbh e :
  table_ok bs nbh → 0 ≤ e < vsize bs → ob_at bs e ≠ EMPTY_BUCKET →
  ∃ bs', EraseObject bs e = Ok bs' ∧
    has_views bs' (vsize bs) (it_at bs)
      (if pv_at bs e =? NULL_DELTA
       then upd (fd_at bs) (ob_at bs e) (enc (ob_at bs e) (fwd e (nx_at bs e)))
       else fd_at bs)
      (upd (upd_opt (nx_at bs) (bwd e (pv_at bs e)) (λ p, enc p (fwd e (nx_at bs e))))
           e NULL_DELTA)
      (upd (upd_opt (pv_at bs) (fwd e (nx_at bs e)) (λ n, enc_back n (bwd e (pv_at bs e))))
           e NULL_DELTA)
      (upd (ob_at bs) e EMPTY_BUCKET).
Proof.
  intros Hok He Hocc. unfold EraseObject.
  destruct (unlink_spec bs nbh e Hok He Hocc) as (bs1 & -> & V1). cbn [bind]. hv V1.
  edestruct modify_nx_spec as (bs2 & E2 & V2); [| rewrite E2]; [lia |]. cbn [bind]. hv V2.
  edestruct modify_pv_spec as (bs3 & E3 & V3); [| rewrite E3]; [lia |]. cbn [bind]. hv V3.
  edestruct modify_ob_spec as (bs4 & E4 & V4); [| rewrite E4]; [lia |]. hv V4.
  eexists; split; [done |].
  repeat split; intros; views; try done.
Qed.

Lemma erase_table_ok bs bs' nbh e fit :
  table_ok bs nbh → 0 ≤ e < vsize bs → ob_at bs e ≠ EMPTY_BUCKET →
  has_views bs' (vsize bs) fit
    (if pv_at bs e =? NULL_DELTA
     then upd (fd_at bs) (ob_at bs e) (enc (ob_at bs e) (fwd e (nx_at bs e)))
     else fd_at bs)
    (upd (upd_opt (nx_at bs) (bwd e (pv_at bs e)) (λ p, enc p (fwd e (nx_at bs e))))
         e NULL_DELTA)
    (upd (upd_opt (pv_at bs) (fwd e (nx_at bs e)) (λ n, enc_back n (bwd e (pv_at bs e))))
         e NULL_DELTA)
    (upd (ob_at bs) e EMPTY_BUCKET) →
  table_ok bs' nbh.
Proof.
  intros Hok He Hocc V. hv V.
  pose proof (tb_size _ _ Hok) as Hsize.
  destruct (table_links bs nbh e Hok He Hocc) as [_ Hh _ _ Hpi Hni Hpr Hnr].
  set (h := ob_at bs e) in *.
  set (rp := bwd e (pv_at bs e)) in *.
  set (rn := fwd e (nx_at bs e)) in *.
  assert (Hhomed : ∀ h' lo, h' ≠ EMPTY_BUCKET →
            ∀ j, lo ≤ j → (j ≠ e ∧ homed bs h' j) ↔ homed bs' h' j).
  { intros h' lo Hh' j _. unfold homed. rewrite Hob. unfold upd.
    case_decide; [subst; split; [by intros [] | done] | tauto]. }
  assert (Hhomed' : ∀ h' hi, h' ≠ EMPTY_BUCKET →
            ∀ j, j < hi → (j ≠ e ∧ homed bs h' j) ↔ homed bs' h' j).
  { intros h' hi Hh' j _. by apply (Hhomed h' j). }
  assert (Hocc' : ∀ i, ob_at bs' i ≠ EMPTY_BUCKET →
            i ≠ e ∧ ob_at bs' i = ob_at bs i ∧ ob_at bs i ≠ EMPTY_BUCKET).
  { intros i. rewrite Hob. unfold upd. case_decide; [done |]. done. }
  assert (Hrn : ∀ i, 0 ≤ i < vsize bs → ∀ j, rn = Some j → j - i ≠ NULL_DELTA).
  { intros i Hi j Ej. destruct (Hnr _ Ej). small. }
  assert (Hrp : ∀ i, 0 ≤ i < vsize bs → ∀ j, rp = Some j → i - j ≠ NULL_DELTA).
  { intros i Hi j Ej. destruct (Hpr _ Ej). small. }
  split.
  - lia.
  - (* heads *)
    intros h' Hh'. rewrite Hsz in Hh'.
    apply (first_in_ext _ _ _ _ (Hhomed h' h' ltac:(small))).
    rewrite Hfd.
    destruct (decide (h' = h)) as [-> | Hne].
    + destruct (Z.eqb_spec (pv_at bs e) NULL_DELTA) as [Ep | Ep].
      * unfold upd. rewrite decide_True by done.
        rewrite fwd_enc by (by apply Hrn).
        apply first_in_remove_first; [| done].
        assert (rp = None) as Erp by (subst rp; unfold bwd; by rewrite Ep).
        rewrite Erp in Hpi. simpl in Hpi.
        split; [lia |]. split; [done |]. intros m Hm. apply Hpi. lia.
      * apply first_in_remove_keep; [by apply (tb_head _ _ Hok) |].
        intros Heq. pose proof (tb_head _ _ Hok h Hh') as Hhead.
        rewrite Heq in Hhead. destruct Hhead as (_ & _ & Hmin).
        assert (∃ p, rp = Some p) as [p Erp].
        { subst rp. unfold bwd. destruct (Z.eqb_spec (pv_at bs e) NULL_DELTA); [done | eauto]. }
        destruct (Hpr _ Erp) as [Hp _]. rewrite Erp in Hpi.
        destruct Hpi as (_ & HPp & _). by apply (Hmin p).
    + assert (fd_at bs h' = (if pv_at bs e =? NULL_DELTA
                then upd (fd_at bs) h (enc h rn) else fd_at bs) h') as <-.
      { destruct (_ =? _); [| done]. unfold upd. by rewrite decide_False. }
      apply first_in_remove_keep; [by apply (tb_head _ _ Hok) |].
      intros Heq. pose proof (tb_head _ _ Hok h' Hh') as Hhead.
      rewrite Heq in Hhead. destruct Hhead as (_ & HP & _). by apply Hne.
  - (* empty buckets *)
    intros i Hi. rewrite Hsz in Hi. rewrite Hob, Hnx, Hpv. unfold upd.
    case_decide; [done |]. intros Hemp.
    destruct (tb_empty _ _ Hok i Hi Hemp) as [Hn0 Hp0].
    split.
    + destruct rp as [p|] eqn:Erp; simpl; [| done]. unfold upd.
      case_decide; [| done]. subst i. destruct Hpi as (_ & HP & _).
      unfold homed in HP. subst h. congruence.
    + destruct rn as [n|] eqn:Ern; simpl; [| done]. unfold upd.
      case_decide; [| done]. subst i. destruct Hni as (_ & HP & _).
      unfold homed in HP. subst h. congruence.
  - (* neighbourhood *)
    intros i Hi Hoi. destruct (Hocc' i Hoi) as (Hie & -> & Hoi').
    rewrite Hsz in Hi. by apply (tb_home _ _ Hok).
  - (* next *)
    intros i Hi Hoi. destruct (Hocc' i Hoi) as (Hie & -> & Hoi').
    rewrite Hsz in Hi.
    apply (first_in_ext _ _ _ _ (Hhomed (ob_at bs i) (i + 1) Hoi')).
    rewrite Hnx. unfold upd at 1. rewrite decide_False by done.
    pose proof (tb_next _ _ Hok i Hi Hoi') as Hold.
    destruct (decide (rp = Some i)) as [Erp | Erp].
    + rewrite Erp in *. simpl. unfold upd. rewrite decide_True by done.
      rewrite fwd_enc by (by apply Hrn).
      destruct Hpi as (Hlt & HP & Hmax).
      replace (ob_at bs i) with h by (unfold homed in HP; congruence).
      apply first_in_remove_first; [| done].
      split; [lia |]. split; [done |]. intros m Hm. apply Hmax. lia.
    + assert (upd_opt (nx_at bs) rp (λ p, enc p rn) i = nx_at bs i) as ->.
      { destruct rp as [p|]; simpl; [| done]. unfold upd.
        rewrite decide_False; [done | congruence]. }
      apply first_in_remove_keep; [done |].
      intros Heq. rewrite Heq in Hold. destruct Hold as (Hlt & HP & Hmin).
      unfold homed in HP. fold h in HP. rewrite <- HP in Hmin.
      apply Erp. apply (last_in_unique (homed bs h) e); [done |].
      split; [lia |]. split; [unfold homed; congruence |].
      intros m Hm. apply Hmin. lia.
  - (* prev *)
    intros i Hi Hoi. destruct (Hocc' i Hoi) as (Hie & -> & Hoi').
    rewrite Hsz in Hi.
    apply (last_in_ext _ _ _ _ (Hhomed' (ob_at bs i) i Hoi')).
    rewrite Hpv. unfold upd at 1. rewrite decide_False by done.
    pose proof (tb_prev _ _ Hok i Hi Hoi') as Hold.
    destruct (decide (rn = Some i)) as [Ern | Ern].
    + rewrite Ern in *. simpl. unfold upd. rewrite decide_True by done.
      rewrite bwd_enc_back by (by apply Hrp).
      destruct Hni as (Hlt & HP & Hmin).
      replace (ob_at bs i) with h by (unfold homed in HP; congruence).
      apply last_in_remove_last; [| done].
      split; [lia |]. split; [done |]. intros m Hm. apply Hmin. lia.
    + assert (upd_opt (pv_at bs) rn (λ n, enc_back n rp) i = pv_at bs i) as ->.
      { destruct rn as [n|]; simpl; [| done]. unfold upd.
        rewrite decide_False; [done | congruence]. }
      apply last_in_remove_keep; [done |].
      intros Heq. rewrite Heq in Hold. destruct Hold as (Hlt & HP & Hmax).
      unfold homed in HP. fold h in HP. rewrite <- HP in Hmax.
      apply Ern. apply (first_in_unique (homed bs h) (e + 1)); [done |].
      split; [lia |]. split; [unfold homed; congruence |].
      intros m Hm. apply Hmax. lia.
Qed.

(** * [InsertObject]: installing an entry *)

Lemma install_table_ok bs bs' nbh f h rp rn fit :
  table_ok bs nbh → 0 ≤ f < vsize bs → ob_at bs f = EMPTY_BUCKET →
  0 ≤ h ≤ f → f < h + nbh →
  last_in (homed bs h) f rp → first_in (homed bs h) (f + 1) rn →
  has_views bs' (vsize bs) fit
    (match rp with None => upd (fd_at bs) h (f - h) | Some _ => fd_at bs end)
    (upd_opt (upd (nx_at bs) f (enc f rn)) rp (λ p, f - p))
    (upd (upd_opt (pv_at bs) rn (λ n, n - f)) f (enc_back f rp))
    (upd (ob_at bs) f h) →
  table_ok bs' nbh.
Proof.
  intros Hok Hf Hemp Hh Hnbh Hpi Hni V. hv V.
  pose proof (tb_size _ _ Hok) as Hsize.
  assert (HhE : h ≠ EMPTY_BUCKET) by small.
  assert (Hsame : ∀ h', h' ≠ EMPTY_BUCKET → h' ≠ h →
            ∀ j, homed bs h' j ↔ homed bs' h' j).
  { intros h' Hh' Hne j. unfold homed. rewrite Hob. unfold upd.
    case_decide; [subst; split; congruence | tauto]. }
  assert (Hadd : ∀ j, (j = f ∨ homed bs h j) ↔ homed bs' h j).
  { intros j. unfold homed. rewrite Hob. unfold upd.
    case_decide; [subst; tauto |]. tauto. }
  assert (Hocc' : ∀ i, i ≠ f → ob_at bs' i = ob_at bs i).
  { intros i Hi. rewrite Hob. unfold upd. by rewrite decide_False. }
  assert (Hobf : ob_at bs' f = h).
  { rewrite Hob. unfold upd. by rewrite decide_True. }
  assert (Hrp : ∀ p, rp = Some p → h ≤ p < f ∧ ob_at bs p = h).
  { intros p ->. destruct Hpi as (Hlt & HP & _).
    assert (0 ≤ p < vsize bs) as Hpr by (eapply homed_in_range; [| done | done]; lia).
    unfold homed in HP.
    destruct (tb_home _ _ Hok p Hpr ltac:(congruence)). split; [lia | done]. }
  assert (Hrn : ∀ n, rn = Some n → f < n < vsize bs ∧ ob_at bs n = h).
  { intros n ->. destruct Hni as (Hlt & HP & _).
    assert (0 ≤ n < vsize bs) as Hpr by (eapply homed_in_range; [| done | done]; lia).
    split; [lia | done]. }
  assert (Hnot : ¬ homed bs h f) by (unfold homed; congruence).
  split.
  - lia.
  - (* heads *)
    intros h' Hh'. rewrite Hsz in Hh'.
    destruct (decide (h' = h)) as [-> | Hne].
    + apply (first_in_ext (λ j, j = f ∨ homed bs h j)); [intros; apply Hadd |].
      rewrite Hfd. pose proof (tb_head _ _ Hok h Hh') as Hold.
      destruct rp as [p|] eqn:Erp.
      * destruct (Hrp p eq_refl) as [Hp HPp].
        apply first_in_add_keep; [done |]. right.
        destruct (fwd h (fd_at bs h)) as [j|]; simpl in Hold.
        -- exists j. split; [done |]. destruct Hold as (_ & _ & Hmin).
           destruct (Z.le_gt_cases j p); [lia |]. exfalso. apply (Hmin p); [lia | done].
        -- exfalso. apply (Hold p); [lia | done].
      * unfold upd. rewrite decide_True by done.
        unfold fwd. destruct (Z.eqb_spec (f - h) NULL_DELTA); [small |].
        replace (h + (f - h)) with f by lia.
        split; [lia |]. split; [by left |].
        intros m Hm [-> | HP]; [lia |]. apply (Hpi m); [lia | done].
    + apply (first_in_ext (homed bs h')); [intros; apply Hsame; [small | done] |].
      assert (fd_at bs' h' = fd_at bs h') as ->.
      { rewrite Hfd. destruct rp; [done |]. unfold upd. by rewrite decide_False. }
      by apply (tb_head _ _ Hok).
  - (* empty buckets *)
    intros i Hi Hoi. rewrite Hsz in Hi.
    assert (i ≠ f) as Hif by (intros ->; congruence).
    rewrite Hocc' in Hoi by done.
    destruct (tb_empty _ _ Hok i Hi Hoi) as [Hn0 Hp0].
    rewrite Hnx, Hpv. split.
    + destruct rp as [p|]; simpl; unfold upd.
      * destruct (Hrp p eq_refl) as [_ HPp].
        rewrite decide_False by (intros ->; congruence). by rewrite decide_False.
      * by rewrite decide_False.
    + unfold upd at 1. rewrite decide_False by done.
      destruct rn as [n|]; simpl; [| done]. unfold upd.
      destruct (Hrn n eq_refl) as [_ HPn].
      by rewrite decide_False by (intros ->; congruence).
  - (* neighbourhood *)
    intros i Hi Hoi. rewrite Hsz in Hi.
    destruct (decide (i = f)) as [-> | Hif]; [rewrite Hobf; lia |].
    rewrite Hocc' in * by done. by apply (tb_home _ _ Hok).
  - (* next *)
    intros i Hi Hoi. rewrite Hsz in Hi. rewrite Hnx.
    destruct (decide (i = f)) as [-> | Hif].
    + rewrite Hobf.
      apply (first_in_ext (λ j, j = f ∨ homed bs h j)); [intros; apply Hadd |].
      assert (upd_opt (upd (nx_at bs) f (enc f rn)) rp (λ p, f - p) f = enc f rn) as ->.
      { destruct rp as [p|]; simpl; unfold upd.
        - destruct (Hrp p eq_refl). rewrite decide_False by lia. by rewrite decide_True.
        - by rewrite decide_True. }
      rewrite fwd_enc by (intros n En; destruct (Hrn n En); small).
      apply first_in_add_keep; [done | left; lia].
    + rewrite Hocc' in * by done.
      pose proof (tb_next _ _ Hok i Hi Hoi) as Hold.
      destruct (decide (ob_at bs i = h)) as [Ehi | Ehi].
      * rewrite Ehi in *.
        apply (first_in_ext (λ j, j = f ∨ homed bs h j)); [intros; apply Hadd |].
        destruct (decide (rp = Some i)) as [Erp | Erp].
        -- subst rp. simpl. unfold upd. rewrite decide_True by done.
           destruct Hpi as (Hlt & _ & Hmax).
           unfold fwd. destruct (Z.eqb_spec (f - i) NULL_DELTA); [small |].
           replace (i + (f - i)) with f by lia.
           split; [lia |]. split; [by left |].
           intros m Hm [-> | HP]; [lia |]. apply (Hmax m); [lia | done].
        -- assert (upd_opt (upd (nx_at bs) f (enc f rn)) rp (λ p, f - p) i = nx_at bs i) as ->.
           { destruct rp as [p|]; simpl; unfold upd.
             - rewrite decide_False by congruence. by rewrite decide_False.
             - by rewrite decide_False. }
           apply first_in_add_keep; [done |].
           destruct (Z.lt_ge_cases f (i + 1)); [by left | right].
           assert (∃ p, rp = Some p ∧ i < p) as (p & Ep & Hip).
           { destruct rp as [p|]; simpl in Hpi.
             - exists p. split; [done |]. destruct Hpi as (_ & _ & Hmax).
               destruct (Z.lt_trichotomy i p) as [? | [-> | ?]]; [done | done |].
               exfalso. apply (Hmax i); [lia | done].
             - exfalso. apply (Hpi i); [lia | done]. }
           destruct (Hrp p Ep) as [Hp HPp].
           destruct (fwd i (nx_at bs i)) as [j|]; simpl in Hold.
           ++ exists j. split; [done |]. destruct Hold as (_ & _ & Hmin).
              destruct (Z.le_gt_cases j p); [lia |]. exfalso. apply (Hmin p); [lia | done].
           ++ exfalso. apply (Hold p); [lia | done].
      * apply (first_in_ext (homed bs (ob_at bs i))); [intros; by apply Hsame |].
        assert (upd_opt (upd (nx_at bs) f (enc f rn)) rp (λ p, f - p) i = nx_at bs i) as ->.
        { destruct rp as [p|]; simpl; unfold upd.
          - destruct (Hrp p eq_refl).
            rewrite decide_False by (intros ->; congruence). by rewrite decide_False.
          - by rewrite decide_False. }
        done.
  - (* prev *)
    intros i Hi Hoi. rewrite Hsz in Hi. rewrite Hpv.
    destruct (decide (i = f)) as [-> | Hif].
    + rewrite Hobf.
      apply (last_in_ext (λ j, j = f ∨ homed bs h j)); [intros; apply Hadd |].
      unfold upd. rewrite decide_True by done.
      rewrite bwd_enc_back by (intros p Ep; destruct (Hrp p Ep); small).
      apply last_in_add_keep; [done | left; lia].
    + rewrite Hocc' in * by done.
      pose proof (tb_prev _ _ Hok i Hi Hoi) as Hold.
      unfold upd at 1. rewrite decide_False by done.
      destruct (decide (ob_at bs i = h)) as [Ehi | Ehi].
      * rewrite Ehi in *.
        apply (last_in_ext (λ j, j = f ∨ homed bs h j)); [intros; apply Hadd |].
        destruct (decide (rn = Some i)) as [Ern | Ern].
        -- subst rn. simpl. unfold upd. rewrite decide_True by done.
           destruct Hni as (Hlt & _ & Hmin).
           unfold bwd. destruct (Z.eqb_spec (i - f) NULL_DELTA); [small |].
           replace (i - (i - f)) with f by lia.
           split; [lia |]. split; [by left |].
           intros m Hm [-> | HP]; [lia |]. apply (Hmin m); [lia | done].
        -- assert (upd_opt (pv_at bs) rn (λ n, n - f) i = pv_at bs i) as ->.
           { destruct rn as [n|]; simpl; unfold upd; [| done].
             by rewrite decide_False by congruence. }
           apply last_in_add_keep; [done |].
           destruct (Z.lt_ge_cases i f); [left; lia | right].
           assert (∃ n, rn = Some n ∧ n < i) as (n & En & Hni').
           { destruct rn as [n|]; simpl in Hni.
             - exists n. split; [done |]. destruct Hni as (_ & _ & Hmin).
               destruct (Z.lt_trichotomy i n) as [? | [-> | ?]]; [| done | done].
               exfalso. apply (Hmin i); [lia | done].
             - exfalso. apply (Hni i); [lia | done]. }
           destruct (Hrn n En) as [Hn HPn].
           destruct (bwd i (pv_at bs i)) as [j|]; simpl in Hold.
           ++ exists j. split; [done |]. destruct Hold as (_ & _ & Hmax).
              destruct (Z.le_gt_cases n j); [lia |]. exfalso. apply (Hmax n); [lia | done].
           ++ exfalso. apply (Hold n); [lia | done].
      * apply (last_in_ext (homed bs (ob_at bs i))); [intros; by apply Hsame |].
        assert (upd_opt (pv_at bs) rn (λ n, n - f) i = pv_at bs i) as ->.
        { destruct rn as [n|]; simpl; unfold upd; [| done].
          destruct (Hrn n eq_refl).
          by rewrite decide_False by (intros ->; congruence). }
        done.
Qed.

Lemma scan_previous_spec fuel bs start_bucket free_bucket previous_bucket :
  0 ≤ start_bucket ≤ previous_bucket → previous_bucket ≤ free_bucket →
  free_bucket < vsize bs →
  (Z.to_nat (previous_bucket - start_bucket) < fuel)%nat →
  ∃ r, scan_previous fuel bs start_bucket free_bucket previous_bucket = Ok r ∧
       start_bucket ≤ r ≤ previous_bucket ∧
       (∀ m, r ≤ m < previous_bucket → ob_at bs m ≠ ob_at bs free_bucket) ∧
       (r = start_bucket ∨
        (start_bucket < r ∧ ob_at bs (r - 1) = ob_at bs free_bucket)).
Proof.
  revert previous_bucket.
  induction fuel as [|fuel IH]; intros prev Hs Hp Hf Hfuel; [lia |].
  simpl. destruct (Z.eqb_spec prev start_bucket) as [-> | Hne].
  { exists start_bucket. split; [done |]. split; [lia |]. split; [intros; lia | by left]. }
  rewrite !read_in_range by lia. cbn [bind]. fold_views.
  destruct (Z.eqb_spec (ob_at bs (prev - 1)) (ob_at bs free_bucket)) as [E | E].
  { exists prev. split; [done |]. split; [lia |]. split; [intros; lia |].
    right. split; [lia | done]. }
  destruct (IH (prev - 1)) as (r & Hr & Hrange & Hskip & Hexit); try lia.
  exists r. split; [done |]. split; [lia |]. split; [| done].
  intros m Hm. destruct (decide (m = prev - 1)) as [-> | ?]; [done |].
  apply Hskip. lia.
Qed.

Lemma install_spec bs nbh it start_bucket free_bucket :
  table_ok bs nbh → 0 ≤ start_bucket ≤ free_bucket → free_bucket < vsize bs →
  ob_at bs free_bucket = EMPTY_BUCKET → free_bucket < start_bucket + nbh →
  ∃ bs', install bs it start_bucket free_bucket = Ok (bs', free_bucket) ∧
    table_ok bs' nbh ∧ vsize bs' = vsize bs ∧
    (∀ j, ob_at bs' j = upd (ob_at bs) free_bucket start_bucket j) ∧
    (∀ j, it_at bs' j = upd (it_at bs) free_bucket it j).
Proof.
  intros Hok Hs Hf Hemp Hnbh.
  pose proof (tb_size _ _ Hok) as Hsize.
  set (h := start_bucket) in *. set (f := free_bucket) in *.
  destruct (tb_empty _ _ Hok f ltac:(lia) Hemp) as [Hnf Hpf].
  unfold install. destruct (Z.ltb_spec f h) as [? | _]; [lia |].
  edestruct modify_it_spec as (bs1 & E1 & V1); [| rewrite E1]; [lia |]. cbn [bind]. hv V1.
  edestruct modify_ob_spec as (bs2 & E2 & V2); [| rewrite E2]; [lia |]. cbn [bind]. hv V2.
  destruct (scan_previous_spec (scan_fuel bs2) bs2 h f f) as (r & -> & Hr & Hskip & Hexit);
    try lia.
  { unfold scan_fuel. unfold vsize in *. lia. }
  cbn [bind].
  assert (Hobf2 : ob_at bs2 f = h).
  { views. rewrite decide_True by done. rewrite Z.sub_0_r. apply to_size_small. small. }
  assert (Hob2 : ∀ m, m ≠ f → ob_at bs2 m = ob_at bs m).
  { intros m Hm. views. by rewrite decide_False. }
  rewrite Hobf2 in Hskip, Hexit.
  assert (Hgap : ∀ m, r ≤ m < f + 1 → ¬ homed bs h m).
  { intros m Hm. unfold homed. destruct (decide (m = f)) as [-> | Hmf]; [small |].
    rewrite <- Hob2 by done. apply Hskip. lia. }
  assert (Hviews : ∀ bs' rp rn,
    last_in (homed bs h) f rp → first_in (homed bs h) (f + 1) rn →
    has_views bs' (vsize bs) (upd (it_at bs) f it)
      (match rp with None => upd (fd_at bs) h (f - h) | Some _ => fd_at bs end)
      (upd_opt (upd (nx_at bs) f (enc f rn)) rp (λ p, f - p))
      (upd (upd_opt (pv_at bs) rn (λ n, n - f)) f (enc_back f rp))
      (upd (ob_at bs) f h) →
    table_ok bs' nbh ∧ vsize bs' = vsize bs ∧
    (∀ j, ob_at bs' j = upd (ob_at bs) f h j) ∧
    (∀ j, it_at bs' j = upd (it_at bs) f it j)).
  { intros bs' rp rn Hpi Hni V. split.
    - eapply (install_table_ok bs bs' nbh f h rp rn); try done; lia.
    - hv V. done. }
  destruct (Z.eqb_spec r h) as [-> | Hrh]; cbn [negb].
  - (* no predecessor: the new head *)
    assert (Hpi : last_in (homed bs h) f None).
    { intros j Hj HP. destruct (Z.le_gt_cases h j); [by apply (Hgap j); [lia |] |].
      unfold homed in HP.
      assert (0 ≤ j < vsize bs) as Hjr by (apply ob_at_in_range; small).
      destruct (tb_home _ _ Hok j Hjr ltac:(small)). lia. }
    pose proof (tb_head _ _ Hok h ltac:(lia)) as Hhead.
    assert (Hni : first_in (homed bs h) (f + 1) (fwd h (fd_at bs h))).
    { eapply first_in_from; [| exact Hhead]. intros m Hm. apply Hgap. lia. }
    unfold splice_head. rewrite read_in_range by lia. cbn [bind]. fold_views.
    assert (fd_at bs2 h = fd_at bs h) as -> by (by views).
    unfold fwd in Hni, Hhead |- *.
    destruct (Z.eqb_spec (fd_at bs h) NULL_DELTA) as [Efd | Efd]; cbn [negb bind].
    + edestruct modify_fd_spec as (bs3 & E3 & V3); [| rewrite E3]; [lia |]. cbn [bind]. hv V3.
      eexists. split; [done |]. apply (Hviews bs3 None None); [done | done |].
      finish_views.
    + destruct Hni as (Hlo & HPn & _).
      assert (0 ≤ h + fd_at bs h < vsize bs) as Hnr
        by (eapply homed_in_range; [| done | done]; lia).
      rewrite to_diff_small by lia.
      edestruct modify_pv_spec as (bs3 & E3 & V3); [| rewrite E3]; [lia |]. cbn [bind]. hv V3.
      edestruct modify_nx_spec as (bs4 & E4 & V4); [| rewrite E4]; [lia |]. cbn [bind]. hv V4.
      edestruct modify_fd_spec as (bs5 & E5 & V5); [| rewrite E5]; [lia |]. cbn [bind]. hv V5.
      eexists. split; [done |].
      apply (Hviews bs5 None (Some (h + fd_at bs h))); [done | |].
      { eapply first_in_from; [| exact Hhead]. intros m Hm. apply Hgap. lia. }
      finish_views.
  - (* after the predecessor *)
    destruct Hexit as [? | [Hlt HPp]]; [done |].
    set (p := r - 1) in *.
    assert (Hobp : ob_at bs p = h) by (rewrite <- Hob2 by lia; done).
    assert (Hpi : last_in (homed bs h) f (Some p)).
    { split; [lia |]. split; [done |]. intros m Hm. apply Hgap. lia. }
    pose proof (tb_next _ _ Hok p ltac:(lia) ltac:(small)) as Hnext.
    rewrite Hobp in Hnext.
    assert (Hni : first_in (homed bs h) (f + 1) (fwd p (nx_at bs p))).
    { eapply first_in_from; [| exact Hnext]. intros m Hm. apply Hgap. lia. }
    unfold splice_after. rewrite read_in_range by lia. cbn [bind]. fold_views.
    assert (nx_at bs2 p = nx_at bs p) as -> by (by views).
    unfold fwd in Hni, Hnext |- *.
    destruct (Z.eqb_spec (nx_at bs p) NULL_DELTA) as [Enx | Enx]; cbn [negb bind].
    + edestruct modify_nx_spec as (bs3 & E3 & V3); [| rewrite E3]; [lia |]. cbn [bind]. hv V3.
      edestruct modify_pv_spec as (bs4 & E4 & V4); [| rewrite E4]; [lia |]. cbn [bind]. hv V4.
      eexists. split; [done |]. apply (Hviews bs4 (Some p) None); [done | done |].
      finish_views.
    + destruct Hni as (Hlo & HPn & _).
      assert (0 ≤ p + nx_at bs p < vsize bs) as Hnr
        by (eapply homed_in_range; [| done | done]; lia).
      rewrite to_diff_small by lia.
      edestruct modify_pv_spec as (bs3 & E3 & V3); [| rewrite E3]; [lia |]. cbn [bind]. hv V3.
      edestruct modify_nx_spec as (bs4 & E4 & V4); [| rewrite E4]; [lia |]. cbn [bind]. hv V4.
      edestruct modify_nx_spec as (bs5 & E5 & V5); [| rewrite E5]; [lia |]. cbn [bind]. hv V5.
      edestruct modify_pv_spec as (bs6 & E6 & V6); [| rewrite E6]; [lia |]. cbn [bind]. hv V6.
      eexists. split; [done |].
      apply (Hviews bs6 (Some p) (Some (p + nx_at bs p))); [done | |].
      { eapply first_in_from; [| exact Hnext]. intros m Hm. apply Hgap. lia. }
      finish_views.
Qed.

(** * [InsertObject]: displacing an occupant *)

Lemma relink_prev_views bs f s :
  0 ≤ s < vsize bs → 0 ≤ f < vsize bs → s ≠ f →
  vsize bs < 9223372036854775808 →
  (pv_at bs s ≠ NULL_DELTA → 0 < pv_at bs s ≤ s) →
  ∃ bs', relink_prev bs f s = Ok bs' ∧
    has_views bs' (vsize bs) (it_at bs) (fd_at bs)
      (upd_opt (nx_at bs) (bwd s (pv_at bs s))
               (λ p, to_size (nx_at bs p + (f - s))))
      (if pv_at bs s =? NULL_DELTA then pv_at bs
       else upd (upd (pv_at bs) s (pv_at bs f)) f (to_size (pv_at bs s + (f - s))))
      (ob_at bs).
Proof.
  intros Hs Hf Hsf Hsize Hp. unfold relink_prev.
  rewrite read_in_range by done. cbn [bind]. fold_views. unfold bwd.
  destruct (Z.eqb_spec (pv_at bs s) NULL_DELTA) as [E | E].
  { eexists. split; [done |]. apply has_views_refl. }
  specialize (Hp E). rewrite to_diff_small by lia.
  edestruct modify_nx_spec as (bs1 & E1 & V1); [| rewrite E1]; [lia |]. cbn [bind]. hv V1.
  edestruct modify_pv_spec as (bs2 & E2 & V2); [| rewrite E2]; [lia |]. cbn [bind]. hv V2.
  edestruct swap_pv_spec as (bs3 & E3 & V3); [| | rewrite E3]; [lia | lia |]. hv V3.
  eexists. split; [done |]. fold_views.
  repeat split; intros; views; unfold upd_opt; views; repeat case_decide;
    try done; try lia; try congruence.
Qed.

Lemma relink_next_views bs f s :
  0 ≤ s < vsize bs → 0 ≤ f < vsize bs → s ≠ f →
  vsize bs < 9223372036854775808 →
  (nx_at bs s ≠ NULL_DELTA → 0 < nx_at bs s ∧ s + nx_at bs s < vsize bs) →
  ∃ bs', relink_next bs f s = Ok bs' ∧
    has_views bs' (vsize bs) (it_at bs) (fd_at bs)
      (if nx_at bs s =? NULL_DELTA then nx_at bs
       else upd (upd (nx_at bs) s (nx_at bs f)) f (to_size (nx_at bs s - (f - s))))
      (upd_opt (pv_at bs) (fwd s (nx_at bs s))
               (λ n, to_size (pv_at bs n - (f - s))))
      (ob_at bs).
Proof.
  intros Hs Hf Hsf Hsize Hn. unfold relink_next.
  rewrite read_in_range by done. cbn [bind]. fold_views. unfold fwd.
  destruct (Z.eqb_spec (nx_at bs s) NULL_DELTA) as [E | E].
  { eexists. split; [done |]. apply has_views_refl. }
  specialize (Hn E). rewrite to_diff_small by lia.
  edestruct modify_pv_spec as (bs1 & E1 & V1); [| rewrite E1]; [lia |]. cbn [bind]. hv V1.
  edestruct modify_nx_spec as (bs2 & E2 & V2); [| rewrite E2]; [lia |]. cbn [bind]. hv V2.
  edestruct swap_nx_spec as (bs3 & E3 & V3); [| | rewrite E3]; [lia | lia |]. hv V3.
  eexists. split; [done |]. fold_views.
  repeat split; intros; views; unfold upd_opt; views; repeat case_decide;
    try done; try lia; try congruence.
Qed.

Lemma relink_first_views bs f s :
  0 ≤ s < vsize bs → vsize bs < 9223372036854775808 →
  0 ≤ ob_at bs s < vsize bs →
  ∃ bs', relink_first bs f s = Ok bs' ∧
    has_views bs' (vsize bs) (it_at bs)
      (if s =? ob_at bs s + to_diff (fd_at bs (ob_at bs s))
       then upd (fd_at bs) (ob_at bs s) (to_size (f - ob_at bs s))
       else fd_at bs)
      (nx_at bs) (pv_at bs) (ob_at bs).
Proof.
  intros Hs Hsize Hh. unfold relink_first.
  rewrite read_in_range by done. cbn [bind]. fold_views.
  rewrite (to_diff_small (ob_at bs s)) by lia. rewrite Z.add_0_l.
  rewrite read_in_range by done. cbn [bind]. fold_views.
  destruct (_ =? _).
  - edestruct modify_fd_spec as (bs1 & E1 & V1); [| rewrite E1]; [lia |].
    eexists. split; [done |]. done.
  - eexists. split; [done |]. apply has_views_refl.
Qed.

Lemma displace_spec bs nbh f s :
  table_ok bs nbh → 0 ≤ s < f → f < vsize bs →
  ob_at bs s ≠ EMPTY_BUCKET → ob_at bs f = EMPTY_BUCKET →
  f < ob_at bs s + nbh →
  (∀ m, s < m < f → ob_at bs m ≠ ob_at bs s) →
  ∃ bs', displace bs f s = Ok bs' ∧ table_ok bs' nbh ∧ vsize bs' = vsize bs ∧
    (∀ j, ob_at bs' j = upd (upd (ob_at bs) s EMPTY_BUCKET) f (ob_at bs s) j) ∧
    (∀ j, it_at bs' j = upd (upd (it_at bs) s (it_at bs f)) f (it_at bs s) j).
Proof.
  intros Hok Hs Hf Hocc Hemp Hnbh Hgap.
  pose proof (tb_size _ _ Hok) as Hsize.
  destruct (table_links bs nbh s Hok ltac:(lia) Hocc) as [_ Hh Erp Ern Hpi Hni Hpr Hnr].
  destruct (tb_empty _ _ Hok f ltac:(lia) Hemp) as [Hnf Hpf].
  remember (ob_at bs s) as h eqn:Eh.
  assert (Hocc0 : ob_at bs s ≠ EMPTY_BUCKET) by congruence.
  pose proof (tb_head _ _ Hok h ltac:(lia)) as Hhead.
  (* the values of the links around [s] *)
  assert (Hnxp : ∀ p, bwd s (pv_at bs s) = Some p → nx_at bs p = s - p).
  { intros p Ep. rewrite Ep in Hpi. destruct (Hpr p Ep) as [Hp _].
    destruct Hpi as (Hlt & HPp & Hmax).
    pose proof (tb_next _ _ Hok p ltac:(lia) ltac:(unfold homed in HPp; small)) as Hnp.
    unfold homed in HPp. rewrite HPp in Hnp.
    assert (fwd p (nx_at bs p) = Some s) as Hfw.
    { apply (first_in_unique (homed bs h) (p + 1)); [done |].
      split; [lia |]. split; [done |]. intros m Hm. apply Hmax. lia. }
    apply fwd_Some in Hfw. lia. }
  assert (Hpvn : ∀ n, fwd s (nx_at bs s) = Some n → pv_at bs n = n - s).
  { intros n En. rewrite En in Hni. destruct (Hnr n En) as [Hn _].
    destruct Hni as (Hlt & HPn & Hmin).
    pose proof (tb_prev _ _ Hok n ltac:(lia) ltac:(unfold homed in HPn; small)) as Hpn.
    unfold homed in HPn. rewrite HPn in Hpn.
    assert (bwd n (pv_at bs n) = Some s) as Hbw.
    { apply (last_in_unique (homed bs h) n); [done |].
      split; [lia |]. split; [done |]. intros m Hm. apply Hmin. lia. }
    apply bwd_Some in Hbw. lia. }
  assert (Hnf' : ∀ n, fwd s (nx_at bs s) = Some n → f < n).
  { intros n En. rewrite En in Hni. destruct Hni as (Hlt & HPn & _).
    destruct (Z.lt_trichotomy n f) as [? | [-> | ?]]; [| | done].
    - exfalso. apply (Hgap n); [lia | done].
    - unfold homed in HPn. small. }
  assert (Hfdh : (s =? h + to_diff (fd_at bs h)) =
                 (if pv_at bs s =? NULL_DELTA then true else false)).
  { destruct (fwd h (fd_at bs h)) as [j|] eqn:Efd; simpl in Hhead.
    2: { exfalso. apply (Hhead s); [lia | done]. }
    destruct Hhead as (Hlo & HPj & Hmin).
    apply fwd_Some in Efd as [Efd ->].
    assert (0 ≤ h + fd_at bs h < vsize bs) by (eapply homed_in_range; [| done | done]; lia).
    rewrite to_diff_small by lia.
    unfold bwd in Hpi, Hpr.
    destruct (Z.eqb_spec (pv_at bs s) NULL_DELTA) as [E | E].
    - apply Z.eqb_eq. simpl in Hpi.
      destruct (Z.lt_trichotomy (h + fd_at bs h) s) as [? | [? | ?]]; [| done |].
      + exfalso. apply (Hpi (h + fd_at bs h)); [lia | done].
      + exfalso. apply (Hmin s); [lia | done].
    - apply Z.eqb_neq. destruct (Hpr _ eq_refl) as [Hp _].
      destruct Hpi as (_ & HPp & _). intros Heq.
      apply (Hmin (s - pv_at bs s)); [lia | done]. }
  (* run the code *)
  unfold displace.
  destruct (relink_prev_views bs f s) as (bs1 & -> & V1); try lia.
  { intros E. unfold bwd in Hpr. destruct (Z.eqb_spec (pv_at bs s) NULL_DELTA); [done |].
    destruct (Hpr _ eq_refl). lia. }
  cbn [bind]. hv V1.
  assert (Hnx1s : nx_at bs1 s = nx_at bs s).
  { rewrite Hnx. destruct (bwd s (pv_at bs s)) as [p|] eqn:Ep; simpl; [| done].
    destruct (Hpr p eq_refl). unfold upd. rewrite decide_False by lia. done. }
  destruct (relink_next_views bs1 f s) as (bs2 & -> & V2); try lia.
  { rewrite Hnx1s. intros E. unfold fwd in Hnr.
    destruct (Z.eqb_spec (nx_at bs s) NULL_DELTA); [done |].
    destruct (Hnr _ eq_refl). lia. }
  cbn [bind]. hv V2.
  destruct (relink_first_views bs2 f s) as (bs3 & -> & V3); try lia.
  { views. lia. }
  cbn [bind]. hv V3.
  edestruct swap_it_spec as (bs4 & E4 & V4); [| | rewrite E4]; [lia | lia |]. cbn [bind]. hv V4.
  edestruct swap_ob_spec as (bs5 & E5 & V5); [| | rewrite E5]; [lia | lia |]. hv V5.
  eexists. split; [done |].
  assert (Hob5 : ∀ j, ob_at bs5 j = upd (upd (ob_at bs) s EMPTY_BUCKET) f h j).
  { intros j. views. repeat case_decide; congruence. }
  assert (Hit5 : ∀ j, it_at bs5 j = upd (upd (it_at bs) s (it_at bs f)) f (it_at bs s) j).
  { intros j. by views. }
  split; [| split; [lia | done]].
  (* the result is what erasing [s] and installing at [f] yields *)
  destruct (EraseObject_views bs nbh s Hok ltac:(lia) Hocc0) as (bsm & _ & Vm).
  pose proof (erase_table_ok bs bsm nbh s _ Hok ltac:(lia) Hocc0 Vm) as Hokm.
  destruct Vm as (Hszm & Hitm & Hfdm & Hnxm & Hpvm & Hobm).
  assert (Hhm : ∀ j, (j ≠ s ∧ homed bs h j) ↔ homed bsm h j).
  { intros j. unfold homed. rewrite Hobm. unfold upd.
    case_decide; [subst; split; [by intros [] | small] | tauto]. }
  rewrite <- Eh in Hfdm.
  apply (install_table_ok bsm bs5 nbh f h
           (bwd s (pv_at bs s)) (fwd s (nx_at bs s)) (it_at bs5)); try done; try lia.
  - rewrite Hobm. unfold upd. rewrite decide_False by lia. done.
  - apply (last_in_ext (λ j, j ≠ s ∧ homed bs h j)); [intros; apply Hhm |].
    apply (last_in_from _ s f).
    { intros m Hm [Hms HP]. apply (Hgap m); [lia | done]. }
    apply last_in_remove_keep; [done |].
    intros Heq. destruct (Hpr _ Heq). lia.
  - apply (first_in_ext (λ j, j ≠ s ∧ homed bs h j)); [intros; apply Hhm |].
    apply (first_in_from _ (s + 1) (f + 1)).
    { intros m Hm [Hms HP]. destruct (decide (m = f)) as [-> | ?].
      - unfold homed in HP. small.
      - apply (Hgap m); [lia | done]. }
    apply first_in_remove_keep; [done |].
    intros Heq. destruct (Hnr _ Heq). lia.
  - subst h. rewrite Hnx1s in Hnx0, Hpv0. unfold bwd, fwd in *.
    destruct (Z.eqb_spec (pv_at bs s) NULL_DELTA) as [Ep | Ep];
      [assert (Ebp := proj2 (Z.eqb_eq _ _) Ep) | assert (Ebp := proj2 (Z.eqb_neq _ _) Ep)];
      (destruct (Z.eqb_spec (nx_at bs s) NULL_DELTA) as [En | En];
       [assert (Ebn := proj2 (Z.eqb_eq _ _) En) | assert (Ebn := proj2 (Z.eqb_neq _ _) En)]);
      rewrite ?Ebp, ?Ebn in *;
      try (destruct (Hpr _ eq_refl) as [Hp Hpv']; pose proof (Hnxp _ eq_refl) as Hnxp');
      try (destruct (Hnr _ eq_refl) as [Hn Hnx']; pose proof (Hpvn _ eq_refl) as Hpvn';
           pose proof (Hnf' _ eq_refl) as Hfn);
      (split; [lia |]); (split; [done |]);
      repeat split; intros j;
      repeat first [views1 | progress unfold upd, upd_opt, enc, enc_back
                   | progress fold_views | progress rewrite ?Hfdh];
      repeat case_decide; subst;
      rewrite ?Hnxp', ?Hpvn';
      rewrite ?to_size_small by small;
      try done; try lia; try congruence.
Qed.

(** * [InsertObject]: the loops *)

Lemma probe_free_spec fuel bs start_bucket :
  0 ≤ start_bucket ≤ vsize bs →
  (Z.to_nat (vsize bs - start_bucket) < fuel)%nat →
  ∃ r, probe_free fuel bs start_bucket = Ok r ∧
       start_bucket ≤ r ≤ vsize bs ∧
       (∀ m, start_bucket ≤ m < r → ob_at bs m ≠ EMPTY_BUCKET) ∧
       (r = vsize bs ∨ ob_at bs r = EMPTY_BUCKET).
Proof.
  revert start_bucket. induction fuel as [|fuel IH]; intros start Hs Hfuel; [lia |].
  simpl. destruct (Z.eqb_spec start (vsize bs)) as [-> | Hne].
  { eexists. split; [done |]. split; [lia |]. split; [intros; lia | by left]. }
  rewrite read_in_range by lia. cbn [bind]. fold_views.
  destruct (Z.eqb_spec (ob_at bs start) EMPTY_BUCKET) as [E | E].
  { eexists. split; [done |]. split; [lia |]. split; [intros; lia | by right]. }
  destruct (IH (start + 1)) as (r & Hr & Hrange & Hocc & Hexit); try lia.
  exists r. split; [done |]. split; [lia |]. split; [| done].
  intros m Hm. destruct (decide (m = start)) as [-> | ?]; [done |]. apply Hocc. lia.
Qed.

Lemma scan_fit_spec fuel bs nbh free_bucket fit :
  0 ≤ fit ≤ free_bucket → free_bucket ≤ vsize bs → free_bucket < SIZE_MAX →
  (Z.to_nat fit < fuel)%nat →
  ∃ r, scan_fit fuel bs nbh free_bucket fit = Ok r ∧ 0 ≤ r ≤ fit ∧
       (∀ s, r ≤ s < fit → ¬ passes bs nbh free_bucket s) ∧
       (r = 0 ∨ nbh ≤ free_bucket - r + 1 ∨
        (free_bucket - r + 1 < nbh ∧ passes bs nbh free_bucket (r - 1))).
Proof.
  revert fit. induction fuel as [|fuel IH]; intros fit Hfit Hfree Hmax Hfuel; [lia |].
  simpl.
  rewrite (to_size_small (free_bucket - fit)) by small.
  rewrite (to_size_small (free_bucket - fit + 1)) by small.
  destruct (Z.eqb_spec fit 0) as [-> | Hne]; simpl.
  { exists 0. split; [done |]. split; [lia |]. split; [intros; lia | by left]. }
  destruct (Z.ltb_spec (free_bucket - fit + 1) nbh) as [Hwin | Hwin]; simpl.
  2: { exists fit. split; [done |]. split; [lia |]. split; [intros; lia | right; by left]. }
  rewrite read_in_range by lia. cbn [bind]. fold_views.
  destruct (Z.ltb_spec (to_size (free_bucket - (0 + to_diff (ob_at bs (fit - 1))))) nbh)
    as [Hp | Hp].
  { exists fit. split; [done |]. split; [lia |]. split; [intros; lia |].
    right; right. split; [lia | exact Hp]. }
  destruct (IH (fit - 1)) as (r & Hr & Hrange & Hskip & Hexit); try lia.
  exists r. split; [exact Hr |]. split; [lia |]. split; [| exact Hexit].
  intros s Hs. destruct (decide (s = fit - 1)) as [-> | Hs'].
  - unfold passes. lia.
  - apply Hskip. lia.
Qed.

Lemma scan_fit_ext fuel bs bs' nbh free_bucket fit :
  (∀ i, 0 ≤ i < free_bucket → getb bs' i = getb bs i) →
  0 ≤ fit ≤ free_bucket →
  scan_fit fuel bs' nbh free_bucket fit = scan_fit fuel bs nbh free_bucket fit.
Proof.
  intros Hag. revert fit. induction fuel as [|fuel IH]; intros fit Hfit; [done |].
  simpl. destruct (Z.eqb_spec fit 0) as [-> | Hne]; simpl; [done |].
  destruct (_ <? nbh); [| done].
  unfold read. rewrite Hag by lia.
  destruct (getb bs (fit - 1)) as [b|]; simpl; [| done].
  destruct (_ <? nbh); [done |]. apply IH. lia.
Qed.

Lemma hop_loop_spec (I : list Bucket → Prop) fuel bs nbh start_bucket free_bucket :
  move_stable I → I bs →
  table_ok bs nbh → 0 ≤ start_bucket ≤ free_bucket → free_bucket < vsize bs →
  ob_at bs free_bucket = EMPTY_BUCKET →
  (∀ m, start_bucket ≤ m < free_bucket → ob_at bs m ≠ EMPTY_BUCKET) →
  (Z.to_nat free_bucket < fuel)%nat →
  ∃ bs' r, hop_loop fuel bs nbh start_bucket free_bucket = Ok (bs', r) ∧
    I bs' ∧ table_ok bs' nbh ∧ vsize bs' = vsize bs ∧
    ∀ f, r = Some f →
      start_bucket ≤ f ≤ free_bucket ∧ f < start_bucket + nbh ∧
      ob_at bs' f = EMPTY_BUCKET.
Proof.
  intros HI. revert bs free_bucket.
  induction fuel as [|fuel IH]; intros bs f HIbs Hok Hs Hf Hemp Hoccs Hfuel; [lia |].
  pose proof (tb_size _ _ Hok) as Hsize.
  cbn [hop_loop]. rewrite (to_size_small (f - start_bucket)) by small.
  destruct (Z.leb_spec nbh (f - start_bucket)) as [Hfar | Hnear].
  2: { exists bs, (Some f). split; [done |]. split; [done |]. split; [done |].
       split; [done |]. intros ? [= <-]. split; [lia |]. split; [lia | done]. }
  destruct (scan_fit_spec (scan_fuel bs) bs nbh f f) as (r & -> & Hr & Hskip & Hexit);
    try lia; try small.
  { unfold scan_fuel. unfold vsize in *. lia. }
  cbn [bind]. unfold scan_failed.
  rewrite (to_size_small (f - r)) by small.
  rewrite (to_size_small (f - r + 1)) by small.
  destruct (Z.eqb_spec r 0) as [-> | Hr0]; cbn [orb].
  { exists bs, None. split; [done |]. split; [done |]. split; [done |]. split; [done |]. by intros. }
  destruct (Z.leb_spec nbh (f - r + 1)) as [Hout | Hin].
  { exists bs, None. split; [done |]. split; [done |]. split; [done |]. split; [done |]. by intros. }
  destruct Hexit as [? | [? | [_ Hpass]]]; [lia | lia |].
  set (s := r - 1) in *.
  assert (Hsr : start_bucket < s < f) by lia.
  assert (Hocc_s : ob_at bs s ≠ EMPTY_BUCKET) by (apply Hoccs; lia).
  assert (Hpass_iff : ∀ m, start_bucket ≤ m < f →
            passes bs nbh f m ↔ f - ob_at bs m < nbh).
  { intros m Hm. unfold passes.
    destruct (tb_home _ _ Hok m ltac:(lia) (Hoccs m Hm)) as [Hhm _].
    rewrite to_diff_small by lia. rewrite Z.add_0_l.
    rewrite to_size_small by small. done. }
  apply Hpass_iff in Hpass; [| lia].
  destruct (displace_spec bs nbh f s) as (bs1 & -> & Hok1 & Hsz1 & Hob1 & Hit1);
    try done; try lia.
  { intros m Hm Heq. apply (Hskip m); [lia |]. apply Hpass_iff; [lia |]. by rewrite Heq. }
  cbn [bind].
  destruct (IH bs1 s) as (bs' & res & -> & HI' & Hok' & Hsz' & Hres); try done; try lia.
  - apply (HI bs bs1 s f); try done; lia.
  - rewrite Hob1. unfold upd. rewrite decide_False by lia. by rewrite decide_True.
  - intros m Hm. rewrite Hob1. unfold upd.
    rewrite !decide_False by lia. apply Hoccs. lia.
  - exists bs', res. split; [done |]. split; [done |]. split; [done |].
    split; [lia |]. intros f' Ef'. destruct (Hres f' Ef') as (? & ? & ?).
    split; [lia |]. done.
Qed.

(** * The entry list *)

Section store.

Context {KeyType ValueType : Type}.
Local Abbreviation node := (nat * (KeyType * ValueType))%type.
Implicit Types (l : list node) (id : nat) (o : KeyType * ValueType).

Lemma node_lookup_Some l id o : node_lookup l id = Some o → (id, o) ∈ l.
Proof.
  induction l as [|[n o'] l IH]; simpl; [done |].
  destruct (Nat.eqb_spec n id) as [-> | Hne].
  - intros [= ->]. left.
  - intros Hl. right. by apply IH.
Qed.

Lemma node_lookup_None l id o : node_lookup l id = None → (id, o) ∉ l.
Proof.
  induction l as [|[n o'] l IH]; simpl; [intros _ Hin; by inversion Hin |].
  destruct (Nat.eqb_spec n id) as [-> | Hne]; [done |].
  intros Hl Hin. inversion Hin; subst; [done |]. by apply IH.
Qed.

Lemma node_lookup_elem_of l id o :
  NoDup (l.*1) → (id, o) ∈ l → node_lookup l id = Some o.
Proof.
  induction l as [|[n o'] l IH]; simpl; intros Hnd Hin; [by inversion Hin |].
  apply NoDup_cons in Hnd as [Hn Hnd].
  destruct (Nat.eqb_spec n id) as [-> | Hne].
  - inversion Hin; subst; [done |].
    exfalso. apply Hn. apply list_elem_of_fmap. by exists (id, o).
  - inversion Hin; subst; [done |]. by apply IH.
Qed.

Lemma elem_of_node_remove l id x :
  NoDup (l.*1) → x ∈ node_remove l id ↔ x ∈ l ∧ x.1 ≠ id.
Proof.
  induction l as [|[n o'] l IH]; simpl; intros Hnd.
  { split; [intros Hin; by inversion Hin | by intros [Hin _]; inversion Hin]. }
  apply NoDup_cons in Hnd as [Hn Hnd].
  destruct (Nat.eqb_spec n id) as [-> | Hne].
  - split.
    + intros Hin. split; [by right |]. intros <-. apply Hn.
      apply list_elem_of_fmap. by exists x.
    + intros [Hin Hx]. inversion Hin; subst; [done | done].
  - rewrite !elem_of_cons, IH by done. split.
    + intros [-> | [? ?]]; [split; [by left | done] | split; [by right | done]].
    + intros [[-> | ?] ?]; [by left | by right].
Qed.

Lemma node_remove_sublist l id : sublist (node_remove l id) l.
Proof.
  induction l as [|[n o'] l IH]; simpl; [done |].
  destruct (Nat.eqb n id); [by apply sublist_cons | by apply sublist_skip].
Qed.

Lemma store_ok_remove l next id :
  store_ok l next → store_ok (node_remove l id) next.
Proof.
  intros [Hids Hkeys Hfresh]. pose proof (node_remove_sublist l id) as Hsub. split.
  - apply (sublist_NoDup _ (l.*1)); [done | by apply fmap_sublist].
  - apply (sublist_NoDup _ (keys l)); [done | by apply fmap_sublist].
  - intros id' o Hin. apply (Hfresh id' o). by eapply elem_of_sublist.
Qed.

Lemma store_ok_cons l next o :
  store_ok l next → o.1 ∉ keys l → store_ok ((next, o) :: l) (S next).
Proof.
  intros [Hids Hkeys Hfresh] Hnew. split.
  - simpl. apply NoDup_cons. split; [| done].
    intros Hin. apply list_elem_of_fmap in Hin as ([id o'] & Heq & Hin). simpl in Heq. subst id.
    specialize (Hfresh _ _ Hin). lia.
  - unfold keys. simpl. apply NoDup_cons. by split.
  - intros id o' Hin. apply elem_of_cons in Hin as [[= -> ->] | Hin]; [lia |].
    specialize (Hfresh _ _ Hin). lia.
Qed.

Lemma store_ok_key_unique l next id id' k v v' :
  store_ok l next → (id, (k, v)) ∈ l → (id', (k, v')) ∈ l → id = id' ∧ v = v'.
Proof.
  intros [_ Hkeys _]. unfold keys in Hkeys.
  induction l as [|x l IH]; intros H1 H2; [by inversion H1 |].
  simpl in Hkeys. apply NoDup_cons in Hkeys as [Hx Hkeys].
  apply elem_of_cons in H1 as [E1 | H1]; apply elem_of_cons in H2 as [E2 | H2].
  - rewrite <- E1 in E2. by inversion E2.
  - exfalso. apply Hx. apply list_elem_of_fmap. exists (id', (k, v')). by rewrite <- E1.
  - exfalso. apply Hx. apply list_elem_of_fmap. exists (id, (k, v)). by rewrite <- E2.
  - by apply IH.
Qed.

Lemma elem_of_keys l k : k ∈ keys l ↔ ∃ id v, (id, (k, v)) ∈ l.
Proof.
  unfold keys. rewrite list_elem_of_fmap. split.
  - intros ([id [k' v]] & -> & Hin). by exists id, v.
  - intros (id & v & Hin). by exists (id, (k, v)).
Qed.

End store.

(** * Buckets and the nodes they hold *)

Lemma table_ok_empty n nbh :
  0 ≤ n < 9223372036854775808 →
  table_ok (replicate (Z.to_nat n) Bucket_default) nbh.
Proof.
  intros Hn.
  assert (Hall : ∀ i, B (replicate (Z.to_nat n) Bucket_default) i = Bucket_default).
  { intros i. destruct (decide (0 ≤ i < n)).
    - by apply B_replicate.
    - apply B_out_of_range. rewrite vsize_replicate by lia. done. }
  assert (Hob : ∀ i, ob_at (replicate (Z.to_nat n) Bucket_default) i = EMPTY_BUCKET).
  { intros i. unfold ob_at. by rewrite Hall. }
  split.
  - rewrite vsize_replicate by lia. lia.
  - intros h Hh. rewrite vsize_replicate in Hh by lia.
    unfold fd_at. rewrite Hall. simpl. intros j Hj. unfold homed. rewrite Hob. small.
  - intros i Hi _. unfold nx_at, pv_at. by rewrite Hall.
  - intros i Hi Hocc. by rewrite Hob in Hocc.
  - intros i Hi Hocc. by rewrite Hob in Hocc.
  - intros i Hi Hocc. by rewrite Hob in Hocc.
Qed.

Section nodes.

Context {KeyType ValueType : Type}.
Variable hasher_ : KeyType → Z.
Local Abbreviation node := (nat * (KeyType * ValueType))%type.
Implicit Types (placed : list node) (bs : list Bucket).

Lemma home_index_vsize bs bs' key :
  vsize bs' = vsize bs → home_index hasher_ bs' key = home_index hasher_ bs key.
Proof. unfold home_index. by intros ->. Qed.

Lemma home_index_range bs key :
  0 < vsize bs → 0 ≤ home_index hasher_ bs key < vsize bs.
Proof. intros. unfold home_index. by apply Z.mod_pos_bound. Qed.

Lemma nodes_ok_empty n :
  0 ≤ n →
  nodes_ok hasher_ ([] : list node) (replicate (Z.to_nat n) Bucket_default).
Proof.
  intros Hn.
  assert (Hob : ∀ i, ob_at (replicate (Z.to_nat n) Bucket_default) i = EMPTY_BUCKET).
  { intros i. unfold ob_at. destruct (decide (0 ≤ i < n)).
    - by rewrite B_replicate.
    - rewrite B_out_of_range; [done |]. by rewrite vsize_replicate. }
  split.
  - intros i _ Hocc. by rewrite Hob in Hocc.
  - intros id o Hin. by inversion Hin.
  - intros i j _ _ Hocc. by rewrite Hob in Hocc.
Qed.

Lemma nodes_ok_move_stable placed : move_stable (nodes_ok hasher_ placed).
Proof.
  intros bs bs' s f [Hnode Hplaced Hinj] Hs Hf Hocc Hemp Hsz Hob Hit.
  assert (Hsf : s ≠ f) by (intros ->; congruence).
  assert (Hback : ∀ i, ob_at bs' i ≠ EMPTY_BUCKET →
            ∃ i0, i0 = (if decide (i = f) then s else i) ∧ i ≠ s ∧
                  ob_at bs' i = ob_at bs i0 ∧ it_at bs' i = it_at bs i0 ∧
                  ob_at bs i0 ≠ EMPTY_BUCKET ∧ i0 ≠ f).
  { intros i. rewrite Hob, Hit. unfold upd.
    destruct (decide (i = f)) as [-> | Hif].
    - intros _. exists s. repeat split; try done; congruence.
    - destruct (decide (i = s)) as [-> | His]; [done |].
      intros Hoi. exists i. repeat split; try done. }
  split.
  - intros i Hi Hoi. rewrite Hsz in Hi.
    destruct (Hback i Hoi) as (i0 & Ei0 & His & -> & -> & Ho0 & _).
    destruct (Hnode i0) as (id & o & ? & ? & ?); [subst; repeat case_decide; lia | done |].
    exists id, o. split; [done |]. split; [done |].
    by rewrite (home_index_vsize bs bs').
  - intros id o Hin. destruct (Hplaced id o Hin) as (i & Hi & Hoi & Hiti).
    assert (i ≠ f) by (intros ->; congruence).
    exists (if decide (i = s) then f else i). rewrite Hsz, Hob, Hit. unfold upd.
    destruct (decide (i = s)) as [-> | His].
    + rewrite !decide_True by done. done.
    + rewrite !(decide_False (P := i = f)) by done.
      rewrite !(decide_False (P := i = s)) by done. done.
  - intros i j Hi Hj Hoi Hoj Heq. rewrite Hsz in Hi, Hj.
    destruct (Hback i Hoi) as (i0 & Ei0 & His & _ & Eiti & Ho0 & Hi0f).
    destruct (Hback j Hoj) as (j0 & Ej0 & Hjs & _ & Ejtj & Hoj0 & Hj0f).
    assert (i0 = j0) as E0.
    { apply Hinj; try done; try (subst; repeat case_decide; lia). congruence. }
    subst i0 j0. repeat case_decide; subst; congruence.
Qed.

Lemma nodes_ok_install placed bs bs' f id o :
  nodes_ok hasher_ placed bs → vsize bs' = vsize bs → 0 ≤ f < vsize bs →
  ob_at bs f = EMPTY_BUCKET → home_index hasher_ bs o.1 ≠ EMPTY_BUCKET →
  (∀ j, ob_at bs' j = upd (ob_at bs) f (home_index hasher_ bs o.1) j) →
  (∀ j, it_at bs' j = upd (it_at bs) f (Node id) j) →
  (∀ o', (id, o') ∉ placed) →
  nodes_ok hasher_ ((id, o) :: placed) bs'.
Proof.
  intros [Hnode Hplaced Hinj] Hsz Hf Hemp Hh Hob Hit Hfresh. split.
  - intros i Hi. rewrite Hsz in Hi. rewrite Hob, Hit. unfold upd.
    destruct (decide (i = f)) as [-> | Hif].
    + intros _. exists id, o. split; [done |]. split; [by left |].
      by rewrite (home_index_vsize bs bs').
    + intros Hoi. destruct (Hnode i Hi Hoi) as (id' & o' & ? & ? & ?).
      exists id', o'. split; [done |]. split; [by right |].
      by rewrite (home_index_vsize bs bs').
  - intros id' o' Hin. rewrite Hsz. apply elem_of_cons in Hin as [[= -> ->] | Hin].
    + exists f. rewrite Hob, Hit. unfold upd. rewrite !decide_True by done. done.
    + destruct (Hplaced id' o' Hin) as (i & Hi & Hoi & Hiti).
      assert (i ≠ f) by (intros ->; congruence).
      exists i. rewrite Hob, Hit. unfold upd. rewrite !decide_False by done. done.
  - intros i j Hi Hj. rewrite Hsz in Hi, Hj. rewrite !Hob, !Hit. unfold upd.
    destruct (decide (i = f)) as [-> | Hif]; destruct (decide (j = f)) as [-> | Hjf];
      try done.
    + intros _ Hoj Heq. destruct (Hnode j Hj Hoj) as (id' & o' & Hitj & Hin & _).
      rewrite Hitj in Heq. injection Heq as ->. by destruct (Hfresh o').
    + intros Hoi _ Heq. destruct (Hnode i Hi Hoi) as (id' & o' & Hiti & Hin & _).
      rewrite Hiti in Heq. injection Heq as ->. by destruct (Hfresh o').
    + by apply Hinj.
Qed.

Lemma nodes_ok_erase placed placed' bs bs' e id :
  nodes_ok hasher_ placed bs → vsize bs' = vsize bs → 0 ≤ e < vsize bs →
  ob_at bs e ≠ EMPTY_BUCKET → it_at bs e = Node id →
  (∀ j, ob_at bs' j = upd (ob_at bs) e EMPTY_BUCKET j) →
  (∀ j, it_at bs' j = it_at bs j) →
  (∀ x, x ∈ placed' ↔ x ∈ placed ∧ x.1 ≠ id) →
  nodes_ok hasher_ placed' bs'.
Proof.
  intros [Hnode Hplaced Hinj] Hsz He Hocc Hite Hob Hit Hin'. split.
  - intros i Hi. rewrite Hsz in Hi. rewrite Hob, Hit. unfold upd.
    destruct (decide (i = e)) as [-> | Hie]; [done |].
    intros Hoi. destruct (Hnode i Hi Hoi) as (id' & o' & Hiti & Hin & Hhome).
    exists id', o'. split; [done |]. split.
    + apply Hin'. split; [done |]. simpl. intros ->. apply Hie.
      apply Hinj; try done. congruence.
    + by rewrite (home_index_vsize bs bs').
  - intros id' o' Hin. apply Hin' in Hin as [Hin Hne]. simpl in Hne.
    destruct (Hplaced id' o' Hin) as (i & Hi & Hoi & Hiti).
    assert (i ≠ e) by (intros ->; congruence).
    exists i. rewrite Hsz, Hob, Hit. unfold upd. by rewrite decide_False.
  - intros i j Hi Hj. rewrite Hsz in Hi, Hj. rewrite !Hob, !Hit. unfold upd.
    destruct (decide (i = e)); [done |]. destruct (decide (j = e)); [done |].
    by apply Hinj.
Qed.

Lemma nodes_ok_deref placed l bs i :
  nodes_ok hasher_ placed bs → NoDup (l.*1) → placed ⊆ l →
  0 ≤ i < vsize bs → ob_at bs i ≠ EMPTY_BUCKET →
  ∃ id o, it_at bs i = Node id ∧ (id, o) ∈ placed ∧
          deref l (it_at bs i) = Ok o ∧
          ob_at bs i = home_index hasher_ bs o.1.
Proof.
  intros Hn Hnd Hsub Hi Hoi.
  destruct (nd_node _ _ _ Hn i Hi Hoi) as (id & o & Hit & Hin & Hh).
  exists id, o. split; [done |]. split; [done |]. split; [| done].
  rewrite Hit. simpl. rewrite (node_lookup_elem_of l id o); [done | done |].
  by apply Hsub.
Qed.

End nodes.

(** * [InsertObject] and [FindObject] *)

Section placement.

Context {KeyType ValueType : Type} `{EqDecision KeyType}.
Variable hasher_ : KeyType → Z.
Local Abbreviation node := (nat * (KeyType * ValueType))%type.
Local Abbreviation HM := (@HashMap KeyType ValueType).
Implicit Types (m : HM) (placed l : list node) (bs : list Bucket).

Lemma with_buckets_id m : with_buckets m (buckets_ m) = m.
Proof. by destruct m. Qed.

Lemma GetStartBucket_spec bs (key : KeyType) :
  0 < vsize bs →
  GetStartBucket hasher_ bs key = Ok (home_index hasher_ bs key).
Proof.
  intros Hpos. unfold GetStartBucket, home_index.
  destruct (Z.eqb_spec (vsize bs) 0); [lia |]. by rewrite Z.add_0_l.
Qed.

Lemma InsertObject_spec m placed id o :
  0 < vsize (buckets_ m) →
  table_ok (buckets_ m) (neighbourhood_size_ m) →
  nodes_ok hasher_ placed (buckets_ m) →
  node_lookup (objects_ m) id = Some o →
  (∀ o', (id, o') ∉ placed) →
  ∃ bs' r, InsertObject hasher_ m (Node id) = Ok (with_buckets m bs', r) ∧
    vsize bs' = vsize (buckets_ m) ∧ table_ok bs' (neighbourhood_size_ m) ∧
    ((r = vsize bs' ∧ nodes_ok hasher_ placed bs') ∨
     (0 ≤ r < vsize bs' ∧ nodes_ok hasher_ ((id, o) :: placed) bs' ∧
      it_at bs' r = Node id ∧ ob_at bs' r ≠ EMPTY_BUCKET)).
Proof.
  intros Hpos Hok Hnodes Hlook Hfresh.
  pose proof (tb_size _ _ Hok) as Hsize.
  unfold InsertObject. cbn [deref]. rewrite Hlook. cbn [bind].
  rewrite GetStartBucket_spec by done. cbn [bind].
  pose proof (home_index_range hasher_ (buckets_ m) o.1 Hpos) as Hstart.
  set (bs := buckets_ m) in *. set (start := home_index hasher_ bs o.1) in *.
  destruct (probe_free_spec (scan_fuel bs) bs start) as (free & -> & Hfree & Hoccs & Hexit);
    [lia | unfold scan_fuel, vsize in *; lia |].
  cbn [bind].
  destruct (Z.eqb_spec free (vsize bs)) as [-> | Hne].
  { exists bs, (vsize bs). rewrite with_buckets_id. split; [done |]. split; [done |].
    split; [done |]. by left. }
  destruct Hexit as [? | Hemp]; [done |].
  destruct (hop_loop_spec (nodes_ok hasher_ placed) (scan_fuel bs) bs
              (neighbourhood_size_ m) start free)
    as (bs1 & r & -> & Hnodes1 & Hok1 & Hsz1 & Hres); try done; try lia.
  { apply nodes_ok_move_stable. }
  { unfold scan_fuel, vsize in *; lia. }
  cbn [bind]. destruct r as [f|].
  2: { exists bs1, (vsize bs1). split; [done |]. split; [done |]. split; [done |].
       by left. }
  destruct (Hres f eq_refl) as (Hf & Hnbh & Hempf).
  destruct (install_spec bs1 (neighbourhood_size_ m) (Node id) start f)
    as (bs2 & -> & Hok2 & Hsz2 & Hob2 & Hit2); try done; try lia.
  cbn [bind].
  exists bs2, f. split; [done |]. split; [lia |]. split; [done |]. right.
  split; [lia |]. split.
  - apply (nodes_ok_install hasher_ placed bs1 bs2 f id o); try done; try lia.
    + rewrite (home_index_vsize hasher_ bs bs1) by done. fold start. small.
    + intros j. rewrite Hob2. by rewrite (home_index_vsize hasher_ bs bs1).
  - rewrite Hob2, Hit2. unfold upd. rewrite !decide_True by done. split; [done | small].
Qed.

(** ** The chain walk *)

Lemma chain_walk_spec fuel l bs nbh (key : KeyType) cur :
  table_ok bs nbh → nodes_ok hasher_ l bs → NoDup (l.*1) →
  0 ≤ cur < vsize bs → ob_at bs cur = home_index hasher_ bs key →
  (Z.to_nat (vsize bs - cur) ≤ fuel)%nat →
  (∀ j o, j < cur → ob_at bs j = home_index hasher_ bs key →
          deref l (it_at bs j) = Ok o → o.1 ≠ key) →
  ∃ r o, chain_walk fuel l bs key cur = Ok r ∧ 0 ≤ r < vsize bs ∧
    ob_at bs r = home_index hasher_ bs key ∧ deref l (it_at bs r) = Ok o ∧
    (o.1 = key ∨
     (o.1 ≠ key ∧
      ∀ j o', ob_at bs j = home_index hasher_ bs key →
              deref l (it_at bs j) = Ok o' → o'.1 ≠ key)).
Proof.
  intros Hok Hnodes Hnd. pose proof (tb_size _ _ Hok) as Hsize.
  set (h := home_index hasher_ bs key).
  revert cur. induction fuel as [|fuel IH]; intros cur Hcur Hhome Hfuel Hbefore; [lia |].
  assert (Hh : 0 ≤ h < vsize bs) by (apply home_index_range; lia).
  assert (Hocc : ob_at bs cur ≠ EMPTY_BUCKET) by (rewrite Hhome; small).
  destruct (nodes_ok_deref hasher_ l l bs cur Hnodes Hnd ltac:(done) Hcur Hocc)
    as (id & o & Hit & Hin & Hderef & _).
  cbn [chain_walk]. rewrite read_in_range by done. cbn [bind]. fold_views.
  rewrite Hderef. cbn [bind].
  destruct (decide (o.1 = key)) as [Ekey | Ekey].
  { rewrite bool_decide_eq_true_2 by done. cbn [negb andb].
    exists cur, o. repeat split; try done; try lia. by left. }
  rewrite bool_decide_eq_false_2 by done. cbn [negb andb].
  pose proof (tb_next _ _ Hok cur Hcur Hocc) as Hnext. rewrite Hhome in Hnext.
  unfold fwd in Hnext.
  destruct (Z.eqb_spec (nx_at bs cur) NULL_DELTA) as [Enx | Enx]; cbn [negb].
  { exists cur, o. repeat split; try done; try lia. right. split; [done |].
    intros j o' Hj Hd.
    destruct (Z.lt_trichotomy j cur) as [? | [-> | ?]].
    - by apply (Hbefore j).
    - congruence.
    - exfalso. apply (Hnext j); [lia | done]. }
  destruct Hnext as (Hlt & HPn & Hmin).
  assert (0 ≤ cur + nx_at bs cur < vsize bs) as Hnr
    by (eapply homed_in_range; [| done | done]; done).
  rewrite to_diff_small by lia.
  apply IH; try done; try lia.
  intros j o' Hj Hhj Hd.
  destruct (Z.lt_trichotomy j cur) as [? | [-> | ?]].
  - by apply (Hbefore j).
  - congruence.
  - exfalso. apply (Hmin j); [lia | done].
Qed.

Lemma FindObject_spec m (key : KeyType) :
  0 < vsize (buckets_ m) →
  table_ok (buckets_ m) (neighbourhood_size_ m) →
  nodes_ok hasher_ (objects_ m) (buckets_ m) →
  store_ok (objects_ m) (next_node m) →
  ∃ r, FindObject hasher_ m key = Ok r ∧
    ((r = vsize (buckets_ m) ∧ key ∉ keys (objects_ m)) ∨
     (0 ≤ r < vsize (buckets_ m) ∧ ob_at (buckets_ m) r ≠ EMPTY_BUCKET ∧
      ∃ id v, it_at (buckets_ m) r = Node id ∧ (id, (key, v)) ∈ objects_ m)).
Proof.
  intros Hpos Hok Hnodes Hstore.
  pose proof (tb_size _ _ Hok) as Hsize.
  pose proof (st_ids _ _ Hstore) as Hnd.
  set (bs := buckets_ m) in *. set (l := objects_ m) in *.
  pose proof (home_index_range hasher_ bs key Hpos) as Hh.
  set (h := home_index hasher_ bs key) in *.
  (* a bucket with the key has home [h] and yields the key *)
  assert (Habsent : (∀ j o', ob_at bs j = h → deref l (it_at bs j) = Ok o' → o'.1 ≠ key) →
            key ∉ keys l).
  { intros Hno Hin. apply elem_of_keys in Hin as (id & v & Hin).
    destruct (nd_placed _ _ _ Hnodes id (key, v) Hin) as (i & Hi & Hoi & Hiti).
    destruct (nodes_ok_deref hasher_ l l bs i Hnodes Hnd ltac:(done) Hi Hoi)
      as (id' & o' & Hit' & Hin' & Hderef & Hhome).
    assert (id' = id) as -> by congruence.
    assert (o' = (key, v)) as ->.
    { apply (node_lookup_elem_of l) in Hin, Hin'; try done. congruence. }
    by apply (Hno i (key, v)). }
  unfold FindObject. fold bs l. rewrite GetStartBucket_spec by done. cbn [bind].
  fold h. rewrite read_in_range by done. cbn [bind]. fold_views.
  pose proof (tb_head _ _ Hok h Hh) as Hhead. unfold fwd in Hhead.
  destruct (Z.eqb_spec (fd_at bs h) NULL_DELTA) as [Efd | Efd].
  { exists (vsize bs). split; [done |]. left. split; [done |]. apply Habsent.
    intros j o' Hj _. exfalso.
    assert (0 ≤ j < vsize bs) as Hjr by (apply ob_at_in_range; small).
    destruct (tb_home _ _ Hok j Hjr ltac:(small)) as [Hhj _].
    apply (Hhead j); [lia | done]. }
  destruct Hhead as (Hlo & HP0 & Hmin).
  assert (0 ≤ h + fd_at bs h < vsize bs) as Hcr
    by (eapply homed_in_range; [| done | done]; done).
  rewrite to_diff_small by lia.
  destruct (chain_walk_spec (scan_fuel bs) l bs (neighbourhood_size_ m) key (h + fd_at bs h))
    as (r & o & -> & Hr & Hhr & Hderef & Hres); try done.
  { unfold scan_fuel, vsize in *. lia. }
  { intros j o' Hj Hhj _. exfalso.
    assert (0 ≤ j < vsize bs) as Hjr by (apply ob_at_in_range; fold h in Hhj; small).
    destruct (tb_home _ _ Hok j Hjr ltac:(fold h in Hhj; small)) as [Hhj' _].
    apply (Hmin j); [fold h in Hhj; lia | done]. }
  cbn [bind]. rewrite read_in_range by done. cbn [bind]. fold_views.
  rewrite Hderef. cbn [bind].
  assert (Hoccr : ob_at bs r ≠ EMPTY_BUCKET) by (fold h in Hhr; small).
  destruct Hres as [Ekey | [Ekey Hno]].
  - rewrite bool_decide_eq_true_2 by done. cbn [negb].
    exists r. split; [done |]. right. split; [done |]. split; [done |].
    destruct (nodes_ok_deref hasher_ l l bs r Hnodes Hnd ltac:(done) Hr Hoccr)
      as (id & o' & Hit' & Hin' & Hderef' & _).
    assert (o' = o) as -> by congruence.
    exists id, o.2. split; [done |]. destruct o as [k v]. simpl in *. by subst k.
  - rewrite bool_decide_eq_false_2 by done. cbn [negb].
    exists (vsize bs). split; [done |]. left. split; [done |]. by apply Habsent.
Qed.

End placement.

(** * Rehashing and the public operations *)

Section operations.

Context {KeyType ValueType : Type} `{EqDecision KeyType}.
Variable hasher_ : KeyType → Z.
Variable ValueType_default : ValueType.
Variable max_size : Z.
Hypothesis max_size_ok :
  min_neighbourhood_size_ ≤ max_size ∧ max_size * size_modifier_ < size_modulus.

Local Abbreviation node := (nat * (KeyType * ValueType))%type.
Local Abbreviation HM := (@HashMap KeyType ValueType).
Implicit Types (m : HM) (placed l : list node) (bs : list Bucket).

Lemma nodes_ok_equiv placed placed' bs :
  (∀ x, x ∈ placed ↔ x ∈ placed') →
  nodes_ok hasher_ placed bs → nodes_ok hasher_ placed' bs.
Proof.
  intros Heq [Hnode Hplaced Hinj]. split; [| | done].
  - intros i Hi Hoi. destruct (Hnode i Hi Hoi) as (id & o & ? & ? & ?).
    exists id, o. split; [done |]. split; [by apply Heq | done].
  - intros id o Hin. apply (Hplaced id o). by apply Heq.
Qed.

Lemma reinsert_spec m done its :
  objects_ m = done ++ its → NoDup ((objects_ m).*1) →
  0 < vsize (buckets_ m) →
  table_ok (buckets_ m) (neighbourhood_size_ m) →
  nodes_ok hasher_ done (buckets_ m) →
  ∃ m' ok, reinsert hasher_ m its = Ok (m', ok) ∧
    objects_ m' = objects_ m ∧ next_node m' = next_node m ∧
    neighbourhood_size_ m' = neighbourhood_size_ m ∧
    vsize (buckets_ m') = vsize (buckets_ m) ∧
    (ok = true →
     table_ok (buckets_ m') (neighbourhood_size_ m) ∧
     nodes_ok hasher_ (objects_ m) (buckets_ m')).
Proof.
  revert m done. induction its as [|[id o] its IH]; intros m done Hobj Hnd Hpos Hok Hnodes.
  { exists m, true. do 5 (split; [done |]). intros _. split; [done |].
    rewrite Hobj, app_nil_r. done. }
  cbn [reinsert].
  destruct (InsertObject_spec hasher_ m done id o) as (bs' & r & -> & Hsz & Hok' & Hres);
    try done.
  { apply node_lookup_elem_of; [done |]. rewrite Hobj. apply elem_of_app. right. left. }
  { intros o' Hin. rewrite Hobj, fmap_app in Hnd. apply NoDup_app in Hnd as (_ & Hdisj & _).
    apply (Hdisj id).
    - apply list_elem_of_fmap. by exists (id, o').
    - simpl. left. }
  cbn [bind]. cbn [with_buckets buckets_].
  destruct (Z.eqb_spec r (vsize bs')) as [-> | Hne].
  { exists (with_buckets m bs'), false. by do 5 (split; [done |]). }
  destruct Hres as [[? _] | (Hr & Hnodes' & _)]; [done |].
  destruct (IH (with_buckets m bs') (done ++ [(id, o)])) as (m' & ok & -> & ? & ? & ? & ? & Hfin);
    try done.
  { simpl. rewrite Hobj. by rewrite <- app_assoc. }
  { simpl. lia. }
  { simpl. eapply nodes_ok_equiv; [| exact Hnodes']. intros x.
    rewrite elem_of_cons, elem_of_app, list_elem_of_singleton. tauto. }
  exists m', ok. split; [done |]. simpl in *. do 3 (split; [done |]). split; [lia |].
  done.
Qed.

Lemma Reallocate_spec m c n :
  NoDup ((objects_ m).*1) → 0 < c →
  Reallocate hasher_ max_size m c n = Throw bad_alloc ∨
  ∃ m' ok, Reallocate hasher_ max_size m c n = Ok (m', ok) ∧
    objects_ m' = objects_ m ∧ next_node m' = next_node m ∧
    ((m' = m ∧ ok = false ∧ c ≤ vsize (buckets_ m) ∧ n ≤ neighbourhood_size_ m) ∨
     (vsize (buckets_ m') = c ∧ neighbourhood_size_ m' = n ∧ c ≤ max_size ∧
      (ok = true →
       table_ok (buckets_ m') n ∧ nodes_ok hasher_ (objects_ m) (buckets_ m')))).
Proof.
  intros Hnd Hc. unfold Reallocate.
  destruct ((c <=? vsize (buckets_ m)) && (n <=? neighbourhood_size_ m)) eqn:E.
  { apply andb_true_iff in E as [?%Z.leb_le ?%Z.leb_le].
    right. exists m, false. split; [done |]. split; [done |]. split; [done |]. by left. }
  destruct (Z.ltb_spec max_size c) as [? | Hmax]; [by left | right].
  cbn zeta. cbn [objects_].
  destruct (reinsert_spec
              (mkHashMap (objects_ m) (replicate (Z.to_nat c) Bucket_default) n (next_node m))
              [] (objects_ m)) as (m' & ok & -> & ? & ? & ? & Hsz & Hfin); try done.
  { simpl. rewrite vsize_replicate; lia. }
  { simpl. apply table_ok_empty. destruct max_size_ok. small. }
  { simpl. apply nodes_ok_empty. lia. }
  simpl in *. rewrite vsize_replicate in Hsz by lia.
  exists m', ok. split; [done |]. split; [done |]. split; [done |]. right.
  do 3 (split; [done |]). done.
Qed.

Lemma retry_targets m :
  capacity_ok max_size m →
  retry_neighbourhood m = neighbourhood_size_ m * 3 ∧
  retry_capacity m =
    (if (vsize (buckets_ m) <=? neighbourhood_size_ m * 3)
        || (vsize (buckets_ m) <=? size m)
     then vsize (buckets_ m) * 3 else vsize (buckets_ m)) ∧
  retry_neighbourhood m ≤ retry_capacity m.
Proof.
  intros [Hpos Hle Hmax]. unfold capacity in *. destruct max_size_ok as [_ Hbound].
  unfold retry_neighbourhood, retry_capacity, neighbourhood_modifier_, size_modifier_ in *.
  rewrite !to_size_small by small.
  split; [done |]. split; [done |].
  destruct (Z.leb_spec (vsize (buckets_ m)) (neighbourhood_size_ m * 3));
    destruct (Z.leb_spec (vsize (buckets_ m)) (size m)); cbn [orb]; lia.
Qed.

Lemma retry_loop_spec fuel m handle :
  store_ok (objects_ m) (next_node m) → capacity_ok max_size m →
  (handle = true →
   table_ok (buckets_ m) (neighbourhood_size_ m) ∧
   nodes_ok hasher_ (objects_ m) (buckets_ m)) →
  max_size < 3 ^ Z.of_nat fuel * neighbourhood_size_ m →
  retry_loop hasher_ max_size fuel m handle = Throw bad_alloc ∨
  ∃ m', retry_loop hasher_ max_size fuel m handle = Ok m' ∧
    objects_ m' = objects_ m ∧ next_node m' = next_node m ∧
    Inv hasher_ max_size m'.
Proof.
  revert m handle. induction fuel as [|fuel IH]; intros m handle Hstore Hcap Hdone Hfuel.
  { destruct handle; simpl.
    - right. exists m. destruct (Hdone eq_refl). do 3 (split; [done |]). by split.
    - destruct Hcap as [? ? ?]. unfold capacity in *. simpl in Hfuel. lia. }
  destruct handle.
  { simpl. right. exists m. destruct (Hdone eq_refl). do 3 (split; [done |]). by split. }
  cbn [retry_loop].
  destruct (retry_targets m Hcap) as (En & Ec & Hnc).
  pose proof Hcap as [Hpos Hle Hmax]. unfold capacity in *.
  destruct (Reallocate_spec m (retry_capacity m) (retry_neighbourhood m))
    as [-> | (m' & ok & -> & Hobj & Hnext & Hres)]; [by apply st_ids in Hstore | lia | by left |].
  cbn [bind].
  destruct Hres as [(_ & _ & _ & ?) | (Hsz & Hnbh & Hcmax & Hfin)]; [lia |].
  destruct (IH m' ok) as [-> | (m'' & -> & ? & ? & ?)].
  - by rewrite Hobj, Hnext.
  - split; unfold capacity; lia.
  - rewrite Hnbh, Hobj. done.
  - rewrite Hnbh, En. rewrite Nat2Z.inj_succ, Z.pow_succ_r in Hfuel by lia. lia.
  - by left.
  - right. exists m''. split; [done |]. split; [congruence |]. split; [congruence | done].
Qed.

Lemma HandleCollision_spec m :
  store_ok (objects_ m) (next_node m) → capacity_ok max_size m →
  HandleCollision hasher_ max_size collision_fuel m = Throw bad_alloc ∨
  ∃ m', HandleCollision hasher_ max_size collision_fuel m = Ok m' ∧
    objects_ m' = objects_ m ∧ next_node m' = next_node m ∧
    Inv hasher_ max_size m'.
Proof.
  intros Hstore Hcap. pose proof Hcap as [Hpos Hle Hmax]. unfold capacity in *.
  destruct max_size_ok as [_ Hbound].
  assert (Hpow : ∀ n, 0 < n → max_size < 3 ^ Z.of_nat collision_fuel * n).
  { intros n Hn.
    change (3 ^ Z.of_nat collision_fuel) with 3433683820292512484657849089281. small. }
  unfold HandleCollision.
  destruct (Z.leb_spec (vsize (buckets_ m)) (size m)) as [Hfull | Hroom].
  - unfold size_modifier_. rewrite to_size_small by small.
    destruct (Reallocate_spec m (vsize (buckets_ m) * 3) (neighbourhood_size_ m))
      as [-> | (m' & ok & -> & Hobj & Hnext & Hres)];
      [by apply st_ids in Hstore | lia | by left |].
    cbn [bind].
    destruct Hres as [(_ & _ & ? & _) | (Hsz & Hnbh & Hcmax & Hfin)]; [lia |].
    destruct (retry_loop_spec collision_fuel m' ok) as [-> | (m'' & -> & ? & ? & ?)].
    + by rewrite Hobj, Hnext.
    + split; unfold capacity; lia.
    + rewrite Hnbh, Hobj. done.
    + apply Hpow. lia.
    + by left.
    + right. exists m''. split; [done |]. split; [congruence |]. split; [congruence | done].
  - cbn [bind].
    destruct (retry_loop_spec collision_fuel m false) as [-> | (m'' & -> & ? & ? & ?)];
      try done.
    + by apply Hpow.
    + by left.
    + right. by exists m''.
Qed.

(** ** The invariant of the container *)

Lemma vsize_initial :
  vsize (replicate (Z.to_nat min_neighbourhood_size_) Bucket_default) = 4.
Proof. reflexivity. Qed.

Lemma Inv_new : Inv hasher_ max_size (@HashMap_new KeyType ValueType).
Proof.
  destruct max_size_ok as [Hmin Hbound]. unfold HashMap_new.
  split; cbn [objects_ buckets_ neighbourhood_size_ next_node].
  - split; [apply NoDup_nil_2 | apply NoDup_nil_2 |].
    intros id o Hin. by inversion Hin.
  - split; unfold capacity; cbn [buckets_ neighbourhood_size_];
      rewrite ?vsize_initial; small.
  - apply table_ok_empty. small.
  - apply nodes_ok_empty. small.
Qed.

Lemma Inv_clear m : Inv hasher_ max_size (clear m).
Proof.
  destruct max_size_ok as [Hmin Hbound]. unfold clear.
  split; cbn [objects_ buckets_ neighbourhood_size_ next_node].
  - split; [apply NoDup_nil_2 | apply NoDup_nil_2 |].
    intros id o Hin. by inversion Hin.
  - split; unfold capacity; cbn [buckets_ neighbourhood_size_];
      rewrite ?vsize_initial; small.
  - apply table_ok_empty. small.
  - apply nodes_ok_empty. small.
Qed.

Lemma Inv_pos m : Inv hasher_ max_size m → 0 < vsize (buckets_ m).
Proof. intros [_ [? ? ?] _ _]. unfold capacity in *. lia. Qed.

Lemma insert_spec m (value : @ObjectType KeyType ValueType) :
  Inv hasher_ max_size m →
  insert hasher_ max_size m value = Throw bad_alloc ∨
  ∃ m' id v, insert hasher_ max_size m value = Ok (m', Node id) ∧
    Inv hasher_ max_size m' ∧ (id, (value.1, v)) ∈ objects_ m' ∧
    ((value.1 ∈ keys (objects_ m) ∧ m' = m) ∨
     ((value.1 ∉ keys (objects_ m)) ∧
      (objects_ m' = (next_node m, value) :: objects_ m) ∧
      next_node m' = S (next_node m) ∧ id = next_node m ∧ v = value.2)).
Proof.
  destruct value as [key val]. cbn [fst snd].
  intros HInv. pose proof HInv as [Hstore Hcap Hok Hnodes].
  pose proof (Inv_pos m HInv) as Hpos.
  unfold insert. cbn [fst snd].
  destruct (FindObject_spec hasher_ m key Hpos Hok Hnodes Hstore)
    as (r & -> & [[-> Habs] | (Hr & Hoccr & id & v & Hit & Hin)]); cbn [bind].
  2: { destruct (Z.eqb_spec r (vsize (buckets_ m))) as [? | _]; [lia |]. cbn [negb].
       rewrite read_in_range by done. cbn [bind]. fold_views. rewrite Hit.
       right. exists m, id, v. split; [done |]. split; [done |]. split; [done |].
       left. split; [| done]. apply elem_of_keys. by exists id, v. }
  rewrite Z.eqb_refl. cbn [negb]. cbn zeta.
  match goal with |- context [InsertObject _ ?x _] => set (m1 := x) end.
  assert (Hstore1 : store_ok (objects_ m1) (next_node m1)).
  { simpl. by apply store_ok_cons. }
  destruct (InsertObject_spec hasher_ m1 (objects_ m) (next_node m) (key, val))
    as (bs' & r & -> & Hsz & Hok' & Hres); try done.
  { simpl. by rewrite Nat.eqb_refl. }
  { intros o' Hin. pose proof (st_fresh _ _ Hstore _ _ Hin). lia. }
  cbn [bind]. cbn [with_buckets buckets_]. simpl in Hsz, Hok'.
  destruct Hres as [[-> Hnodes'] | (Hr & Hnodes' & Hit & Hoccr)].
  - (* placement failed: rehash *)
    rewrite Z.eqb_refl.
    destruct (HandleCollision_spec (with_buckets m1 bs'))
      as [-> | (m2 & -> & Hobj2 & Hnext2 & HInv2)]; try done.
    { destruct Hcap as [? ? ?]. split; unfold capacity in *; simpl; lia. }
    { by left. }
    cbn [bind]. simpl in Hobj2, Hnext2.
    pose proof HInv2 as [Hstore2 Hcap2 Hok2 Hnodes2].
    destruct (FindObject_spec hasher_ m2 key (Inv_pos m2 HInv2) Hok2 Hnodes2 Hstore2)
      as (r & -> & [[_ Habs2] | (Hr & Hoccr & id & v & Hit & Hin)]); cbn [bind].
    { exfalso. apply Habs2. rewrite Hobj2. apply elem_of_keys.
      exists (next_node m), val. left. }
    rewrite read_in_range by done. cbn [bind]. fold_views. rewrite Hit.
    right. exists m2, id, v. split; [done |]. split; [done |]. split; [done |]. right.
    split; [done |]. split; [done |]. split; [done |].
    apply (store_ok_key_unique (objects_ m2) (next_node m2) id (next_node m) key v val);
      [done | done |].
    rewrite Hobj2. left.
  - (* placed *)
    destruct (Z.eqb_spec r (vsize bs')) as [? | _]; [lia |].
    cbn [bind with_buckets buckets_].
    rewrite read_in_range by done. cbn [bind]. fold_views. rewrite Hit.
    right. exists (with_buckets m1 bs'), (next_node m), val.
    split; [done |]. split.
    { split; simpl; try done.
      destruct Hcap as [? ? ?]. split; unfold capacity in *; simpl; lia. }
    split; [simpl; left |].
    right. by repeat split.
Qed.

Lemma erase_spec m (key : KeyType) :
  Inv hasher_ max_size m →
  ∃ m', erase hasher_ m key = Ok m' ∧ Inv hasher_ max_size m' ∧
    neighbourhood_size_ m' = neighbourhood_size_ m ∧
    vsize (buckets_ m') = vsize (buckets_ m) ∧
    next_node m' = next_node m ∧
    (key ∉ keys (objects_ m')) ∧
    (∀ x, x ∈ objects_ m' ↔ (x ∈ objects_ m ∧ x.2.1 ≠ key)) ∧
    (key ∉ keys (objects_ m) → m' = m).
Proof.
  intros HInv. pose proof HInv as [Hstore Hcap Hok Hnodes].
  pose proof (Inv_pos m HInv) as Hpos.
  pose proof (st_ids _ _ Hstore) as Hnd.
  unfold erase.
  destruct (FindObject_spec hasher_ m key Hpos Hok Hnodes Hstore)
    as (r & -> & [[-> Habs] | (Hr & Hoccr & id & v & Hit & Hin)]); cbn [bind].
  { rewrite Z.eqb_refl. exists m. do 6 (split; [done |]). split; [| done].
    intros x. split; [| by intros []]. intros Hx. split; [done |].
    intros <-. apply Habs. apply elem_of_keys. destruct x as [i [k w]]. by exists i, w. }
  destruct (Z.eqb_spec r (vsize (buckets_ m))) as [? | _]; [lia |].
  rewrite read_in_range by done. cbn [bind]. fold_views. rewrite Hit.
  cbn [list_erase]. rewrite (node_lookup_elem_of _ _ _ Hnd Hin). cbn [bind].
  destruct (EraseObject_views _ _ r Hok Hr Hoccr) as (bs' & -> & V). cbn [bind].
  pose proof (erase_table_ok _ _ _ r _ Hok Hr Hoccr V) as Hok'.
  destruct V as (Hsz & Hit' & _ & _ & _ & Hob').
  assert (Hmem : ∀ x, x ∈ node_remove (objects_ m) id ↔ x ∈ objects_ m ∧ x.2.1 ≠ key).
  { intros x. rewrite elem_of_node_remove by done. split; intros [Hx Hne]; (split; [done |]).
    - intros <-. apply Hne. destruct x as [i [k w]]. simpl in *.
      by destruct (store_ok_key_unique _ _ i id k w v Hstore Hx Hin).
    - intros Heq. apply Hne. destruct x as [i [k w]]. simpl in *. subst i.
      pose proof (node_lookup_elem_of _ _ _ Hnd Hx) as E1.
      pose proof (node_lookup_elem_of _ _ _ Hnd Hin) as E2. congruence. }
  eexists. split; [done |]. split.
  { split; simpl.
    - by apply store_ok_remove.
    - destruct Hcap as [? ? ?]. split; unfold capacity in *; simpl; lia.
    - done.
    - apply (nodes_ok_erase hasher_ (objects_ m) _ (buckets_ m) bs' r id); try done.
      intros x. by apply elem_of_node_remove. }
  simpl. do 3 (split; [done |]). split; [| split; [done |]].
  - intros Hk. apply elem_of_keys in Hk as (i & w & Hx). apply Hmem in Hx as [_ Hne]. done.
  - intros Habs. exfalso. apply Habs. apply elem_of_keys. by exists id, v.
Qed.

Lemma find_spec m (key : KeyType) :
  Inv hasher_ max_size m →
  ((key ∉ keys (objects_ m)) ∧ find hasher_ m key = Ok End) ∨
  (∃ id v, (id, (key, v)) ∈ objects_ m ∧ find hasher_ m key = Ok (Node id)).
Proof.
  intros HInv. pose proof HInv as [Hstore Hcap Hok Hnodes].
  unfold find.
  destruct (FindObject_spec hasher_ m key (Inv_pos m HInv) Hok Hnodes Hstore)
    as (r & -> & [[-> Habs] | (Hr & Hoccr & id & v & Hit & Hin)]); cbn [bind].
  - left. by rewrite Z.eqb_refl.
  - right. exists id, v. split; [done |].
    destruct (Z.eqb_spec r (vsize (buckets_ m))) as [? | _]; [lia |].
    rewrite read_in_range by done. cbn [bind]. fold_views. by rewrite Hit.
Qed.

Lemma at_spec m (key : KeyType) :
  Inv hasher_ max_size m →
  ((key ∉ keys (objects_ m)) ∧ at_ hasher_ m key = Throw out_of_range) ∨
  (∃ id v, (id, (key, v)) ∈ objects_ m ∧ at_ hasher_ m key = Ok v).
Proof.
  intros HInv. pose proof HInv as [Hstore Hcap Hok Hnodes].
  unfold at_.
  destruct (FindObject_spec hasher_ m key (Inv_pos m HInv) Hok Hnodes Hstore)
    as (r & -> & [[-> Habs] | (Hr & Hoccr & id & v & Hit & Hin)]); cbn [bind].
  - left. by rewrite Z.eqb_refl.
  - right. exists id, v. split; [done |].
    destruct (Z.eqb_spec r (vsize (buckets_ m))) as [? | _]; [lia |].
    rewrite read_in_range by done. cbn [bind]. fold_views. rewrite Hit.
    cbn [deref]. rewrite (node_lookup_elem_of _ _ _ (st_ids _ _ Hstore) Hin). done.
Qed.

Lemma reachable_Inv m :
  reachable hasher_ ValueType_default max_size m → Inv hasher_ max_size m.
Proof.
  induction 1 as [| m value m' it _ IH Hins | m key m' _ IH Her
                  | m key m' it _ IH Hsub | m _ _].
  - apply Inv_new.
  - destruct (insert_spec m value IH) as [E | (m2 & id & v & E & HInv & _)]; congruence.
  - destruct (erase_spec m key IH) as (m2 & E & HInv & _). congruence.
  - unfold subscript in Hsub.
    destruct (insert_spec m (key, ValueType_default) IH)
      as [E | (m2 & id & v & E & HInv & _)]; congruence.
  - apply Inv_clear.
Qed.

Lemma insert_present m key v v' id :
  Inv hasher_ max_size m → (id, (key, v)) ∈ objects_ m →
  insert hasher_ max_size m (key, v') = Ok (m, Node id).
Proof.
  intros HInv Hin. pose proof HInv as [Hstore Hcap Hok Hnodes].
  unfold insert. cbn [fst snd].
  destruct (FindObject_spec hasher_ m key (Inv_pos m HInv) Hok Hnodes Hstore)
    as (r & -> & [[-> Habs] | (Hr & Hoccr & id' & w & Hit & Hin')]); cbn [bind].
  { exfalso. apply Habs. apply elem_of_keys. by exists id, v. }
  destruct (Z.eqb_spec r (vsize (buckets_ m))) as [? | _]; [lia |]. cbn [negb].
  rewrite read_in_range by done. cbn [bind]. fold_views. rewrite Hit.
  by destruct (store_ok_key_unique _ _ id' id key w v Hstore Hin' Hin) as [-> _].
Qed.

Lemma insert_all_reachable m values m' :
  reachable hasher_ ValueType_default max_size m →
  insert_all hasher_ max_size m values = Ok m' →
  reachable hasher_ ValueType_default max_size m'.
Proof.
  revert m. induction values as [|value values IH]; intros m Hm; simpl.
  { by intros [= <-]. }
  destruct (insert hasher_ max_size m value) as [[m1 it] | | |] eqn:E; simpl; try done.
  apply IH. by eapply reach_insert.
Qed.

Lemma retry_loop_done fuel m : retry_loop hasher_ max_size fuel m true = Ok m.
Proof. by destruct fuel. Qed.

Lemma retry_loop_policy fuel m :
  store_ok (objects_ m) (next_node m) → capacity_ok max_size m →
  size m < capacity m →
  retry_loop hasher_ max_size fuel m false = rehash_by_policy hasher_ max_size fuel m.
Proof.
  revert m. induction fuel as [|fuel IH]; intros m Hstore Hcap Hsize; [done |].
  cbn [retry_loop rehash_by_policy].
  destruct (retry_targets m Hcap) as (En & Ec & Hnc).
  pose proof Hcap as [Hpos Hle Hmax]. unfold capacity in *.
  assert (rehash_policy (size m) (vsize (buckets_ m)) (neighbourhood_size_ m) =
          (retry_capacity m, retry_neighbourhood m)) as ->.
  { unfold rehash_policy. rewrite Ec, En.
    destruct (Z.leb_spec (vsize (buckets_ m)) (size m)); [lia |]. rewrite orb_false_r.
    by destruct (_ <=? _). }
  destruct (Reallocate_spec m (retry_capacity m) (retry_neighbourhood m))
    as [-> | (m' & ok & -> & Hobj & Hnext & Hres)];
    [by apply st_ids in Hstore | lia | done |].
  cbn [bind]. destruct ok; [apply retry_loop_done |].
  destruct Hres as [(_ & _ & _ & ?) | (Hsz & Hnbh & Hcmax & _)]; [lia |].
  apply IH.
  - by rewrite Hobj, Hnext.
  - split; unfold capacity; lia.
  - assert (vsize (buckets_ m) ≤ retry_capacity m)
      by (rewrite Ec; destruct (_ || _); lia).
    unfold capacity, size in *. rewrite Hobj. lia.
Qed.

End operations.

(** * Chains and occupants *)

Section filter_seqZ.

Context (P : Z → Prop) `{∀ x, Decision (P x)}.

Lemma filter_seqZ_none lo len :
  (∀ j, lo ≤ j < lo + len → ¬ P j) → filter P (seqZ lo len) = [].
Proof.
  intros Hnone. apply elem_of_nil_inv. intros x Hx.
  apply list_elem_of_filter in Hx as [HP Hx]. apply elem_of_seqZ in Hx.
  by apply (Hnone x).
Qed.

Lemma filter_seqZ_skip lo len lo' :
  lo ≤ lo' ≤ lo + len → (∀ j, lo ≤ j < lo' → ¬ P j) →
  filter P (seqZ lo len) = filter P (seqZ lo' (lo + len - lo')).
Proof.
  intros Hlo Hnone.
  replace len with ((lo' - lo) + (lo + len - lo')) at 1 by lia.
  rewrite seqZ_app by lia. rewrite filter_app.
  rewrite filter_seqZ_none by (intros; apply Hnone; lia).
  simpl. do 2 f_equal. lia.
Qed.

Lemma filter_seqZ_first lo len j :
  lo ≤ j < lo + len → P j → (∀ m, lo ≤ m < j → ¬ P m) →
  filter P (seqZ lo len) = j :: filter P (seqZ (j + 1) (lo + len - (j + 1))).
Proof.
  intros Hj HP Hmin. rewrite (filter_seqZ_skip lo len j) by (done || lia).
  rewrite seqZ_cons by lia. rewrite filter_cons_True by done.
  do 3 f_equal; lia.
Qed.

Lemma filter_seqZ_sorted lo len : StronglySorted Z.lt (filter P (seqZ lo len)).
Proof.
  remember (Z.to_nat len) as n eqn:En. revert lo len En.
  induction n as [|n IH]; intros lo len En.
  { rewrite seqZ_nil by lia. constructor. }
  rewrite seqZ_cons by lia. rewrite filter_cons.
  assert (Hrest : StronglySorted Z.lt (filter P (seqZ (Z.succ lo) (Z.pred len))))
    by (apply IH; lia).
  destruct (decide (P lo)); [| done].
  apply StronglySorted_cons. split; [| done].
  apply Forall_forall. intros x Hx.
  apply list_elem_of_filter in Hx as [_ Hx]. apply elem_of_seqZ in Hx. lia.
Qed.

End filter_seqZ.

Lemma occupants_sorted bs h : StronglySorted Z.lt (occupants bs h).
Proof. apply filter_seqZ_sorted. Qed.

Lemma elem_of_occupants bs h i :
  i ∈ occupants bs h ↔ 0 ≤ i < vsize bs ∧ ob_at bs i = h.
Proof.
  unfold occupants. rewrite list_elem_of_filter, elem_of_seqZ. split; intros []; split; done || lia.
Qed.

Lemma chain_from_occupants bs nbh h fuel cur :
  table_ok bs nbh → 0 ≤ h < vsize bs → 0 ≤ cur < vsize bs → ob_at bs cur = h →
  (Z.to_nat (vsize bs - cur) ≤ fuel)%nat →
  chain_from fuel bs cur =
  filter (λ i, ob_at bs i = h) (seqZ cur (vsize bs - cur)).
Proof.
  intros Hok Hh. pose proof (tb_size _ _ Hok) as Hsize.
  revert cur. induction fuel as [|fuel IH]; intros cur Hcur Hhome Hfuel; [lia |].
  cbn [chain_from].
  rewrite (filter_seqZ_first _ cur _ cur) by (done || lia).
  f_equal.
  pose proof (tb_next _ _ Hok cur Hcur ltac:(small)) as Hnext.
  rewrite Hhome in Hnext. unfold fwd in Hnext.
  destruct (Z.eqb_spec (nx_at bs cur) NULL_DELTA) as [E | E].
  - symmetry. apply filter_seqZ_none. intros j Hj. apply Hnext. lia.
  - destruct Hnext as (Hlt & HP & Hmin).
    assert (0 ≤ cur + nx_at bs cur < vsize bs) as Hnr
      by (eapply homed_in_range; [| done | done]; done).
    rewrite to_diff_small by lia. rewrite IH by (done || lia).
    rewrite (filter_seqZ_skip _ (cur + 1) _ (cur + nx_at bs cur)).
    + do 2 f_equal; lia.
    + lia.
    + intros j Hj. apply Hmin. lia.
Qed.

Lemma chain_occupants bs nbh h :
  table_ok bs nbh → 0 ≤ h < vsize bs → chain bs h = occupants bs h.
Proof.
  intros Hok Hh. pose proof (tb_size _ _ Hok) as Hsize.
  assert (Hbelow : ∀ j, j < h → ob_at bs j ≠ h).
  { intros j Hj Hhj.
    assert (0 ≤ j < vsize bs) as Hjr by (apply ob_at_in_range; small).
    destruct (tb_home _ _ Hok j Hjr ltac:(small)). lia. }
  pose proof (tb_head _ _ Hok h Hh) as Hhead. unfold fwd in Hhead.
  unfold chain, occupants.
  destruct (Z.eqb_spec (fd_at bs h) NULL_DELTA) as [E | E].
  - symmetry. apply filter_seqZ_none. intros j Hj.
    destruct (Z.lt_ge_cases j h); [by apply Hbelow | apply Hhead; lia].
  - destruct Hhead as (Hlo & HP & Hmin).
    assert (0 ≤ h + fd_at bs h < vsize bs) as Hnr
      by (eapply homed_in_range; [| done | done]; done).
    rewrite to_diff_small by lia.
    rewrite (chain_from_occupants bs nbh h) by (done || unfold vsize in *; lia).
    rewrite (filter_seqZ_skip _ 0 _ (h + fd_at bs h)).
    + do 2 f_equal; lia.
    + lia.
    + intros j Hj. destruct (Z.lt_ge_cases j h); [by apply Hbelow | apply Hmin; lia].
Qed.

(** * Growth of the table *)

Section growth.

Context {KeyType ValueType : Type} `{EqDecision KeyType}.
Variable hasher_ : KeyType → Z.
Variable ValueType_default : ValueType.
Variable max_size : Z.
Hypothesis max_size_ok :
  min_neighbourhood_size_ ≤ max_size ∧ max_size * size_modifier_ < size_modulus.

Local Abbreviation HM := (@HashMap KeyType ValueType).
Implicit Types (m : HM).

Lemma grown_refl m : grown m m.
Proof. exists 0%nat, 0%nat. simpl. lia. Qed.

Lemma grown_trans m1 m2 m3 : grown m1 m2 → grown m2 m3 → grown m1 m3.
Proof.
  intros (a & b & Ha & Hb) (a' & b' & Ha' & Hb').
  exists (a + a')%nat, (b + b')%nat.
  rewrite !Nat2Z.inj_add, !Z.pow_add_r by lia. rewrite Ha', Hb', Ha, Hb. lia.
Qed.

Lemma grown_le m m' :
  0 < capacity m → 0 < neighbourhood_size_ m → grown m m' →
  capacity m ≤ capacity m' ∧ neighbourhood_size_ m ≤ neighbourhood_size_ m'.
Proof.
  intros Hc Hn (a & b & -> & ->).
  assert (0 < 3 ^ Z.of_nat a) by (apply Z.pow_pos_nonneg; lia).
  assert (0 < 3 ^ Z.of_nat b) by (apply Z.pow_pos_nonneg; lia).
  split; nia.
Qed.

Lemma grown_step m m' (a b : nat) :
  capacity m' = capacity m * 3 ^ Z.of_nat a →
  neighbourhood_size_ m' = neighbourhood_size_ m * 3 ^ Z.of_nat b →
  grown m m'.
Proof. intros. by exists a, b. Qed.

Lemma retry_loop_grown fuel m handle m' :
  store_ok (objects_ m) (next_node m) → capacity_ok max_size m →
  retry_loop hasher_ max_size fuel m handle = Ok m' → grown m m'.
Proof.
  revert m handle. induction fuel as [|fuel IH]; intros m handle Hstore Hcap.
  { destruct handle; simpl; [| done]. intros [= <-]. apply grown_refl. }
  destruct handle; [simpl; intros [= <-]; apply grown_refl |].
  cbn [retry_loop].
  destruct (retry_targets max_size max_size_ok m Hcap) as (En & Ec & Hnc).
  pose proof Hcap as [Hpos Hle Hmax]. unfold capacity in *.
  destruct (Reallocate_spec hasher_ max_size max_size_ok m
              (retry_capacity m) (retry_neighbourhood m))
    as [-> | (m1 & ok & -> & Hobj & Hnext & Hres)];
    [by apply st_ids in Hstore | lia | done |].
  cbn [bind]. intros Hloop.
  destruct Hres as [(_ & _ & _ & ?) | (Hsz & Hnbh & Hcmax & _)]; [lia |].
  apply (grown_trans m m1 m').
  - destruct ((vsize (buckets_ m) <=? neighbourhood_size_ m * 3)
              || (vsize (buckets_ m) <=? size m)).
    + apply (grown_step m m1 1 1); unfold capacity; simpl; lia.
    + apply (grown_step m m1 0 1); unfold capacity; simpl; lia.
  - apply (IH m1 ok); [by rewrite Hobj, Hnext | | done].
    split; unfold capacity; lia.
Qed.

Lemma HandleCollision_grown fuel m m' :
  store_ok (objects_ m) (next_node m) → capacity_ok max_size m →
  HandleCollision hasher_ max_size fuel m = Ok m' → grown m m'.
Proof.
  intros Hstore Hcap. pose proof Hcap as [Hpos Hle Hmax]. unfold capacity in *.
  destruct max_size_ok as [_ Hbound]. unfold HandleCollision.
  destruct (Z.leb_spec (vsize (buckets_ m)) (size m)) as [Hfull | Hroom].
  - unfold size_modifier_. rewrite to_size_small by small.
    destruct (Reallocate_spec hasher_ max_size max_size_ok m
                (vsize (buckets_ m) * 3) (neighbourhood_size_ m))
      as [-> | (m1 & ok & -> & Hobj & Hnext & Hres)];
      [by apply st_ids in Hstore | lia | done |].
    cbn [bind]. intros Hloop.
    destruct Hres as [(_ & _ & ? & _) | (Hsz & Hnbh & Hcmax & _)]; [lia |].
    apply (grown_trans m m1 m').
    + apply (grown_step m m1 1 0); unfold capacity; simpl; lia.
    + apply (retry_loop_grown fuel m1 ok); [by rewrite Hobj, Hnext | | done].
      split; unfold capacity; lia.
  - cbn [bind]. by apply retry_loop_grown.
Qed.

Lemma insert_grown m (value : @ObjectType KeyType ValueType) m' it :
  Inv hasher_ max_size m →
  insert hasher_ max_size m value = Ok (m', it) → grown m m'.
Proof.
  destruct value as [key val].
  intros HInv. pose proof HInv as [Hstore Hcap Hok Hnodes].
  pose proof (Inv_pos hasher_ max_size m HInv) as Hpos.
  unfold insert. cbn [fst snd].
  destruct (FindObject_spec hasher_ m key Hpos Hok Hnodes Hstore)
    as (r & -> & [[-> Habs] | (Hr & Hoccr & id & v & Hit & Hin)]); cbn [bind].
  2: { destruct (Z.eqb_spec r (vsize (buckets_ m))) as [? | _]; [lia |]. cbn [negb].
       rewrite read_in_range by done. cbn [bind]. intros [= <- _]. apply grown_refl. }
  rewrite Z.eqb_refl. cbn [negb]. cbn zeta.
  match goal with |- context [InsertObject _ ?x _] => set (m1 := x) end.
  assert (Hstore1 : store_ok (objects_ m1) (next_node m1)).
  { simpl. by apply store_ok_cons. }
  destruct (InsertObject_spec hasher_ m1 (objects_ m) (next_node m) (key, val))
    as (bs' & r & -> & Hsz & Hok' & Hres); try done.
  { simpl. by rewrite Nat.eqb_refl. }
  { intros o' Hin. pose proof (st_fresh _ _ Hstore _ _ Hin). lia. }
  cbn [bind]. cbn [with_buckets buckets_]. simpl in Hsz, Hok'.
  assert (Hstep : grown m (with_buckets m1 bs')).
  { apply (grown_step _ _ 0 0); unfold capacity; simpl; lia. }
  destruct Hres as [[-> Hnodes'] | (Hr & Hnodes' & Hit & Hoccr)].
  - rewrite Z.eqb_refl.
    destruct (HandleCollision hasher_ max_size collision_fuel (with_buckets m1 bs'))
      as [m2 | | |] eqn:Ecol; try done.
    cbn [bind].
    destruct (FindObject hasher_ m2 key) as [r | | |]; try done. cbn [bind].
    destruct (read (buckets_ m2) r) as [b | | |]; try done. cbn [bind].
    intros [= <- _]. apply (grown_trans _ _ _ Hstep).
    apply (HandleCollision_grown collision_fuel); [done | | done].
    destruct Hcap as [? ? ?]. split; unfold capacity in *; simpl; lia.
  - destruct (Z.eqb_spec r (vsize bs')) as [? | _]; [lia |].
    cbn [bind with_buckets buckets_].
    rewrite read_in_range by done. cbn [bind]. by intros [= <- _].
Qed.

End growth.

(** * The entries of a container and what the operations do to them *)

Section entry_lists.

Context {KeyType ValueType : Type} `{EqDecision KeyType}.

Local Abbreviation OT := (KeyType * ValueType)%type.
Implicit Types (es values : list OT).

(** ** [first_value] *)

Lemma first_value_None key values :
  first_value key values = None ↔ key ∉ values.*1.
Proof.
  induction values as [|[k v] values IH]; simpl.
  - split; [intros _ Hin; by inversion Hin | done].
  - rewrite not_elem_of_cons. destruct (decide (k = key)) as [-> | Hne].
    + split; [done | by intros [? _]].
    + rewrite IH. split; [by intros ?; split | by intros [_ ?]].
Qed.

Lemma first_value_Some key v values :
  first_value key values = Some v → (key, v) ∈ values.
Proof.
  induction values as [|[k w] values IH]; simpl; [done |].
  destruct (decide (k = key)) as [-> | Hne].
  - intros [= ->]. left.
  - intros Hf. right. by apply IH.
Qed.

Lemma first_value_NoDup key v values :
  NoDup (values.*1) → (key, v) ∈ values → first_value key values = Some v.
Proof.
  induction values as [|[k w] values IH]; simpl; intros Hnd Hin; [by inversion Hin |].
  apply NoDup_cons in Hnd as [Hk Hnd].
  apply elem_of_cons in Hin as [[= <- <-] | Hin].
  - by rewrite decide_True.
  - destruct (decide (k = key)) as [-> | Hne]; [| by apply IH].
    exfalso. apply Hk. apply list_elem_of_fmap. by exists (key, v).
Qed.

Lemma first_value_filter key key' es :
  first_value key' (filter (λ o, o.1 ≠ key) es) =
  if decide (key' = key) then None else first_value key' es.
Proof.
  induction es as [|[k v] es IH].
  - simpl. by destruct (decide (key' = key)).
  - destruct (decide (k = key)) as [-> | Hk].
    + rewrite filter_cons_False by (simpl; intros Hne; by apply Hne).
      rewrite IH. cbn [first_value].
      destruct (decide (key' = key)) as [-> | Hne]; [done |].
      by rewrite decide_False.
    + rewrite filter_cons_True by done. cbn [first_value]. rewrite IH.
      destruct (decide (k = key')) as [-> | Hne]; [by rewrite decide_False | done].
Qed.

(** ** [insert_entries] *)

Lemma insert_entries_first_value key es values :
  first_value key (insert_entries es values) =
  match first_value key es with
  | Some v => Some v
  | None => first_value key values
  end.
Proof.
  revert es. induction values as [|[k v] values IH]; intros es; simpl.
  { by destruct (first_value key es). }
  rewrite IH. destruct (decide (k ∈ es.*1)) as [Hin | Hnin].
  - destruct (first_value key es) eqn:E; [done |].
    apply first_value_None in E. destruct (decide (k = key)) as [-> | Hne]; done.
  - simpl. destruct (decide (k = key)) as [-> | Hne]; [| done].
    apply first_value_None in Hnin. by rewrite Hnin.
Qed.

Lemma insert_entries_fresh es values :
  NoDup (values.*1) → (∀ k, k ∈ values.*1 → k ∉ es.*1) →
  insert_entries es values = reverse values ++ es.
Proof.
  revert es. induction values as [|[k v] values IH]; intros es Hnd Hdisj; simpl; [done |].
  simpl in Hnd. apply NoDup_cons in Hnd as [Hk Hnd].
  rewrite decide_False by (apply Hdisj; left).
  rewrite IH; [by rewrite reverse_cons, <- app_assoc | done |].
  intros k' Hin. simpl. apply not_elem_of_cons. split.
  - intros ->. done.
  - apply Hdisj. by right.
Qed.

Lemma insert_entries_keys es values :
  NoDup (es.*1) →
  NoDup ((insert_entries es values).*1) ∧
  ∀ k, k ∈ (insert_entries es values).*1 ↔ k ∈ es.*1 ∨ k ∈ values.*1.
Proof.
  revert es. induction values as [|[k v] values IH]; intros es Hnd; simpl.
  { split; [done |]. intros k. rewrite elem_of_nil. tauto. }
  destruct (decide (k ∈ es.*1)) as [Hin | Hnin].
  - destruct (IH es Hnd) as [Hnd' Hmem]. split; [done |].
    intros k'. rewrite Hmem, elem_of_cons. split; [tauto |].
    intros [? | [-> | ?]]; tauto.
  - destruct (IH ((k, v) :: es)) as [Hnd' Hmem].
    { simpl. by apply NoDup_cons. }
    split; [done |]. intros k'. rewrite Hmem. simpl. rewrite !elem_of_cons. tauto.
Qed.

Lemma insert_entries_length values :
  length (insert_entries [] values) = length (remove_dups (values.*1)).
Proof.
  destruct (insert_entries_keys [] values) as [Hnd Hmem]; [by apply NoDup_nil |].
  rewrite <- (length_fmap fst (insert_entries [] values)).
  apply Permutation_length, NoDup_Permutation; [done | apply NoDup_remove_dups |].
  intros k. rewrite Hmem, elem_of_remove_dups. simpl. rewrite elem_of_nil. tauto.
Qed.

End entry_lists.

Section content.

Context {KeyType ValueType : Type} `{EqDecision KeyType}.
Variable hasher_ : KeyType → Z.
Variable ValueType_default : ValueType.
Variable max_size : Z.
Hypothesis max_size_ok :
  min_neighbourhood_size_ ≤ max_size ∧ max_size * size_modifier_ < size_modulus.

Local Abbreviation node := (nat * (KeyType * ValueType))%type.
Local Abbreviation HM := (@HashMap KeyType ValueType).
Local Abbreviation OT := (KeyType * ValueType)%type.
Implicit Types (m : HM) (l : list node) (es values : list OT).

(** ** Entries and keys *)

Lemma keys_entries m : keys (objects_ m) = (entries m).*1.
Proof. unfold keys, entries. by rewrite <- list_fmap_compose. Qed.

Lemma elem_of_entries m (o : OT) : o ∈ entries m ↔ ∃ id, (id, o) ∈ objects_ m.
Proof.
  unfold entries. rewrite list_elem_of_fmap. split.
  - intros ([id o'] & -> & Hin). by exists id.
  - intros (id & Hin). by exists (id, o).
Qed.

Lemma size_entries m : size m = Z.of_nat (length (entries m)).
Proof. unfold size, entries. by rewrite length_fmap. Qed.

Lemma at_entries m key :
  Inv hasher_ max_size m → at_ hasher_ m key = at_of key (entries m).
Proof.
  intros HInv. pose proof (inv_store _ _ _ HInv) as Hstore. unfold at_of.
  destruct (at_spec hasher_ max_size m key HInv) as [[Habs ->] | (id & v & Hin & ->)].
  - rewrite keys_entries in Habs. apply first_value_None in Habs. by rewrite Habs.
  - rewrite (first_value_NoDup key v).
    + done.
    + rewrite <- keys_entries. apply (st_keys _ _ Hstore).
    + apply elem_of_entries. by exists id.
Qed.

(** ** [find] and the handles *)

Lemma find_deref m key :
  Inv hasher_ max_size m →
  (find hasher_ m key = Ok End ∧ at_ hasher_ m key = Throw out_of_range ∧
   key ∉ keys (objects_ m)) ∨
  (∃ id v, find hasher_ m key = Ok (Node id) ∧
           deref (objects_ m) (Node id) = Ok (key, v) ∧
           at_ hasher_ m key = Ok v ∧ (id, (key, v)) ∈ objects_ m).
Proof.
  intros HInv. pose proof (inv_store _ _ _ HInv) as Hstore.
  destruct (find_spec hasher_ max_size m key HInv) as [[Habs ->] | (id & v & Hin & ->)].
  - left. split; [done |]. split; [| done].
    destruct (at_spec hasher_ max_size m key HInv) as [[_ ->] | (id & v & Hin & _)]; [done |].
    exfalso. apply Habs. apply elem_of_keys. by exists id, v.
  - right. exists id, v. split; [done |]. split.
    { cbn [deref]. by rewrite (node_lookup_elem_of _ _ _ (st_ids _ _ Hstore) Hin). }
    split; [| done].
    destruct (at_spec hasher_ max_size m key HInv) as [[Habs _] | (id' & v' & Hin' & ->)].
    + exfalso. apply Habs. apply elem_of_keys. by exists id, v.
    + by destruct (store_ok_key_unique _ _ id' id key v' v Hstore Hin' Hin) as [_ ->].
Qed.

(** Two containers that hold the same node for [key] answer alike. *)
Lemma find_agree m m' key :
  Inv hasher_ max_size m → Inv hasher_ max_size m' →
  (∀ id v, (id, (key, v)) ∈ objects_ m' ↔ (id, (key, v)) ∈ objects_ m) →
  find hasher_ m' key = find hasher_ m key ∧ at_ hasher_ m' key = at_ hasher_ m key.
Proof.
  intros HInv HInv' Hsame.
  pose proof (inv_store _ _ _ HInv) as Hstore.
  destruct (find_deref m key HInv) as [(-> & -> & Habs) | (id & v & -> & _ & -> & Hin)];
    destruct (find_deref m' key HInv')
      as [(-> & -> & Habs') | (id' & v' & -> & _ & -> & Hin')]; try done.
  - exfalso. apply Habs. apply elem_of_keys. exists id', v'. by apply Hsame.
  - exfalso. apply Habs'. apply elem_of_keys. exists id, v. by apply Hsame.
  - apply Hsame in Hin'.
    by destruct (store_ok_key_unique _ _ id' id key v' v Hstore Hin' Hin) as [-> ->].
Qed.

Lemma deref_Ok l id (o : OT) : deref l (Node id) = Ok o ↔ node_lookup l id = Some o.
Proof. cbn [deref]. destruct (node_lookup l id); split; intros [=]; by subst. Qed.

End content.

(** * What the operations do to the entries *)

Section list_facts.

Context {A B : Type}.

Lemma filter_ext_in (P Q : A → Prop) `{!∀ x, Decision (P x), !∀ x, Decision (Q x)}
    (l : list A) :
  (∀ x, x ∈ l → (P x ↔ Q x)) → filter P l = filter Q l.
Proof.
  induction l as [|x l IH]; intros Heq; [done |].
  rewrite !filter_cons.
  pose proof (Heq x ltac:(left)) as Hx.
  rewrite IH by (intros y Hy; apply Heq; by right).
  destruct (decide (P x)), (decide (Q x)); tauto.
Qed.

Lemma filter_all (P : A → Prop) `{!∀ x, Decision (P x)} (l : list A) :
  (∀ x, x ∈ l → P x) → filter P l = l.
Proof.
  induction l as [|x l IH]; intros Hall; [done |].
  rewrite filter_cons_True by (apply Hall; left).
  rewrite IH; [done |]. intros y Hy. apply Hall. by right.
Qed.

Lemma filter_fmap (f : A → B) (P : B → Prop) `{!∀ x, Decision (P x)} (l : list A) :
  filter P (f <$> l) = f <$> filter (λ x, P (f x)) l.
Proof.
  induction l as [|x l IH]; [done |].
  rewrite fmap_cons, !filter_cons, IH. by destruct (decide (P (f x))).
Qed.

End list_facts.

Section effects.

Context {KeyType ValueType : Type} `{EqDecision KeyType}.
Variable hasher_ : KeyType → Z.
Variable ValueType_default : ValueType.
Variable max_size : Z.
Hypothesis max_size_ok :
  min_neighbourhood_size_ ≤ max_size ∧ max_size * size_modifier_ < size_modulus.

Local Abbreviation node := (nat * (KeyType * ValueType))%type.
Local Abbreviation HM := (@HashMap KeyType ValueType).
Local Abbreviation OT := (KeyType * ValueType)%type.
Implicit Types (m : HM) (l placed : list node) (es values : list OT).

(** ** [insert] *)

Lemma insert_effect m key v m' it :
  Inv hasher_ max_size m →
  insert hasher_ max_size m (key, v) = Ok (m', it) →
  Inv hasher_ max_size m' ∧ grown m m' ∧
  objects_ m' = (if decide (key ∈ keys (objects_ m)) then objects_ m
                 else (next_node m, (key, v)) :: objects_ m) ∧
  (key ∈ keys (objects_ m) → m' = m) ∧
  ∃ id w, it = Node id ∧ (id, (key, w)) ∈ objects_ m'.
Proof.
  intros HInv Hins. pose proof (insert_grown hasher_ max_size max_size_ok _ _ _ _ HInv Hins).
  destruct (insert_spec hasher_ max_size max_size_ok m (key, v) HInv)
    as [E | (m2 & id & w & E & HInv' & Hin & Hcase)]; [congruence |].
  rewrite E in Hins. injection Hins as <- <-. cbn [fst snd] in *.
  split; [done |]. split; [done |].
  destruct Hcase as [[Hpres ->] | (Habs & Hobj & _)].
  - rewrite decide_True by done. split; [done |]. split; [done |]. by exists id, w.
  - rewrite decide_False by done. split; [done |]. split; [done |]. by exists id, w.
Qed.

Lemma insert_total m (value : OT) :
  Inv hasher_ max_size m →
  insert hasher_ max_size m value = Throw bad_alloc ∨
  ∃ m' it, insert hasher_ max_size m value = Ok (m', it).
Proof.
  intros HInv.
  destruct (insert_spec hasher_ max_size max_size_ok m value HInv)
    as [E | (m2 & id & w & E & _)]; [by left | right; by exists m2, (Node id)].
Qed.

Lemma insert_effect_entries m key v m' it :
  Inv hasher_ max_size m →
  insert hasher_ max_size m (key, v) = Ok (m', it) →
  entries m' = insert_entries (entries m) [(key, v)].
Proof.
  intros HInv Hins.
  destruct (insert_effect m key v m' it HInv Hins) as (_ & _ & Hobj & _).
  unfold entries. rewrite Hobj. cbn [insert_entries].
  change ((objects_ m).*2) with (entries m). rewrite <- keys_entries.
  by destruct (decide (key ∈ keys (objects_ m))).
Qed.

(** ** Sequences of insertions *)

Lemma insert_all_effect m values m' :
  Inv hasher_ max_size m →
  insert_all hasher_ max_size m values = Ok m' →
  Inv hasher_ max_size m' ∧ grown m m' ∧
  entries m' = insert_entries (entries m) values.
Proof.
  revert m. induction values as [|[key v] values IH]; intros m HInv; cbn [insert_all].
  { intros [= <-]. split; [done |]. split; [apply grown_refl | done]. }
  destruct (insert hasher_ max_size m (key, v)) as [[m1 it] | | |] eqn:E; try done.
  cbn [bind]. intros Hall.
  destruct (insert_effect m key v m1 it HInv E) as (HInv1 & Hg1 & _).
  destruct (IH m1 HInv1 Hall) as (HInv' & Hg & Hes).
  split; [done |]. split; [by eapply grown_trans |].
  rewrite Hes, (insert_effect_entries m key v m1 it HInv E). done.
Qed.

Lemma insert_all_total m values :
  Inv hasher_ max_size m →
  insert_all hasher_ max_size m values = Throw bad_alloc ∨
  ∃ m', insert_all hasher_ max_size m values = Ok m'.
Proof.
  revert m. induction values as [|value values IH]; intros m HInv; cbn [insert_all].
  { right. by exists m. }
  destruct (insert_total m value HInv) as [-> | (m1 & it & E)]; [by left |].
  rewrite E. cbn [bind]. apply IH. destruct value as [key v].
  by destruct (insert_effect m key v m1 it HInv E).
Qed.

(** ** [erase] *)

Lemma node_remove_filter l id :
  NoDup (l.*1) → node_remove l id = filter (λ x, x.1 ≠ id) l.
Proof.
  induction l as [|[n o] l IH]; intros Hnd; [done |].
  simpl in Hnd. apply NoDup_cons in Hnd as [Hn Hnd]. cbn [node_remove].
  destruct (Nat.eqb_spec n id) as [-> | Hne].
  - rewrite filter_cons_False by (simpl; intros Hne; by apply Hne).
    symmetry. apply filter_all. intros x Hx Heq. apply Hn.
    apply list_elem_of_fmap. by exists x.
  - rewrite filter_cons_True by done. by rewrite IH.
Qed.

Lemma erase_effect m key :
  Inv hasher_ max_size m →
  ∃ m', erase hasher_ m key = Ok m' ∧ Inv hasher_ max_size m' ∧
    neighbourhood_size_ m' = neighbourhood_size_ m ∧
    capacity m' = capacity m ∧
    objects_ m' = filter (λ x, x.2.1 ≠ key) (objects_ m) ∧
    entries m' = filter (λ o, o.1 ≠ key) (entries m).
Proof.
  intros HInv.
  destruct (erase_spec hasher_ max_size m key HInv)
    as (m' & E & HInv' & Hn & Hc & _ & _ & _ & Hnoop).
  exists m'. split; [done |]. split; [done |]. split; [done |]. split; [done |].
  assert (Hobj : objects_ m' = filter (λ x, x.2.1 ≠ key) (objects_ m)).
  { pose proof HInv as [Hstore Hcap Hok Hnodes].
    pose proof (Inv_pos hasher_ max_size m HInv) as Hpos.
    pose proof (st_ids _ _ Hstore) as Hnd.
    revert E. unfold erase.
    destruct (FindObject_spec hasher_ m key Hpos Hok Hnodes Hstore)
      as (r & -> & [[-> Habs] | (Hr & Hoccr & id & v & Hit & Hin)]); cbn [bind].
    { rewrite Z.eqb_refl. intros [= <-]. symmetry. apply filter_all.
      intros [i [k w]] Hx Heq. simpl in Heq. subst k.
      apply Habs. apply elem_of_keys. by exists i, w. }
    destruct (Z.eqb_spec r (vsize (buckets_ m))) as [? | _]; [lia |].
    rewrite read_in_range by done. cbn [bind]. fold_views. rewrite Hit.
    cbn [list_erase]. rewrite (node_lookup_elem_of _ _ _ Hnd Hin). cbn [bind].
    destruct (EraseObject_views _ _ r Hok Hr Hoccr) as (bs' & -> & V). cbn [bind].
    intros [= <-]. cbn [objects_]. rewrite node_remove_filter by done.
    apply filter_ext_in. intros [i [k w]] Hx. simpl. split.
    - intros Hne Heq. subst k. apply Hne.
      by destruct (store_ok_key_unique _ _ i id key w v Hstore Hx Hin).
    - intros Hne Heq. subst i. apply Hne.
      pose proof (node_lookup_elem_of _ _ _ Hnd Hx) as E1.
      pose proof (node_lookup_elem_of _ _ _ Hnd Hin) as E2. congruence. }
  split; [done |]. unfold entries. rewrite Hobj. by rewrite filter_fmap.
Qed.

End effects.

(** * Stores through handles, counting, copies *)

Section more.

Context {KeyType ValueType : Type} `{EqDecision KeyType}.
Variable hasher_ : KeyType → Z.
Variable ValueType_default : ValueType.
Variable max_size : Z.
Hypothesis max_size_ok :
  min_neighbourhood_size_ ≤ max_size ∧ max_size * size_modifier_ < size_modulus.

Local Abbreviation node := (nat * (KeyType * ValueType))%type.
Local Abbreviation HM := (@HashMap KeyType ValueType).
Local Abbreviation OT := (KeyType * ValueType)%type.
Implicit Types (m : HM) (l placed : list node) (es values : list OT) (bs : list Bucket).

(** ** [node_store] *)

Lemma node_store_fst l id v : (node_store l id v).*1 = l.*1.
Proof.
  induction l as [|[n o] l IH]; [done |]. cbn [node_store].
  destruct (Nat.eqb n id); [done |]. simpl. f_equal. exact IH.
Qed.

Lemma node_store_keys l id v : keys (node_store l id v) = keys l.
Proof.
  unfold keys. induction l as [|[n o] l IH]; [done |]. cbn [node_store].
  destruct (Nat.eqb n id); [done |]. simpl. f_equal. exact IH.
Qed.

Lemma node_store_length l id v : length (node_store l id v) = length l.
Proof.
  induction l as [|[n o] l IH]; [done |]. cbn [node_store].
  destruct (Nat.eqb n id); [done |]. simpl. f_equal. exact IH.
Qed.

Lemma node_store_lookup l id v i :
  node_lookup (node_store l id v) i =
  if Nat.eqb i id then (λ o, (o.1, v)) <$> node_lookup l id else node_lookup l i.
Proof.
  induction l as [|[n o] l IH]; cbn [node_store node_lookup].
  { by destruct (Nat.eqb i id). }
  destruct (Nat.eqb_spec n id) as [-> | Hne]; cbn [node_lookup].
  - destruct (Nat.eqb_spec id i) as [E | Hi].
    + subst i. by rewrite Nat.eqb_refl.
    + destruct (Nat.eqb_spec i id) as [E | _]; [by subst | done].
  - destruct (Nat.eqb_spec n i) as [E | Hi].
    + subst i. by destruct (Nat.eqb_spec n id).
    + apply IH.
Qed.

Lemma elem_of_lookup_node l i (o : OT) :
  NoDup (l.*1) → (i, o) ∈ l ↔ node_lookup l i = Some o.
Proof.
  intros Hnd. split; [by apply node_lookup_elem_of | apply node_lookup_Some].
Qed.

(** ** The nodes may change their values *)

Lemma nodes_ok_rekey placed placed' bs :
  (∀ id o, (id, o) ∈ placed → ∃ o', (id, o') ∈ placed' ∧ o'.1 = o.1) →
  (∀ id o, (id, o) ∈ placed' → ∃ o', (id, o') ∈ placed) →
  nodes_ok hasher_ placed bs → nodes_ok hasher_ placed' bs.
Proof.
  intros Hto Hfrom [Hnode Hplaced Hinj]. split; [| | done].
  - intros i Hi Hoi. destruct (Hnode i Hi Hoi) as (id & o & Hit & Hin & Hhome).
    destruct (Hto id o Hin) as (o' & Hin' & Hk).
    exists id, o'. split; [done |]. split; [done |]. by rewrite Hk.
  - intros id o Hin. destruct (Hfrom id o Hin) as (o' & Hin'). by apply (Hplaced id o').
Qed.

Lemma assign_effect m id key w v :
  Inv hasher_ max_size m → deref (objects_ m) (Node id) = Ok (key, w) →
  ∃ m', assign m (Node id) v = Ok m' ∧ Inv hasher_ max_size m' ∧
    buckets_ m' = buckets_ m ∧ neighbourhood_size_ m' = neighbourhood_size_ m ∧
    size m' = size m ∧ keys (objects_ m') = keys (objects_ m) ∧
    ∀ i, node_lookup (objects_ m') i =
         if Nat.eqb i id then Some (key, v) else node_lookup (objects_ m) i.
Proof.
  intros HInv Hderef. pose proof HInv as [[Hids Hkeys Hfresh] Hcap Hok Hnodes].
  apply deref_Ok in Hderef. unfold assign. rewrite Hderef.
  eexists. split; [done |].
  assert (Hlook : ∀ i, node_lookup (node_store (objects_ m) id v) i =
            if Nat.eqb i id then Some (key, v) else node_lookup (objects_ m) i).
  { intros i. rewrite node_store_lookup, Hderef. done. }
  assert (Hids' : NoDup ((node_store (objects_ m) id v).*1))
    by (by rewrite node_store_fst).
  split; [| cbn [buckets_ neighbourhood_size_ objects_]].
  - split; cbn [objects_ next_node buckets_ neighbourhood_size_].
    + split; [done | by rewrite node_store_keys |].
      intros i o Hin. apply elem_of_lookup_node in Hin; [| done]. rewrite Hlook in Hin.
      destruct (Nat.eqb_spec i id) as [-> | _].
      * apply (Hfresh id (key, w)). by apply node_lookup_Some.
      * apply (Hfresh i o). by apply node_lookup_Some.
    + destruct Hcap as [? ? ?]. by split.
    + done.
    + apply (nodes_ok_rekey (objects_ m)); [| | done].
      * intros i o Hin. apply elem_of_lookup_node in Hin; [| done].
        destruct (Nat.eqb_spec i id) as [-> | Hne].
        -- exists (key, v). split; [| rewrite Hderef in Hin; by injection Hin as <-].
           apply elem_of_lookup_node; [done |]. by rewrite Hlook, Nat.eqb_refl.
        -- exists o. split; [| done]. apply elem_of_lookup_node; [done |].
           rewrite Hlook. by destruct (Nat.eqb_spec i id).
      * intros i o Hin. apply elem_of_lookup_node in Hin; [| done]. rewrite Hlook in Hin.
        destruct (Nat.eqb_spec i id) as [-> | _].
        -- exists (key, w). by apply node_lookup_Some.
        -- exists o. by apply node_lookup_Some.
  - split; [done |]. split; [done |]. split.
    { unfold size. cbn [objects_]. by rewrite node_store_length. }
    split; [apply node_store_keys | done].
Qed.

Lemma assign_Inv m it v m' :
  Inv hasher_ max_size m → assign m it v = Ok m' → Inv hasher_ max_size m'.
Proof.
  intros HInv Has. destruct it as [| id |]; try done.
  destruct (node_lookup (objects_ m) id) as [[key w] |] eqn:E.
  - destruct (assign_effect m id key w v HInv) as (m2 & E2 & HInv2 & _).
    { by apply deref_Ok. }
    congruence.
  - unfold assign in Has. by rewrite E in Has.
Qed.

(** ** Entries and occupied buckets *)

Lemma elem_of_occupied bs i :
  i ∈ occupied bs ↔ 0 ≤ i < vsize bs ∧ ob_at bs i ≠ EMPTY_BUCKET.
Proof.
  unfold occupied. rewrite list_elem_of_filter, elem_of_seqZ.
  split; intros []; split; done || lia.
Qed.

Lemma NoDup_occupied bs : NoDup (occupied bs).
Proof. apply NoDup_filter, NoDup_seqZ. Qed.

Lemma occupied_nodes l bs :
  NoDup (l.*1) → nodes_ok hasher_ l bs →
  it_at bs <$> occupied bs ≡ₚ Node <$> l.*1.
Proof.
  intros Hnd [Hnode Hplaced Hinj]. apply NoDup_Permutation.
  - apply NoDup_fmap_2_strong; [| apply NoDup_occupied].
    intros i j [Hi Hoi]%elem_of_occupied [Hj Hoj]%elem_of_occupied. by apply Hinj.
  - apply NoDup_fmap_2_strong; [| done]. by intros x y _ _ [=].
  - intros x. rewrite !list_elem_of_fmap. split.
    + intros (i & -> & [Hi Hoi]%elem_of_occupied).
      destruct (Hnode i Hi Hoi) as (id & o & Hit & Hin & _).
      exists id. split; [done |]. apply list_elem_of_fmap. by exists (id, o).
    + intros (id & -> & Hin). apply list_elem_of_fmap in Hin as ([id' o] & Heq & Hin).
      simpl in Heq. subst id'. destruct (Hplaced id o Hin) as (i & Hi & Hoi & Hit).
      exists i. split; [done |]. by apply elem_of_occupied.
Qed.

Lemma size_occupied m :
  Inv hasher_ max_size m → size m = Z.of_nat (length (occupied (buckets_ m))).
Proof.
  intros [Hstore _ _ Hnodes]. unfold size. f_equal.
  pose proof (occupied_nodes _ _ (st_ids _ _ Hstore) Hnodes) as Hperm.
  apply Permutation_length in Hperm. by rewrite !length_fmap in Hperm.
Qed.

Lemma occupied_bound bs : Z.of_nat (length (occupied bs)) ≤ vsize bs.
Proof.
  unfold occupied. pose proof (length_filter (λ i, ob_at bs i ≠ EMPTY_BUCKET)
                                 (seqZ 0 (vsize bs))) as Hle.
  rewrite length_seqZ in Hle. unfold vsize in *. lia.
Qed.

(** ** The length of a chain *)

Lemma occupants_window bs nbh h i :
  table_ok bs nbh → 0 ≤ h < vsize bs → i ∈ occupants bs h →
  0 ≤ i < vsize bs ∧ h ≤ i < h + nbh.
Proof.
  intros Hok Hh [Hi Hhome]%elem_of_occupants.
  pose proof (tb_size _ _ Hok) as Hsize.
  destruct (tb_home _ _ Hok i Hi) as [Hlo Hhi]; [rewrite Hhome; small |].
  rewrite Hhome in *. lia.
Qed.

Lemma occupants_length bs nbh h :
  table_ok bs nbh → 0 ≤ h < vsize bs → 0 ≤ nbh →
  Z.of_nat (length (occupants bs h)) ≤ nbh.
Proof.
  intros Hok Hh Hn.
  assert (Hsub : occupants bs h ⊆+ seqZ h nbh).
  { apply NoDup_submseteq; [apply NoDup_filter, NoDup_seqZ |].
    intros i Hi. apply elem_of_seqZ.
    by destruct (occupants_window bs nbh h i Hok Hh Hi). }
  apply submseteq_length in Hsub. rewrite length_seqZ in Hsub. lia.
Qed.

(** ** The copy constructor *)

Lemma copy_effect other :
  Inv hasher_ max_size other →
  HashMap_copy hasher_ max_size other = Throw bad_alloc ∨
  ∃ m, HashMap_copy hasher_ max_size other = Ok m ∧ Inv hasher_ max_size m ∧
    entries m = reverse (entries other) ∧
    capacity other ≤ capacity m ∧
    neighbourhood_size_ other ≤ neighbourhood_size_ m ∧
    (4 ≤ capacity other → 4 ≤ neighbourhood_size_ other → grown other m).
Proof.
  intros HInv. pose proof HInv as [Hstore [Hpos Hle Hmax] Hok _].
  pose proof (tb_size _ _ Hok) as Hsize. unfold capacity in *.
  set (c := vsize (buckets_ other)) in *. set (n := neighbourhood_size_ other) in *.
  assert (Hfirst : ∃ m1, Reallocate hasher_ max_size (@HashMap_new KeyType ValueType) c n
                         = Ok (m1, negb ((c <=? 4) && (n <=? 4))) ∧
            Inv hasher_ max_size m1 ∧ objects_ m1 = [] ∧
            c ≤ vsize (buckets_ m1) ∧ n ≤ neighbourhood_size_ m1 ∧
            (4 ≤ c → 4 ≤ n →
             vsize (buckets_ m1) = c ∧ neighbourhood_size_ m1 = n)).
  { unfold Reallocate. cbn [HashMap_new buckets_ neighbourhood_size_ objects_ next_node].
    rewrite vsize_initial. change min_neighbourhood_size_ with 4.
    destruct ((c <=? 4) && (n <=? 4)) eqn:E.
    - apply andb_true_iff in E as [?%Z.leb_le ?%Z.leb_le].
      exists HashMap_new. split; [done |]. split; [by apply Inv_new |].
      split; [done |]. cbn [HashMap_new buckets_ neighbourhood_size_].
      rewrite vsize_initial. change min_neighbourhood_size_ with 4. lia.
    - destruct (Z.ltb_spec max_size c) as [? | _]; [lia |]. cbn [reinsert].
      eexists. split; [done |]. cbn [buckets_ neighbourhood_size_ objects_].
      rewrite vsize_replicate by lia. split; [| split; [done | lia]].
      split; cbn [buckets_ neighbourhood_size_ objects_ next_node].
      + split; [apply NoDup_nil_2 | apply NoDup_nil_2 |]. intros id o Hin. by inversion Hin.
      + split; unfold capacity; cbn [buckets_ neighbourhood_size_];
          rewrite ?vsize_replicate by lia; lia.
      + apply table_ok_empty. lia.
      + apply nodes_ok_empty. lia. }
  destruct Hfirst as (m1 & E1 & HInv1 & Hobj1 & Hc1 & Hn1 & Hsame).
  unfold HashMap_copy. fold c n. rewrite E1. cbn [bind].
  change ((objects_ other).*2) with (entries other).
  destruct (insert_all_total hasher_ max_size max_size_ok m1 (entries other) HInv1)
    as [-> | (m' & E)]; [by left | right].
  exists m'. split; [done |].
  destruct (insert_all_effect hasher_ max_size max_size_ok m1 (entries other) m' HInv1 E)
    as (HInv' & Hg & Hes).
  split; [done |]. split.
  - rewrite Hes. unfold entries at 1. rewrite Hobj1. cbn [fmap list_fmap].
    rewrite insert_entries_fresh; [by rewrite app_nil_r | |].
    + rewrite <- keys_entries. apply (st_keys _ _ Hstore).
    + intros k _ Hin. by inversion Hin.
  - destruct (grown_le m1 m') as [? ?]; unfold capacity in *; try done; try lia.
    split; [lia |]. split; [lia |]. intros H4c H4n.
    destruct (Hsame H4c H4n) as [Ec En]. apply (grown_trans other m1 m'); [| done].
    apply (grown_step other m1 0 0); unfold capacity; fold c n; simpl; lia.
Qed.

(** ** The invariant holds in every usable container *)

Lemma usable_Inv m :
  usable hasher_ ValueType_default max_size m → Inv hasher_ max_size m.
Proof.
  induction 1 as [| m value m' it _ IH Hins | m key m' _ IH Her
                  | m key m' it _ IH Hsub | m _ _
                  | m it v m' _ IH Has | other m _ IH Hcopy].
  - by apply Inv_new.
  - destruct (insert_spec hasher_ max_size max_size_ok m value IH)
      as [E | (m2 & id & v & E & HInv & _)]; congruence.
  - destruct (erase_spec hasher_ max_size m key IH) as (m2 & E & HInv & _). congruence.
  - unfold subscript in Hsub.
    destruct (insert_spec hasher_ max_size max_size_ok m (key, ValueType_default) IH)
      as [E | (m2 & id & v & E & HInv & _)]; congruence.
  - by apply Inv_clear.
  - by eapply assign_Inv.
  - destruct (copy_effect other IH) as [E | (m2 & E & HInv & _)]; congruence.
Qed.

Lemma reachable_usable m :
  reachable hasher_ ValueType_default max_size m →
  usable hasher_ ValueType_default max_size m.
Proof.
  induction 1 as [| m value m' it _ IH Hins | m key m' _ IH Her
                  | m key m' it _ IH Hsub | m _ IH].
  - apply usable_new.
  - by eapply usable_insert.
  - by eapply usable_erase.
  - by eapply usable_subscript.
  - by apply usable_clear.
Qed.

End more.

(** * Further facts used by the properties *)

Section helpers.

Context {KeyType ValueType : Type} `{EqDecision KeyType}.
Variable hasher_ : KeyType → Z.
Variable ValueType_default : ValueType.
Variable max_size : Z.
Hypothesis max_size_ok :
  min_neighbourhood_size_ ≤ max_size ∧ max_size * size_modifier_ < size_modulus.

Local Abbreviation node := (nat * (KeyType * ValueType))%type.
Local Abbreviation HM := (@HashMap KeyType ValueType).
Local Abbreviation OT := (KeyType * ValueType)%type.
Local Abbreviation usable_map := (usable hasher_ ValueType_default max_size).
Implicit Types (m : HM) (l placed : list node) (es values : list OT) (bs : list Bucket).

Lemma first_value_same_elements key es es' :
  NoDup (es.*1) → NoDup (es'.*1) → (∀ x, x ∈ es ↔ x ∈ es') →
  first_value key es = first_value key es'.
Proof.
  intros Hnd Hnd' Hsame. destruct (first_value key es) as [v |] eqn:E.
  - symmetry. apply first_value_NoDup; [done |]. apply Hsame. by apply first_value_Some.
  - symmetry. apply first_value_None. apply first_value_None in E. intros Hin. apply E.
    apply list_elem_of_fmap in Hin as ([k v] & -> & Hin). apply list_elem_of_fmap.
    exists (k, v). split; [done |]. by apply Hsame.
Qed.

Lemma length_filter_key key es :
  NoDup (es.*1) → key ∈ es.*1 →
  S (length (filter (λ o : OT, o.1 ≠ key) es)) = length es.
Proof.
  induction es as [|[k v] es IH]; intros Hnd Hin; [by inversion Hin |].
  simpl in Hnd. apply NoDup_cons in Hnd as [Hk Hnd].
  destruct (decide (k = key)) as [-> | Hne].
  - rewrite filter_cons_False by (simpl; intros Hne; by apply Hne).
    rewrite filter_all; [done |]. intros [k' v'] Hx Heq. simpl in Heq. subst k'.
    apply Hk. apply list_elem_of_fmap. by exists (key, v').
  - rewrite filter_cons_True by done. simpl. f_equal. apply IH; [done |].
    simpl in Hin. apply elem_of_cons in Hin as [? | ?]; [congruence | done].
Qed.

Lemma insert_all_usable m values m' :
  usable_map m → insert_all hasher_ max_size m values = Ok m' → usable_map m'.
Proof.
  revert m. induction values as [|value values IH]; intros m Hm; simpl.
  { by intros [= <-]. }
  destruct (insert hasher_ max_size m value) as [[m1 it] | | |] eqn:E; simpl; try done.
  apply IH. by eapply usable_insert.
Qed.

(** The handle of a node that stays in the list keeps its entry. *)
Lemma deref_stable l l' id (o : OT) :
  NoDup (l'.*1) → (id, o) ∈ l' →
  deref l (Node id) = Ok o → deref l' (Node id) = Ok o.
Proof.
  intros Hnd Hin _. apply deref_Ok. by apply node_lookup_elem_of.
Qed.

Lemma key_present m key :
  Inv hasher_ max_size m →
  (find hasher_ m key = Ok End ↔ key ∉ keys (objects_ m)) ∧
  (at_ hasher_ m key = Throw out_of_range ↔ key ∉ keys (objects_ m)).
Proof.
  intros HInv.
  destruct (find_deref hasher_ max_size m key HInv)
    as [(-> & -> & Habs) | (id & v & -> & _ & -> & Hin)].
  - done.
  - split; (split; [done |]); intros Habs; exfalso; apply Habs; apply elem_of_keys;
      by exists id, v.
Qed.

(** A store through the handle of the entry of [key]. *)
Lemma assign_at m id key w v :
  Inv hasher_ max_size m → (id, (key, w)) ∈ objects_ m →
  ∃ m', assign m (Node id) v = Ok m' ∧ Inv hasher_ max_size m' ∧
    at_ hasher_ m' key = Ok v ∧
    (∀ key', find hasher_ m' key' = find hasher_ m key') ∧
    (∀ key', key' ≠ key → at_ hasher_ m' key' = at_ hasher_ m key') ∧
    size m' = size m ∧ buckets_ m' = buckets_ m ∧
    neighbourhood_size_ m' = neighbourhood_size_ m.
Proof.
  intros HInv Hin. pose proof (inv_store _ _ _ HInv) as Hstore.
  pose proof (st_ids _ _ Hstore) as Hnd.
  destruct (assign_effect hasher_ max_size m id key w v HInv)
    as (m' & E & HInv' & Hbs & Hn & Hsz & Hkeys & Hlook).
  { apply deref_Ok. by apply node_lookup_elem_of. }
  pose proof (inv_store _ _ _ HInv') as Hstore'.
  pose proof (st_ids _ _ Hstore') as Hnd'.
  assert (Hin' : (id, (key, v)) ∈ objects_ m').
  { apply elem_of_lookup_node; [done |]. by rewrite Hlook, Nat.eqb_refl. }
  assert (Hother : ∀ key' i w', key' ≠ key →
            (i, (key', w')) ∈ objects_ m' ↔ (i, (key', w')) ∈ objects_ m).
  { intros key' i w' Hne. rewrite !elem_of_lookup_node by done. rewrite Hlook.
    destruct (Nat.eqb_spec i id) as [-> | _]; [| done].
    rewrite (node_lookup_elem_of _ _ _ Hnd Hin). split; intros [=]; congruence. }
  exists m'. split; [done |]. split; [done |]. split; [| split; [| split]].
  - destruct (find_deref hasher_ max_size m' key HInv')
      as [(_ & _ & Habs) | (i & w' & _ & _ & -> & Hi)].
    + exfalso. apply Habs. apply elem_of_keys. by exists id, v.
    + by destruct (store_ok_key_unique _ _ i id key w' v Hstore' Hi Hin') as [_ ->].
  - intros key'. destruct (decide (key' = key)) as [-> | Hne].
    + destruct (find_deref hasher_ max_size m' key HInv')
        as [(_ & _ & Habs) | (i & w' & -> & _ & _ & Hi)].
      { exfalso. apply Habs. apply elem_of_keys. by exists id, v. }
      destruct (store_ok_key_unique _ _ i id key w' v Hstore' Hi Hin') as [-> _].
      destruct (find_deref hasher_ max_size m key HInv)
        as [(_ & _ & Habs) | (i & w0 & -> & _ & _ & Hi0)].
      { exfalso. apply Habs. apply elem_of_keys. by exists id, w. }
      by destruct (store_ok_key_unique _ _ i id key w0 w Hstore Hi0 Hin) as [-> _].
    + apply (find_agree hasher_ max_size m m' key' HInv HInv').
      intros i w'. by apply Hother.
  - intros key' Hne. apply (find_agree hasher_ max_size m m' key' HInv HInv').
    intros i w'. by apply Hother.
  - done.
Qed.

(** [HandleCollision] ends, with every entry placed. *)
Lemma HandleCollision_effect m :
  store_ok (objects_ m) (next_node m) → capacity_ok max_size m →
  HandleCollision hasher_ max_size collision_fuel m = Throw bad_alloc ∨
  ∃ m', HandleCollision hasher_ max_size collision_fuel m = Ok m' ∧
    objects_ m' = objects_ m ∧ Inv hasher_ max_size m' ∧ grown m m'.
Proof.
  intros Hstore Hcap.
  destruct (HandleCollision_spec hasher_ max_size max_size_ok m Hstore Hcap)
    as [-> | (m' & E & Hobj & _ & HInv)]; [by left | right].
  exists m'. split; [done |]. split; [done |]. split; [done |].
  by apply (HandleCollision_grown hasher_ max_size max_size_ok collision_fuel).
Qed.

(** The capacity and the neighbourhood size are the initial 4 times powers
    of 3. *)
Lemma usable_grown m : usable_map m → grown HashMap_new m.
Proof.
  induction 1 as [| m value m' it Hm IH Hins | m key m' Hm IH Her
                  | m key m' it Hm IH Hsub | m _ _
                  | m it v m' Hm IH Has | other m Hother IH Hcopy].
  - apply grown_refl.
  - apply (grown_trans _ m); [done |].
    apply (insert_grown hasher_ max_size max_size_ok m value m' it); [| done].
    by apply (usable_Inv hasher_ ValueType_default max_size).
  - destruct (erase_effect hasher_ max_size m key) as (m2 & E & _ & Hn & Hc & _).
    { by apply (usable_Inv hasher_ ValueType_default max_size). }
    rewrite E in Her. injection Her as <-.
    destruct IH as (a & b & Ha & Hb). exists a, b. by rewrite Hc, Hn.
  - apply (grown_trans _ m); [done |].
    apply (insert_grown hasher_ max_size max_size_ok m (key, ValueType_default) m' it);
      [| done].
    by apply (usable_Inv hasher_ ValueType_default max_size).
  - exists 0%nat, 0%nat. split; reflexivity.
  - destruct it as [| id |]; try done. unfold assign in Has.
    destruct (node_lookup (objects_ m) id); [| done]. injection Has as <-.
    destruct IH as (a & b & Ha & Hb). by exists a, b.
  - destruct (copy_effect hasher_ max_size max_size_ok other) as [E | (m2 & E & _ & _ & _ & _ & Hg)].
    { by apply (usable_Inv hasher_ ValueType_default max_size). }
    { congruence. }
    rewrite E in Hcopy. injection Hcopy as <-.
    apply (grown_trans _ other); [done |]. destruct IH as (a & b & Ha & Hb).
    assert (0 < 3 ^ Z.of_nat a) by (apply Z.pow_pos_nonneg; lia).
    assert (0 < 3 ^ Z.of_nat b) by (apply Z.pow_pos_nonneg; lia).
    change (capacity HashMap_new) with 4 in Ha.
    change (neighbourhood_size_ (@HashMap_new KeyType ValueType)) with 4 in Hb.
    apply Hg; lia.
Qed.

(** ** The probe for a free bucket *)

Lemma probe_free_first bs h f :
  0 ≤ h ≤ f → f < vsize bs → ob_at bs f = EMPTY_BUCKET →
  (∀ i, h ≤ i < f → ob_at bs i ≠ EMPTY_BUCKET) →
  probe_free (scan_fuel bs) bs h = Ok f.
Proof.
  intros Hh Hf Hemp Hoccs.
  destruct (probe_free_spec (scan_fuel bs) bs h) as (r & -> & Hr & Hskip & Hexit);
    [lia | unfold scan_fuel, vsize in *; lia |].
  f_equal. destruct (Z.lt_trichotomy r f) as [Hlt | [-> | Hgt]]; [| done |].
  - destruct Hexit as [-> | Hempr]; [lia |]. exfalso. apply (Hoccs r); [lia | done].
  - exfalso. apply (Hskip f); [lia | done].
Qed.

Lemma probe_free_none bs h :
  0 ≤ h ≤ vsize bs → (∀ i, h ≤ i < vsize bs → ob_at bs i ≠ EMPTY_BUCKET) →
  probe_free (scan_fuel bs) bs h = Ok (vsize bs).
Proof.
  intros Hh Hfull.
  destruct (probe_free_spec (scan_fuel bs) bs h) as (r & -> & Hr & _ & Hexit);
    [lia | unfold scan_fuel, vsize in *; lia |].
  f_equal. destruct Hexit as [-> | Hemp]; [done |].
  destruct (decide (r = vsize bs)) as [-> | Hne]; [done |].
  exfalso. apply (Hfull r); [lia | done].
Qed.

Lemma InsertObject_blocked m id (o : OT) :
  0 < capacity m → deref (objects_ m) (Node id) = Ok o →
  (∀ i, home_index hasher_ (buckets_ m) o.1 ≤ i < capacity m →
        ob_at (buckets_ m) i ≠ EMPTY_BUCKET) →
  InsertObject hasher_ m (Node id) = Ok (m, capacity m).
Proof.
  intros Hpos Hderef Hfull. unfold capacity in *. unfold InsertObject.
  rewrite Hderef. cbn [bind]. rewrite GetStartBucket_spec by done. cbn [bind].
  pose proof (home_index_range hasher_ (buckets_ m) o.1 Hpos) as Hstart.
  rewrite probe_free_none by (done || lia). cbn [bind]. by rewrite Z.eqb_refl.
Qed.

Lemma InsertObject_fast m id (o : OT) f :
  table_ok (buckets_ m) (neighbourhood_size_ m) →
  deref (objects_ m) (Node id) = Ok o →
  home_index hasher_ (buckets_ m) o.1 ≤ f < capacity m →
  f < home_index hasher_ (buckets_ m) o.1 + neighbourhood_size_ m →
  ob_at (buckets_ m) f = EMPTY_BUCKET →
  (∀ i, home_index hasher_ (buckets_ m) o.1 ≤ i < f →
        ob_at (buckets_ m) i ≠ EMPTY_BUCKET) →
  ∃ bs', InsertObject hasher_ m (Node id) = Ok (with_buckets m bs', f) ∧
    table_ok bs' (neighbourhood_size_ m) ∧ vsize bs' = vsize (buckets_ m) ∧
    (∀ j, ob_at bs' j =
          upd (ob_at (buckets_ m)) f (home_index hasher_ (buckets_ m) o.1) j) ∧
    (∀ j, it_at bs' j = upd (it_at (buckets_ m)) f (Node id) j).
Proof.
  intros Hok Hderef Hf Hnbh Hemp Hoccs. unfold capacity in *.
  pose proof (tb_size _ _ Hok) as Hsize.
  assert (Hpos : 0 < vsize (buckets_ m)).
  { destruct (Z.lt_ge_cases 0 (vsize (buckets_ m))) as [? | Hle]; [done |].
    exfalso. assert (E0 : vsize (buckets_ m) = 0) by (unfold vsize in *; lia).
    unfold home_index in Hf. rewrite E0, Z.mod_0_r in Hf.
    pose proof (to_size_range (hasher_ o.1)). lia. }
  pose proof (home_index_range hasher_ (buckets_ m) o.1 Hpos) as Hstart.
  unfold InsertObject. rewrite Hderef. cbn [bind].
  rewrite GetStartBucket_spec by done. cbn [bind].
  rewrite (probe_free_first _ _ f) by (done || lia). cbn [bind].
  destruct (Z.eqb_spec f (vsize (buckets_ m))) as [? | _]; [lia |].
  unfold scan_fuel. cbn [hop_loop].
  rewrite to_size_small by small.
  destruct (Z.leb_spec (neighbourhood_size_ m)
              (f - home_index hasher_ (buckets_ m) o.1)) as [? | _]; [lia |].
  cbn [bind].
  destruct (install_spec (buckets_ m) (neighbourhood_size_ m) (Node id)
              (home_index hasher_ (buckets_ m) o.1) f)
    as (bs' & -> & Hok' & Hsz' & Hob' & Hit'); try done; try lia.
  cbn [bind]. by exists bs'.
Qed.

Lemma occupied_all bs :
  Z.of_nat (length (occupied bs)) = vsize bs →
  ∀ i, 0 ≤ i < vsize bs → ob_at bs i ≠ EMPTY_BUCKET.
Proof.
  intros Hlen i Hi. destruct (decide (ob_at bs i ≠ EMPTY_BUCKET)) as [? | Hn]; [done |].
  exfalso.
  assert (Hin : i ∈ seqZ 0 (vsize bs)) by (apply elem_of_seqZ; lia).
  pose proof (length_filter_lt (λ i, ob_at bs i ≠ EMPTY_BUCKET) _ i Hin Hn) as Hlt.
  rewrite length_seqZ in Hlt. unfold occupied in Hlen. unfold vsize in *. lia.
Qed.

(** A rehash of a table that holds as many entries as buckets starts by
    tripling the capacity. *)
Lemma HandleCollision_full fuel m m' :
  store_ok (objects_ m) (next_node m) → capacity_ok max_size m →
  capacity m ≤ size m →
  HandleCollision hasher_ max_size fuel m = Ok m' → 3 * capacity m ≤ capacity m'.
Proof.
  intros Hstore Hcap Hfull. pose proof Hcap as [Hpos Hle Hmax]. unfold capacity in *.
  destruct max_size_ok as [_ Hbound]. unfold HandleCollision.
  destruct (Z.leb_spec (vsize (buckets_ m)) (size m)) as [_ | ?]; [| lia].
  unfold size_modifier_. rewrite to_size_small by small.
  destruct (Reallocate_spec hasher_ max_size max_size_ok m
              (vsize (buckets_ m) * 3) (neighbourhood_size_ m))
    as [-> | (m1 & ok & -> & Hobj & Hnext & Hres)];
    [by apply st_ids in Hstore | lia | done |].
  cbn [bind]. intros Hloop.
  destruct Hres as [(_ & _ & ? & _) | (Hsz & Hnbh & Hcmax & _)]; [lia |].
  assert (Hcap1 : capacity_ok max_size m1) by (split; unfold capacity; lia).
  pose proof (retry_loop_grown hasher_ max_size max_size_ok fuel m1 ok m'
                ltac:(by rewrite Hobj, Hnext) Hcap1 Hloop) as Hg.
  destruct (grown_le m1 m') as [Hc _]; unfold capacity in *; try done; lia.
Qed.

End helpers.

(** * The window of the displacement-candidate search *)

Lemma scan_fit_lower fuel bs nbh free_bucket fit r :
  0 ≤ fit ≤ free_bucket → free_bucket < 9223372036854775808 →
  scan_fit fuel bs nbh free_bucket fit = Ok r →
  free_bucket - (nbh - 1) ≤ r ∨ r = fit.
Proof.
  revert fit. induction fuel as [|fuel IH]; intros fit Hfit Hsmall; [done |].
  simpl.
  rewrite (to_size_small (free_bucket - fit)) by small.
  rewrite (to_size_small (free_bucket - fit + 1)) by small.
  destruct (Z.eqb_spec fit 0) as [-> | Hne]; simpl.
  { intros [= <-]. by right. }
  destruct (Z.ltb_spec (free_bucket - fit + 1) nbh) as [Hwin | Hwin]; simpl.
  2: { intros [= <-]. by right. }
  destruct (read bs (fit - 1)) as [b | | |]; cbn [bind]; try done.
  destruct (_ <? nbh).
  { intros [= <-]. by right. }
  intros Hr. destruct (IH (fit - 1) ltac:(lia) Hsmall Hr) as [? | ->]; left; lia.
Qed.

Lemma scan_fit_window_ext fuel bs bs' nbh free_bucket fit :
  (∀ i, in_window nbh free_bucket i → getb bs' i = getb bs i) →
  0 ≤ fit ≤ free_bucket → free_bucket < 9223372036854775808 →
  scan_fit fuel bs' nbh free_bucket fit = scan_fit fuel bs nbh free_bucket fit.
Proof.
  intros Hag. revert fit. induction fuel as [|fuel IH]; intros fit Hfit Hsmall; [done |].
  simpl.
  rewrite (to_size_small (free_bucket - fit)) by small.
  rewrite (to_size_small (free_bucket - fit + 1)) by small.
  destruct (Z.eqb_spec fit 0) as [-> | Hne]; simpl; [done |].
  destruct (Z.ltb_spec (free_bucket - fit + 1) nbh) as [Hwin | Hwin]; simpl; [| done].
  unfold read. rewrite Hag by (unfold in_window; lia).
  destruct (getb bs (fit - 1)) as [b|]; simpl; [| done].
  destruct (_ <? nbh); [done |]. apply IH; [lia | done].
Qed.

(** In the state in which the hop loop runs the search, its test on a
    bucket of the window tells whether the occupant can move. *)
Lemma passes_can_move bs nbh start_bucket free_bucket s :
  table_ok bs nbh → 0 ≤ start_bucket ≤ free_bucket → free_bucket < vsize bs →
  (∀ i, start_bucket ≤ i < free_bucket → ob_at bs i ≠ EMPTY_BUCKET) →
  start_bucket ≤ s < free_bucket →
  passes bs nbh free_bucket s ↔ can_move bs nbh free_bucket s.
Proof.
  intros Hok Hs Hf Hoccs Hin. pose proof (tb_size _ _ Hok) as Hsize.
  pose proof (Hoccs s Hin) as Hocc.
  destruct (tb_home _ _ Hok s ltac:(lia) Hocc) as [Hhome _].
  unfold passes, can_move. rewrite to_diff_small by lia. rewrite Z.add_0_l.
  rewrite to_size_small by small. tauto.
Qed.

(** * The properties of the specification *)

Section properties.

Context {KeyType ValueType : Type} `{EqDecision KeyType}.
Variable hasher_ : KeyType → Z.
Variable ValueType_default : ValueType.
Variable max_size : Z.
Hypothesis max_size_ok :
  min_neighbourhood_size_ ≤ max_size ∧ max_size * size_modifier_ < size_modulus.

Local Abbreviation HM := (@HashMap KeyType ValueType).
Local Abbreviation reachable_map := (reachable hasher_ ValueType_default max_size).
Implicit Types (m : HM).

(** C1 — Neighbourhood invariant.  In every container that the public
    operations (insert, erase, clear, lookup-or-default) produce from an
    empty one, every occupied bucket, at index [i], holds a live entry, the
    bucket's home index is the hash of the entry's key modulo the capacity,
    and [0 ≤ i − home_index < H] for the current neighbourhood size [H]. *)
Theorem neighbourhood_invariant m :
  reachable_map m →
  ∀ i b, getb (buckets_ m) i = Some b → object_bucket_ b ≠ EMPTY_BUCKET →
    ∃ o, deref (objects_ m) (object_it_ b) = Ok o ∧
         object_bucket_ b = to_size (hasher_ o.1) mod capacity m ∧
         0 ≤ i - object_bucket_ b < neighbourhood_size_ m.
Proof.
  intros Hreach i b Hb Hocc.
  destruct (reachable_Inv hasher_ ValueType_default max_size max_size_ok m Hreach)
    as [Hstore _ Hok Hnodes].
  pose proof (getb_Some_range _ _ _ Hb) as Hi.
  apply getb_Some_B in Hb. subst b. fold_views.
  change (object_bucket_ (B (buckets_ m) i)) with (ob_at (buckets_ m) i) in *.
  destruct (nodes_ok_deref hasher_ (objects_ m) (objects_ m) (buckets_ m) i
              Hnodes (st_ids _ _ Hstore) ltac:(done) Hi Hocc)
    as (id & o & _ & _ & Hderef & Hhome).
  destruct (tb_home _ _ Hok i Hi Hocc) as [Hlo Hhi].
  exists o. split; [done |]. split; [done |]. lia.
Qed.

(** C5 — Chain invariant.  In every such container and for every bucket
    index [h], following [first_delta] of bucket [h] and then [next_delta]
    repeatedly visits exactly the occupied buckets whose home index is [h],
    each once, by strictly increasing bucket index; when there is such a
    bucket, [first_delta] of bucket [h] is not the sentinel. *)
Theorem chain_invariant m :
  reachable_map m →
  ∀ h, 0 ≤ h < capacity m →
    chain (buckets_ m) h = occupants (buckets_ m) h ∧
    StronglySorted Z.lt (chain (buckets_ m) h) ∧
    (∀ i, i ∈ chain (buckets_ m) h ↔
          ∃ b, getb (buckets_ m) i = Some b ∧ object_bucket_ b = h) ∧
    (occupants (buckets_ m) h ≠ [] →
     ∃ b, getb (buckets_ m) h = Some b ∧ first_delta_ b ≠ NULL_DELTA).
Proof.
  intros Hreach h Hh.
  destruct (reachable_Inv hasher_ ValueType_default max_size max_size_ok m Hreach)
    as [_ _ Hok _].
  pose proof (tb_size _ _ Hok) as Hsize. unfold capacity in Hh.
  pose proof (chain_occupants _ _ h Hok Hh) as Hchain.
  split; [done |]. rewrite Hchain. split; [apply occupants_sorted |]. split.
  - intros i. rewrite elem_of_occupants. split.
    + intros [Hi Hhome]. exists (B (buckets_ m) i). split; [by apply getb_in_range | done].
    + intros (b & Hb & Hhome). split; [by eapply getb_Some_range |].
      apply getb_Some_B in Hb. by subst b.
  - intros Hne. exists (B (buckets_ m) h). split; [by apply getb_in_range |].
    intros Hnull. apply Hne. rewrite <- Hchain. unfold chain.
    change (fd_at (buckets_ m) h) with (first_delta_ (B (buckets_ m) h)).
    by rewrite Hnull.
Qed.

(** C9 — Capacity invariant.  After construction and after every public
    operation the capacity of the bucket table is positive and at least the
    neighbourhood size. *)
Theorem capacity_invariant m :
  reachable_map m → 0 < capacity m ∧ neighbourhood_size_ m ≤ capacity m.
Proof.
  intros Hreach.
  destruct (reachable_Inv hasher_ ValueType_default max_size max_size_ok m Hreach)
    as [_ [Hpos Hle _] _ _].
  split; lia.
Qed.

(** C6 — [at] throws [std::out_of_range] exactly when the key is absent and
    returns the stored value when it is present; [find], [erase] and
    [insert] never throw [std::out_of_range]. *)
Theorem at_not_found m (key : KeyType) :
  reachable_map m →
  (at_ hasher_ m key = Throw out_of_range ↔ key ∉ keys (objects_ m)) ∧
  (∀ id v, (id, (key, v)) ∈ objects_ m → at_ hasher_ m key = Ok v) ∧
  find hasher_ m key ≠ Throw out_of_range ∧
  erase hasher_ m key ≠ Throw out_of_range ∧
  (∀ v, insert hasher_ max_size m (key, v) ≠ Throw out_of_range).
Proof.
  intros Hreach.
  pose proof (reachable_Inv hasher_ ValueType_default max_size max_size_ok m Hreach)
    as HInv.
  pose proof (inv_store _ _ _ HInv) as Hstore.
  split; [| split; [| split; [| split]]].
  - destruct (at_spec hasher_ max_size m key HInv) as [[Habs ->] | (id & v & Hin & ->)].
    + done.
    + split; [done |]. intros Habs. exfalso. apply Habs. apply elem_of_keys. by exists id, v.
  - intros id v Hin.
    destruct (at_spec hasher_ max_size m key HInv) as [[Habs _] | (id' & v' & Hin' & ->)].
    + exfalso. apply Habs. apply elem_of_keys. by exists id, v.
    + by destruct (store_ok_key_unique _ _ id' id key v' v Hstore Hin' Hin) as [_ ->].
  - destruct (find_spec hasher_ max_size m key HInv) as [[_ ->] | (id & v & _ & ->)]; done.
  - destruct (erase_spec hasher_ max_size m key HInv) as (m' & -> & _). done.
  - intros v.
    destruct (insert_spec hasher_ max_size max_size_ok m (key, v) HInv)
      as [-> | (m' & id & w & -> & _)]; done.
Qed.

(** C7 — After [erase(k)], [find(k)] returns [end()].  When [k] is absent,
    [erase(k)] leaves the container as it is: the size and what [find] and
    [at] return for every other key are unchanged. *)
Theorem erase_semantics m (key : KeyType) :
  reachable_map m →
  ∃ m', erase hasher_ m key = Ok m' ∧ find hasher_ m' key = Ok End ∧
    (key ∉ keys (objects_ m) →
     m' = m ∧ size m' = size m ∧
     ∀ key', key' ≠ key →
       find hasher_ m' key' = find hasher_ m key' ∧
       at_ hasher_ m' key' = at_ hasher_ m key').
Proof.
  intros Hreach.
  pose proof (reachable_Inv hasher_ ValueType_default max_size max_size_ok m Hreach)
    as HInv.
  destruct (erase_spec hasher_ max_size m key HInv)
    as (m' & E & HInv' & _ & _ & _ & Hgone & _ & Hnoop).
  exists m'. split; [done |]. split.
  - destruct (find_spec hasher_ max_size m' key HInv') as [[_ ->] | (id & v & Hin & _)]; [done |].
    exfalso. apply Hgone. apply elem_of_keys. by exists id, v.
  - intros Habs. rewrite (Hnoop Habs). by repeat split.
Qed.

(** C8 — [clear] resets the container: no entry is left, every key is
    absent, and the neighbourhood size and the capacity are the initial 4. *)
Theorem clear_resets m (key : KeyType) :
  size (clear m) = 0 ∧ empty (clear m) = true ∧
  find hasher_ (clear m) key = Ok End ∧
  neighbourhood_size_ (clear m) = 4 ∧ capacity (clear m) = 4 ∧
  neighbourhood_size_ (clear m) = neighbourhood_size_ (@HashMap_new KeyType ValueType) ∧
  capacity (clear m) = capacity (@HashMap_new KeyType ValueType).
Proof.
  split; [done |]. split; [done |]. split; [| by repeat split].
  unfold find, FindObject, clear. cbn [buckets_ objects_].
  assert (Hsz : vsize (replicate (Z.to_nat min_neighbourhood_size_) Bucket_default) = 4)
    by reflexivity.
  rewrite GetStartBucket_spec by (rewrite Hsz; lia). cbn [bind].
  pose proof (home_index_range hasher_
                (replicate (Z.to_nat min_neighbourhood_size_) Bucket_default) key
                ltac:(rewrite Hsz; lia)) as Hh.
  rewrite read_in_range by done. cbn [bind].
  rewrite Hsz in Hh. rewrite B_replicate by exact Hh.
  cbn [first_delta_ Bucket_default]. rewrite Z.eqb_refl. cbn [bind].
  by rewrite Z.eqb_refl.
Qed.

(** C2, as amended — [insert(k, v1)] followed by [insert(k, v2)]: the second
    call returns the handle of the first and leaves the container as the
    first call left it, so the size and the value stored for [k] are those
    after the first call.  That value is [v1] when [k] was absent before the
    first call; otherwise it is the value stored before, and the first call
    has changed nothing either. *)
Theorem second_insert_changes_nothing m (key : KeyType) (v1 v2 : ValueType) m1 it1 :
  reachable_map m →
  insert hasher_ max_size m (key, v1) = Ok (m1, it1) →
  insert hasher_ max_size m1 (key, v2) = Ok (m1, it1) ∧
  ∃ v, at_ hasher_ m1 key = Ok v ∧ deref (objects_ m1) it1 = Ok (key, v) ∧
       (key ∉ keys (objects_ m) → v = v1) ∧
       (at_ hasher_ m key = Throw out_of_range → v = v1) ∧
       (key ∈ keys (objects_ m) → at_ hasher_ m key = Ok v ∧ m1 = m) ∧
       (∀ v0, at_ hasher_ m key = Ok v0 → v = v0 ∧ m1 = m).
Proof.
  intros Hreach Hins.
  pose proof (reachable_Inv hasher_ ValueType_default max_size max_size_ok m Hreach)
    as HInv.
  destruct (insert_spec hasher_ max_size max_size_ok m (key, v1) HInv)
    as [E | (m' & id & v & E & HInv' & Hin & Hcase)]; [congruence |].
  rewrite E in Hins. injection Hins as <- <-. cbn [fst snd] in *.
  pose proof (inv_store _ _ _ HInv') as Hstore'.
  split; [by apply (insert_present hasher_ max_size m' key v v2 id) |].
  assert (Hat : at_ hasher_ m' key = Ok v).
  { destruct (at_spec hasher_ max_size m' key HInv') as [[Habs _] | (id' & v' & Hin' & ->)].
    - exfalso. apply Habs. apply elem_of_keys. by exists id, v.
    - by destruct (store_ok_key_unique _ _ id' id key v' v Hstore' Hin' Hin) as [_ ->]. }
  assert (Hfresh : key ∉ keys (objects_ m) → v = v1).
  { intros Habs. destruct Hcase as [[Hpres _] | (_ & _ & _ & _ & ->)]; done. }
  assert (Hkept : key ∈ keys (objects_ m) → at_ hasher_ m key = Ok v ∧ m' = m).
  { intros Hpres. destruct Hcase as [[_ ->] | (Habs & _)]; done. }
  exists v. split; [done |]. split; [| split; [done | split; [| split; [done |]]]].
  - cbn [deref]. by rewrite (node_lookup_elem_of _ _ _ (st_ids _ _ Hstore') Hin).
  - intros Hthrow. apply Hfresh.
    destruct (at_spec hasher_ max_size m key HInv) as [[Habs _] | (i & w & _ & E')];
      [done | congruence].
  - intros v0 Hv0.
    destruct (at_spec hasher_ max_size m key HInv) as [[_ E'] | (i & w & Hi & _)];
      [congruence |].
    destruct Hkept as [Hv ->]; [apply elem_of_keys; by exists i, w |].
    split; [congruence | done].
Qed.

(** C4 — The growth policy.  A rehash of a container with at most one entry
    more than buckets is the repeated application of the policy of the
    specification: capacity × 3 with [H] unchanged when the entry count
    reaches the capacity; otherwise capacity × 3 and [H] × 3 when [H] × 3
    reaches the capacity; otherwise the same capacity and [H] × 3. *)
Theorem rehash_follows_policy m fuel :
  store_ok (objects_ m) (next_node m) → capacity_ok max_size m →
  size m ≤ capacity m + 1 →
  HandleCollision hasher_ max_size fuel m =
  rehash_by_policy hasher_ max_size
    (if capacity m <=? size m then S fuel else fuel) m.
Proof.
  intros Hstore Hcap Hsize. pose proof Hcap as [Hpos Hle Hmax].
  destruct max_size_ok as [_ Hbound]. unfold capacity in *. unfold HandleCollision.
  destruct (Z.leb_spec (vsize (buckets_ m)) (size m)) as [Hfull | Hroom].
  - cbn [rehash_by_policy]. unfold rehash_policy, capacity.
    destruct (Z.leb_spec (vsize (buckets_ m)) (size m)) as [_ | ?]; [| lia].
    unfold size_modifier_. rewrite to_size_small by small.
    destruct (Reallocate_spec hasher_ max_size max_size_ok m
                (vsize (buckets_ m) * 3) (neighbourhood_size_ m))
      as [-> | (m' & ok & -> & Hobj & Hnext & Hres)];
      [by apply st_ids in Hstore | lia | done |].
    cbn [bind]. destruct ok; [apply retry_loop_done |].
    destruct Hres as [(_ & _ & ? & _) | (Hsz & Hnbh & Hcmax & _)]; [lia |].
    apply (retry_loop_policy hasher_ max_size max_size_ok).
    + by rewrite Hobj, Hnext.
    + split; unfold capacity; lia.
    + unfold capacity, size in *. rewrite Hobj. lia.
  - cbn [bind]. by apply (retry_loop_policy hasher_ max_size max_size_ok).
Qed.

End properties.

(** C3, as amended — when occupants of the window can move to the free
    bucket, the search picks the one with the greatest index: it looks
    backward from [f − 1] and stops at the first that fits.  The search
    succeeds exactly when the window has such an occupant. *)
Theorem scan_chooses_latest bs nbh free_bucket :
  0 ≤ free_bucket ≤ vsize bs → free_bucket < 9223372036854775808 →
  (∀ s, in_window nbh free_bucket s →
        ob_at bs s ≠ EMPTY_BUCKET ∧ 0 ≤ ob_at bs s ≤ s) →
  (∃ fit, scan_fit (scan_fuel bs) bs nbh free_bucket free_bucket = Ok fit ∧
     (scan_failed nbh free_bucket fit = false ↔
      ∃ s, in_window nbh free_bucket s ∧ can_move bs nbh free_bucket s)) ∧
  chooses_latest bs nbh free_bucket.
Proof.
  intros Hf Hsmall Hoccs.
  assert (Hpass : ∀ s, in_window nbh free_bucket s →
            passes bs nbh free_bucket s ↔ can_move bs nbh free_bucket s).
  { intros s Hs. destruct (Hoccs s Hs) as [Hocc Hhome]. unfold in_window in Hs.
    unfold passes, can_move. rewrite to_diff_small by lia. rewrite Z.add_0_l.
    rewrite to_size_small by small. tauto. }
  destruct (scan_fit_spec (scan_fuel bs) bs nbh free_bucket free_bucket)
    as (r & Hr & Hrange & Hskip & Hexit); try lia; try small.
  { unfold scan_fuel, vsize in *. lia. }
  assert (Hfailed : scan_failed nbh free_bucket r =
            (r =? 0) || (nbh <=? free_bucket - r + 1)).
  { unfold scan_failed. rewrite (to_size_small (free_bucket - r)) by small.
    by rewrite (to_size_small (free_bucket - r + 1)) by small. }
  assert (Hlatest : scan_failed nbh free_bucket r = false →
            in_window nbh free_bucket (r - 1) ∧ can_move bs nbh free_bucket (r - 1) ∧
            ∀ s, in_window nbh free_bucket s → can_move bs nbh free_bucket s → s ≤ r - 1).
  { rewrite Hfailed. intros Hnf. apply orb_false_iff in Hnf as [Hr0 Hwin].
    apply Z.eqb_neq in Hr0. apply Z.leb_gt in Hwin.
    destruct Hexit as [? | [? | [_ Hp]]]; [lia | lia |].
    assert (in_window nbh free_bucket (r - 1)) as Hin by (unfold in_window; lia).
    split; [done |]. split; [by apply Hpass |].
    intros s Hs Hmove. destruct (Z.le_gt_cases s (r - 1)); [done |].
    exfalso. apply (Hskip s); [unfold in_window in Hs; lia | by apply Hpass]. }
  split.
  - exists r. split; [done |]. split.
    + intros Hnf. exists (r - 1). by destruct (Hlatest Hnf) as (? & ? & _).
    + intros (s & Hs & Hmove). apply not_true_iff_false. rewrite Hfailed. intros Hfail.
      apply orb_true_iff in Hfail. apply (Hskip s); [| by apply Hpass].
      unfold in_window in Hs. destruct Hfail as [?%Z.eqb_eq | ?%Z.leb_le]; lia.
  - intros fit Hfit. rewrite Hr in Hfit. injection Hfit as <-. apply Hlatest.
Qed.

(** C10, as amended — The displacement-candidate search never works at
    the low edge of the table.  In the state the probe leaves (the buckets
    from the start bucket up to the free bucket [f] occupied), a placement
    whose free bucket lies within the first [H − 1] buckets does not run the
    search: the hop loop yields [f] at once, the table untouched and no
    failure reported.  The search runs only when [H ≤ f − start]; its window
    [[f − (H − 1), f − 1]] then starts after the start bucket, hence at
    index 1 or later: the search returns without a fault, stops inside the
    window, reads the buckets of the window only, and the placement reports
    failure exactly when no occupant of the window can move. *)
Theorem search_window_inside_table bs nbh start_bucket free_bucket :
  table_ok bs nbh → 0 < nbh →
  0 ≤ start_bucket ≤ free_bucket → free_bucket < vsize bs →
  (∀ i, start_bucket ≤ i < free_bucket → ob_at bs i ≠ EMPTY_BUCKET) →
  (free_bucket - (nbh - 1) < 0 →
   free_bucket - start_bucket < nbh ∧
   hop_loop (scan_fuel bs) bs nbh start_bucket free_bucket = Ok (bs, Some free_bucket)) ∧
  (nbh ≤ free_bucket - start_bucket →
   1 ≤ start_bucket + 1 ≤ free_bucket - (nbh - 1) ∧
   ∃ fit, scan_fit (scan_fuel bs) bs nbh free_bucket free_bucket = Ok fit ∧
     free_bucket - (nbh - 1) ≤ fit ≤ free_bucket ∧
     (∀ bs', (∀ i, in_window nbh free_bucket i → getb bs' i = getb bs i) →
             scan_fit (scan_fuel bs) bs' nbh free_bucket free_bucket = Ok fit) ∧
     (scan_failed nbh free_bucket fit = true ↔
      ¬ ∃ s, in_window nbh free_bucket s ∧ can_move bs nbh free_bucket s) ∧
     (scan_failed nbh free_bucket fit = true →
      hop_loop (scan_fuel bs) bs nbh start_bucket free_bucket = Ok (bs, None))).
Proof.
  intros Hok Hnbh Hs Hf Hoccs. pose proof (tb_size _ _ Hok) as Hsize. split.
  - intros Hlow. split; [lia |]. unfold scan_fuel. cbn [hop_loop].
    rewrite to_size_small by small.
    destruct (Z.leb_spec nbh (free_bucket - start_bucket)); [lia | done].
  - intros Hfar. split; [lia |].
    destruct (scan_fit_spec (scan_fuel bs) bs nbh free_bucket free_bucket)
      as (r & Hr & Hrange & Hskip & Hexit); try lia; try small.
    { unfold scan_fuel, vsize in *. lia. }
    assert (Hlower : free_bucket - (nbh - 1) ≤ r).
    { destruct (scan_fit_lower (scan_fuel bs) bs nbh free_bucket free_bucket r
                  ltac:(lia) ltac:(lia) Hr) as [? | ->]; lia. }
    assert (Hfailed : scan_failed nbh free_bucket r = (nbh <=? free_bucket - r + 1)).
    { unfold scan_failed. rewrite (to_size_small (free_bucket - r)) by small.
      rewrite (to_size_small (free_bucket - r + 1)) by small.
      destruct (Z.eqb_spec r 0); [lia | done]. }
    assert (Hpass : ∀ s, in_window nbh free_bucket s →
              passes bs nbh free_bucket s ↔ can_move bs nbh free_bucket s).
    { intros s Hin. unfold in_window in Hin.
      apply (passes_can_move bs nbh start_bucket); try done. lia. }
    exists r. split; [done |]. split; [lia |]. split; [| split].
    + intros bs' Hag. rewrite <- Hr. apply scan_fit_window_ext; [done | lia | lia].
    + rewrite Hfailed, Z.leb_le. split.
      * intros Hend (s & Hin & Hmove). apply (Hskip s).
        -- unfold in_window in Hin. lia.
        -- by apply Hpass.
      * intros Hnone. destruct Hexit as [? | [? | [Hwin Hp]]]; [lia | done |].
        exfalso. apply Hnone. exists (r - 1).
        assert (in_window nbh free_bucket (r - 1)) as Hin by (unfold in_window; lia).
        split; [done | by apply Hpass].
    + intros Hend. unfold scan_fuel at 1. cbn [hop_loop].
      rewrite to_size_small by small.
      destruct (Z.leb_spec nbh (free_bucket - start_bucket)); [| lia].
      rewrite Hr. cbn [bind]. by rewrite Hend.
Qed.

(** * The properties at concrete containers *)

Lemma int_max_size_ok :
  min_neighbourhood_size_ ≤ int_max_size ∧
  int_max_size * size_modifier_ < size_modulus.
Proof.
  unfold min_neighbourhood_size_, int_max_size, size_modifier_, size_modulus. lia.
Qed.

Lemma map_of_five_reachable : reachable int_hasher 0 int_max_size map_of_five.
Proof.
  apply (insert_all_reachable int_hasher 0 int_max_size HashMap_new five_keys);
    [apply reach_new | by vm_compute].
Qed.

Lemma map_awaiting_rehash_store :
  store_ok (objects_ map_awaiting_rehash) (next_node map_awaiting_rehash).
Proof.
  split.
  - apply (bool_decide_unpack _). by vm_compute.
  - apply (bool_decide_unpack _). by vm_compute.
  - intros id o Hin. simpl in *.
    repeat (apply elem_of_cons in Hin as [[= -> ->] | Hin]; [lia |]).
    by apply elem_of_nil in Hin.
Qed.

Lemma map_awaiting_rehash_capacity : capacity_ok int_max_size map_awaiting_rehash.
Proof.
  assert (Hn : neighbourhood_size_ map_awaiting_rehash = 4) by reflexivity.
  assert (Hc : capacity map_awaiting_rehash = 4) by reflexivity.
  split; rewrite ?Hn, ?Hc; unfold int_max_size; lia.
Qed.

Lemma neighbourhood_invariant_witness :
  reachable int_hasher 0 int_max_size map_of_five ∧
  ∀ i b, getb (buckets_ map_of_five) i = Some b →
         object_bucket_ b ≠ EMPTY_BUCKET →
    ∃ o, deref (objects_ map_of_five) (object_it_ b) = Ok o ∧
         object_bucket_ b = to_size (int_hasher o.1) mod capacity map_of_five ∧
         0 ≤ i - object_bucket_ b < neighbourhood_size_ map_of_five.
Proof.
  split; [exact map_of_five_reachable |].
  exact (neighbourhood_invariant int_hasher 0 int_max_size int_max_size_ok
           map_of_five map_of_five_reachable).
Defined.

Lemma chain_invariant_witness :
  reachable int_hasher 0 int_max_size map_of_five ∧
  0 ≤ 3 < capacity map_of_five ∧
  chain (buckets_ map_of_five) 3 = occupants (buckets_ map_of_five) 3 ∧
  StronglySorted Z.lt (chain (buckets_ map_of_five) 3) ∧
  (∀ i, i ∈ chain (buckets_ map_of_five) 3 ↔
        ∃ b, getb (buckets_ map_of_five) i = Some b ∧ object_bucket_ b = 3) ∧
  (occupants (buckets_ map_of_five) 3 ≠ [] →
   ∃ b, getb (buckets_ map_of_five) 3 = Some b ∧ first_delta_ b ≠ NULL_DELTA).
Proof.
  split; [exact map_of_five_reachable |].
  assert (Hh : 0 ≤ 3 < capacity map_of_five)
    by (replace (capacity map_of_five) with 12 by reflexivity; lia).
  split; [exact Hh |].
  exact (chain_invariant int_hasher 0 int_max_size int_max_size_ok
           map_of_five map_of_five_reachable 3 Hh).
Defined.

Lemma capacity_invariant_witness :
  reachable int_hasher 0 int_max_size map_of_five ∧
  0 < capacity map_of_five ∧ neighbourhood_size_ map_of_five ≤ capacity map_of_five.
Proof.
  split; [exact map_of_five_reachable |].
  exact (capacity_invariant int_hasher 0 int_max_size int_max_size_ok
           map_of_five map_of_five_reachable).
Defined.

Lemma at_not_found_witness :
  reachable int_hasher 0 int_max_size map_of_five ∧
  (at_ int_hasher map_of_five 8 = Throw out_of_range ↔
   8 ∉ keys (objects_ map_of_five)) ∧
  (∀ id v, (id, (8, v)) ∈ objects_ map_of_five → at_ int_hasher map_of_five 8 = Ok v) ∧
  find int_hasher map_of_five 8 ≠ Throw out_of_range ∧
  erase int_hasher map_of_five 8 ≠ Throw out_of_range ∧
  (∀ v, insert int_hasher int_max_size map_of_five (8, v) ≠ Throw out_of_range).
Proof.
  split; [exact map_of_five_reachable |].
  exact (at_not_found int_hasher 0 int_max_size int_max_size_ok
           map_of_five 8 map_of_five_reachable).
Defined.

Lemma erase_semantics_witness :
  reachable int_hasher 0 int_max_size map_of_five ∧
  ∃ m', erase int_hasher map_of_five 3 = Ok m' ∧ find int_hasher m' 3 = Ok End ∧
    (3 ∉ keys (objects_ map_of_five) →
     m' = map_of_five ∧ size m' = size map_of_five ∧
     ∀ key', key' ≠ 3 →
       find int_hasher m' key' = find int_hasher map_of_five key' ∧
       at_ int_hasher m' key' = at_ int_hasher map_of_five key').
Proof.
  split; [exact map_of_five_reachable |].
  exact (erase_semantics int_hasher 0 int_max_size int_max_size_ok
           map_of_five 3 map_of_five_reachable).
Defined.

Lemma second_insert_changes_nothing_witness :
  reachable int_hasher 0 int_max_size map_of_five ∧
  insert int_hasher int_max_size map_of_five (7, 70) = Ok (map_of_six, Node 5) ∧
  insert int_hasher int_max_size map_of_six (7, 71) = Ok (map_of_six, Node 5) ∧
  ∃ v, at_ int_hasher map_of_six 7 = Ok v ∧
       deref (objects_ map_of_six) (Node 5) = Ok (7, v) ∧
       (7 ∉ keys (objects_ map_of_five) → v = 70) ∧
       (at_ int_hasher map_of_five 7 = Throw out_of_range → v = 70) ∧
       (7 ∈ keys (objects_ map_of_five) →
        at_ int_hasher map_of_five 7 = Ok v ∧ map_of_six = map_of_five) ∧
       (∀ v0, at_ int_hasher map_of_five 7 = Ok v0 → v = v0 ∧ map_of_six = map_of_five).
Proof.
  split; [exact map_of_five_reachable |].
  assert (Hins : insert int_hasher int_max_size map_of_five (7, 70)
                 = Ok (map_of_six, Node 5)) by (vm_compute; reflexivity).
  split; [exact Hins |].
  exact (second_insert_changes_nothing int_hasher 0 int_max_size int_max_size_ok
           map_of_five 7 70 71 map_of_six (Node 5) map_of_five_reachable Hins).
Defined.

(** C2, as stated, fails where the key is present before the first call:
    key [3] holds 30, and 30 stays after [insert(3, 31)] and
    [insert(3, 32)]. *)
Lemma second_insert_counterexample :
  ¬ second_insert_keeps_first_value int_hasher int_max_size map_of_five 3 31 32.
Proof.
  intros Hstated.
  destruct (Hstated map_of_five (Node 3) map_of_five (Node 3)) as [Hat _].
  - vm_compute. reflexivity.
  - vm_compute. reflexivity.
  - vm_compute in Hat. discriminate.
Qed.

Lemma rehash_follows_policy_witness :
  store_ok (objects_ map_awaiting_rehash) (next_node map_awaiting_rehash) ∧
  capacity_ok int_max_size map_awaiting_rehash ∧
  size map_awaiting_rehash ≤ capacity map_awaiting_rehash + 1 ∧
  HandleCollision int_hasher int_max_size collision_fuel map_awaiting_rehash =
  rehash_by_policy int_hasher int_max_size
    (if capacity map_awaiting_rehash <=? size map_awaiting_rehash
     then S collision_fuel else collision_fuel) map_awaiting_rehash.
Proof.
  assert (Hsize : size map_awaiting_rehash ≤ capacity map_awaiting_rehash + 1).
  { replace (size map_awaiting_rehash) with 5 by reflexivity.
    replace (capacity map_awaiting_rehash) with 4 by reflexivity. lia. }
  split; [exact map_awaiting_rehash_store |].
  split; [exact map_awaiting_rehash_capacity |].
  split; [exact Hsize |].
  exact (rehash_follows_policy int_hasher int_max_size int_max_size_ok
           map_awaiting_rehash collision_fuel map_awaiting_rehash_store
           map_awaiting_rehash_capacity Hsize).
Defined.

Lemma table_of_five_window s :
  in_window 4 5 s →
  ob_at table_of_five s ≠ EMPTY_BUCKET ∧ 0 ≤ ob_at table_of_five s ≤ s.
Proof.
  unfold in_window. intros Hs.
  assert (s = 2 ∨ s = 3 ∨ s = 4) as [-> | [-> | ->]] by lia.
  - replace (ob_at table_of_five 2) with 2 by reflexivity. small.
  - replace (ob_at table_of_five 3) with 3 by reflexivity. small.
  - replace (ob_at table_of_five 4) with 4 by reflexivity. small.
Qed.

Lemma scan_chooses_latest_witness :
  0 ≤ 5 ≤ vsize table_of_five ∧ 5 < 9223372036854775808 ∧
  (∀ s, in_window 4 5 s →
        ob_at table_of_five s ≠ EMPTY_BUCKET ∧ 0 ≤ ob_at table_of_five s ≤ s) ∧
  (∃ fit, scan_fit (scan_fuel table_of_five) table_of_five 4 5 5 = Ok fit ∧
     (scan_failed 4 5 fit = false ↔
      ∃ s, in_window 4 5 s ∧ can_move table_of_five 4 5 s)) ∧
  chooses_latest table_of_five 4 5.
Proof.
  assert (Hf : 0 ≤ 5 ≤ vsize table_of_five)
    by (replace (vsize table_of_five) with 12 by reflexivity; lia).
  assert (Hsmall : 5 < 9223372036854775808) by lia.
  split; [exact Hf |]. split; [exact Hsmall |]. split; [exact table_of_five_window |].
  exact (scan_chooses_latest table_of_five 4 5 Hf Hsmall table_of_five_window).
Defined.

(** C3, as stated, fails in the table that the five keys leave: with the
    free bucket at 5 and [H = 4] the occupants of buckets 2, 3 and 4 can all
    move, and the search picks bucket 4, not bucket 2. *)
Lemma scan_not_earliest : ¬ chooses_earliest table_of_five 4 5.
Proof.
  intros Hstated.
  assert (Hscan : scan_fit (scan_fuel table_of_five) table_of_five 4 5 5 = Ok 5)
    by (vm_compute; reflexivity).
  assert (Hok : scan_failed 4 5 5 = false) by (vm_compute; reflexivity).
  assert (Hwin : in_window 4 5 2) by (unfold in_window; lia).
  assert (Hmove : can_move table_of_five 4 5 2).
  { unfold can_move. replace (ob_at table_of_five 2) with 2 by reflexivity. small. }
  pose proof (Hstated 5 Hscan Hok 2 Hwin Hmove). lia.
Qed.

Lemma table_of_five_ok : table_ok table_of_five 4.
Proof.
  apply (inv_table int_hasher int_max_size map_of_five).
  apply (reachable_Inv int_hasher 0 int_max_size int_max_size_ok), map_of_five_reachable.
Qed.

Lemma table_of_five_run i : 0 ≤ i < 5 → ob_at table_of_five i ≠ EMPTY_BUCKET.
Proof.
  intros Hi.
  assert (i = 0 ∨ i = 1 ∨ i = 2 ∨ i = 3 ∨ i = 4) as [-> | [-> | [-> | [-> | ->]]]] by lia;
    by vm_compute.
Qed.

Lemma search_window_inside_table_witness :
  table_ok table_of_five 4 ∧ 0 < 4 ∧ 0 ≤ 0 ≤ 5 ∧ 5 < vsize table_of_five ∧
  (∀ i, 0 ≤ i < 5 → ob_at table_of_five i ≠ EMPTY_BUCKET) ∧
  (5 - (4 - 1) < 0 →
   5 - 0 < 4 ∧
   hop_loop (scan_fuel table_of_five) table_of_five 4 0 5 = Ok (table_of_five, Some 5)) ∧
  (4 ≤ 5 - 0 →
   1 ≤ 0 + 1 ≤ 5 - (4 - 1) ∧
   ∃ fit, scan_fit (scan_fuel table_of_five) table_of_five 4 5 5 = Ok fit ∧
     5 - (4 - 1) ≤ fit ≤ 5 ∧
     (∀ bs', (∀ i, in_window 4 5 i → getb bs' i = getb table_of_five i) →
             scan_fit (scan_fuel table_of_five) bs' 4 5 5 = Ok fit) ∧
     (scan_failed 4 5 fit = true ↔
      ¬ ∃ s, in_window 4 5 s ∧ can_move table_of_five 4 5 s) ∧
     (scan_failed 4 5 fit = true →
      hop_loop (scan_fuel table_of_five) table_of_five 4 0 5
      = Ok (table_of_five, None))).
Proof.
  assert (Hnbh : 0 < 4) by lia.
  assert (Hs : 0 ≤ 0 ≤ 5) by lia.
  assert (Hf : 5 < vsize table_of_five)
    by (replace (vsize table_of_five) with 12 by reflexivity; lia).
  split; [exact table_of_five_ok |]. split; [exact Hnbh |]. split; [exact Hs |].
  split; [exact Hf |]. split; [exact table_of_five_run |].
  exact (search_window_inside_table table_of_five 4 0 5
           table_of_five_ok Hnbh Hs Hf table_of_five_run).
Defined.

(** C10, as stated, fails at the first insertion into an empty container:
    the probe from the home bucket 0 finds bucket 0 free, which lies within
    the first [H − 1] buckets; no occupant is there to move, and the
    placement does not report failure: the entry goes into bucket 0. *)
Lemma low_edge_counterexample : ¬ low_edge_reports_failure initial_table 4 0 0.
Proof.
  intros Hstated. destruct Hstated as (bs' & r & Eloop & Hfail); [lia |].
  assert (Erun : hop_loop (scan_fuel initial_table) initial_table 4 0 0
                 = Ok (initial_table, Some 0)) by (vm_compute; reflexivity).
  rewrite Erun in Eloop. injection Eloop as <- <-.
  assert (Hnone : Some 0 = None); [| discriminate].
  apply Hfail. intros s Hs. unfold in_window in Hs. lia.
Qed.

(** * The scenarios of the test suite, run on the model *)

(** Empty-and-grow. *)
Example scenario_empty_and_grow :
  let m := int_map [(3, 5); (1, 5); (2, 1)] in
  size m = 3 ∧
  (∃ it, find int_hasher m 3 = Ok it ∧ deref (objects_ m) it = Ok (3, 5)) ∧
  find int_hasher m 7 = Ok End ∧ at_ int_hasher m 1 = Ok 5.
Proof.
  cbv zeta. split; [by vm_compute |]. split; [| split; by vm_compute].
  exists (Node 0). split; by vm_compute.
Qed.

(** [at] on an absent key; a negative key is hashed to its image in
    [size_t]. *)
Example scenario_at_absent :
  let m := int_map [(2, 3); (-7, -13); (0, 8)] in
  at_ int_hasher m 8 = Throw out_of_range ∧ at_ int_hasher m (-7) = Ok (-13).
Proof. cbv zeta. split; by vm_compute. Qed.

(** Iteration after churn. *)
Example scenario_churn :
  ∃ m1 m2 it,
    erase int_hasher (int_map [(3, 5); (2, 1); (0, 7)]) 0 = Ok m1 ∧
    insert int_hasher int_max_size m1 (8, -4) = Ok (m2, it) ∧
    (objects_ m2).*2 = [(8, -4); (2, 1); (3, 5)] ∧
    find int_hasher m2 0 = Ok End ∧ size m2 = 3.
Proof.
  eexists _, _, _. split; [by vm_compute |]. split; [by vm_compute |].
  split; [| split]; by vm_compute.
Qed.

(** A hasher that sends every key to bucket 0: the table grows until the
    neighbourhood holds all the keys, and no operation throws. *)
Example scenario_adversarial_hasher :
  let values := (λ i, (i, i)) <$> seqZ 0 40 in
  ∃ m, insert_all (λ _, 0) int_max_size HashMap_new values = Ok m ∧
       size m = 40 ∧
       forallb (λ i, match at_ (λ _, 0) m i with Ok v => v =? i | _ => false end)
               (seqZ 0 40) = true.
Proof. cbv zeta. eexists. split; [by vm_compute |]. split; by vm_compute. Qed.

(** Two hops in a real insertion: key 12, whose home is bucket 0, finds the
    free bucket 5; the occupant of bucket 4 moves to 5, the occupant of
    bucket 3 moves to 4, and key 12 takes bucket 3. *)
Example scenario_two_hops :
  ∃ m, insert int_hasher int_max_size map_of_five (12, 120) = Ok (m, Node 5) ∧
       capacity m = 12 ∧ neighbourhood_size_ m = 4 ∧
       (λ b, (object_it_ b, object_bucket_ b)) <$> take 6 (buckets_ m) =
       [(Node 0, 0); (Node 1, 1); (Node 2, 2); (Node 5, 0); (Node 3, 3); (Node 4, 4)].
Proof. eexists. split; [by vm_compute |]. split; [| split]; by vm_compute. Qed.

(** A copy of the container of the five keys: the same table size, the
    entries in the reverse order. *)
Example scenario_copy :
  HashMap_copy int_hasher int_max_size map_of_five = Ok copy_of_five ∧
  capacity copy_of_five = 12 ∧ neighbourhood_size_ copy_of_five = 4 ∧
  entries copy_of_five = [(0, 0); (1, 10); (2, 20); (3, 30); (4, 40)] ∧
  entries map_of_five = [(4, 40); (3, 30); (2, 20); (1, 10); (0, 0)].
Proof. split; [by vm_compute |]. split; [| split; [| split]]; by vm_compute. Qed.

(** The container of the test [Reference check]: the second pair with key 3
    is ignored, [map[3] = 7] overwrites, and [map[0]] adds the default. *)
Example scenario_reference_check :
  ∃ m m1 m2 it,
    HashMap_range int_hasher int_max_size [(3, 4); (3, 5); (4, 7); (-1, -3)] = Ok m ∧
    at_ int_hasher m 3 = Ok 4 ∧ size m = 3 ∧
    subscript_assign int_hasher 0 int_max_size m 3 7 = Ok m1 ∧
    at_ int_hasher m1 3 = Ok 7 ∧
    subscript int_hasher 0 int_max_size m1 0 = Ok (m2, it) ∧
    deref (objects_ m2) it = Ok (0, 0) ∧ size m2 = 4.
Proof.
  eexists _, _, _, _. split; [by vm_compute |]. split; [by vm_compute |].
  split; [by vm_compute |]. split; [by vm_compute |]. split; [by vm_compute |].
  split; [by vm_compute |]. split; by vm_compute.
Qed.

(** The first insertion into an empty container: the probe from the home
    bucket 0 finds bucket 0 free, the hop loop does not run, and the entry
    is placed there. *)
Example scenario_first_insert :
  probe_free (scan_fuel initial_table) initial_table 0 = Ok 0 ∧
  hop_loop (scan_fuel initial_table) initial_table 4 0 0 = Ok (initial_table, Some 0) ∧
  ∃ m, insert int_hasher int_max_size (HashMap_new : IntMap) (0, 0) = Ok (m, Node 0) ∧
       FindObject int_hasher m 0 = Ok 0 ∧ capacity m = 4.
Proof.
  split; [by vm_compute |]. split; [by vm_compute |].
  eexists. split; [by vm_compute |]. split; by vm_compute.
Qed.

(** * Further properties of the container *)

Section further_properties.

Context {KeyType ValueType : Type} `{EqDecision KeyType}.
Variable hasher_ : KeyType → Z.
Variable ValueType_default : ValueType.
Variable max_size : Z.
Hypothesis max_size_ok :
  min_neighbourhood_size_ ≤ max_size ∧ max_size * size_modifier_ < size_modulus.

Local Abbreviation node := (nat * (KeyType * ValueType))%type.
Local Abbreviation HM := (@HashMap KeyType ValueType).
Local Abbreviation OT := (KeyType * ValueType)%type.
Local Abbreviation usable_map := (usable hasher_ ValueType_default max_size).
Local Abbreviation to_Inv := (usable_Inv hasher_ ValueType_default max_size max_size_ok).
Implicit Types (m : HM) (es values : list OT).

(** X1 — [insert] of a key that [find] does not find either throws
    [std::bad_alloc] or adds the entry: the iterator returned is [begin()],
    it designates the new entry, [find] returns it, [at] returns the new
    value, the entry comes first in the iteration order and the size grows
    by one. *)
Theorem insert_new_key m key v :
  usable_map m → find hasher_ m key = Ok End →
  insert hasher_ max_size m (key, v) = Throw bad_alloc ∨
  ∃ m' it, insert hasher_ max_size m (key, v) = Ok (m', it) ∧
    it = begin_ m' ∧ find hasher_ m' key = Ok it ∧
    deref (objects_ m') it = Ok (key, v) ∧ at_ hasher_ m' key = Ok v ∧
    entries m' = (key, v) :: entries m ∧ size m' = size m + 1.
Proof.
  intros Hm Hfind. pose proof (to_Inv m Hm) as HInv.
  apply (key_present hasher_ max_size m key HInv) in Hfind as Habs.
  destruct (insert_total hasher_ max_size max_size_ok m (key, v) HInv)
    as [-> | (m' & it & E)]; [by left | right].
  exists m', it. split; [done |].
  destruct (insert_effect hasher_ max_size max_size_ok m key v m' it HInv E)
    as (HInv' & _ & Hobj & _ & id & w & -> & Hin).
  rewrite decide_False in Hobj by done.
  pose proof (inv_store _ _ _ HInv') as Hstore'.
  assert (Hnew : (next_node m, (key, v)) ∈ objects_ m') by (rewrite Hobj; left).
  destruct (store_ok_key_unique _ _ id (next_node m) key w v Hstore' Hin Hnew) as [-> ->].
  split; [unfold begin_; by rewrite Hobj |].
  destruct (find_deref hasher_ max_size m' key HInv')
    as [(_ & _ & Habs') | (id & w & -> & Hderef & -> & Hin')].
  { exfalso. apply Habs'. apply elem_of_keys. by exists (next_node m), v. }
  destruct (store_ok_key_unique _ _ id (next_node m) key w v Hstore' Hin' Hnew) as [-> ->].
  split; [done |]. split; [done |]. split; [done |].
  unfold entries, size. rewrite Hobj. split; [done |]. simpl length. lia.
Qed.

(** X2 — An [insert] that returns leaves every other key as it was, also
    when it rehashes: [find] returns the same iterator and [at] the same
    value, and every iterator that designated an entry still designates
    it. *)
Theorem insert_keeps_other_entries m key v m' it :
  usable_map m → insert hasher_ max_size m (key, v) = Ok (m', it) →
  (∀ key', key' ≠ key →
     find hasher_ m' key' = find hasher_ m key' ∧
     at_ hasher_ m' key' = at_ hasher_ m key') ∧
  (∀ id o, deref (objects_ m) (Node id) = Ok o → deref (objects_ m') (Node id) = Ok o).
Proof.
  intros Hm E. pose proof (to_Inv m Hm) as HInv.
  destruct (insert_effect hasher_ max_size max_size_ok m key v m' it HInv E)
    as (HInv' & _ & Hobj & _).
  pose proof (inv_store _ _ _ HInv) as Hstore.
  pose proof (inv_store _ _ _ HInv') as Hstore'.
  assert (Hsub : ∀ x, x ∈ objects_ m → x ∈ objects_ m').
  { intros x Hx. rewrite Hobj. destruct (decide (key ∈ keys (objects_ m))); [done |].
    by right. }
  split.
  - intros key' Hne. apply (find_agree hasher_ max_size m m' key' HInv HInv').
    intros id w. split; [| apply Hsub]. rewrite Hobj.
    destruct (decide (key ∈ keys (objects_ m))); [done |].
    intros [[= _ ? _] | Hin]%elem_of_cons; [congruence | done].
  - intros id o Hderef. apply (deref_stable (objects_ m)); [| | done].
    + apply (st_ids _ _ Hstore').
    + apply Hsub. apply node_lookup_Some. by apply deref_Ok.
Qed.

(** X3 — [insert] never shrinks the table: the capacity and the
    neighbourhood size after it are those before it multiplied by powers
    of 3. *)
Theorem insert_never_shrinks m (value : OT) m' it :
  usable_map m → insert hasher_ max_size m value = Ok (m', it) →
  grown m m' ∧ capacity m ≤ capacity m' ∧
  neighbourhood_size_ m ≤ neighbourhood_size_ m'.
Proof.
  intros Hm E. pose proof (to_Inv m Hm) as HInv.
  pose proof (insert_grown hasher_ max_size max_size_ok m value m' it HInv E) as Hg.
  split; [done |]. destruct (inv_capacity _ _ _ HInv) as [Hpos Hle _].
  apply grown_le; [lia | done | done].
Qed.

(** X4 — In every usable container the capacity is [4 * 3^a] and the
    neighbourhood size is [4 * 3^b] with [b ≤ a]. *)
Theorem capacity_is_four_times_power_of_three m :
  usable_map m →
  ∃ a b : nat, capacity m = 4 * 3 ^ Z.of_nat a ∧
               neighbourhood_size_ m = 4 * 3 ^ Z.of_nat b ∧ (b ≤ a)%nat.
Proof.
  intros Hm. destruct (inv_capacity _ _ _ (to_Inv m Hm)) as [_ Hle _].
  destruct (usable_grown hasher_ ValueType_default max_size max_size_ok m Hm)
    as (a & b & Ha & Hb).
  change (capacity HashMap_new) with 4 in Ha.
  change (neighbourhood_size_ (@HashMap_new KeyType ValueType)) with 4 in Hb.
  exists a, b. split; [done |]. split; [done |].
  rewrite Ha, Hb in Hle. apply Nat2Z.inj_le.
  apply (Z.pow_le_mono_r_iff 3); lia.
Qed.

(** X5 — [erase] always returns.  It removes the entry of the key and
    nothing else: the other entries keep their order, their iterators and
    what [find] and [at] return for them; the capacity and the neighbourhood
    size do not change; the size drops by one when the key was present. *)
Theorem erase_removes_only_key m key :
  usable_map m →
  ∃ m', erase hasher_ m key = Ok m' ∧
    entries m' = filter (λ o, o.1 ≠ key) (entries m) ∧
    capacity m' = capacity m ∧ neighbourhood_size_ m' = neighbourhood_size_ m ∧
    (∀ v, at_ hasher_ m key = Ok v → size m' = size m - 1) ∧
    (∀ key', key' ≠ key →
       find hasher_ m' key' = find hasher_ m key' ∧
       at_ hasher_ m' key' = at_ hasher_ m key') ∧
    (∀ id o, o.1 ≠ key → deref (objects_ m) (Node id) = Ok o →
             deref (objects_ m') (Node id) = Ok o).
Proof.
  intros Hm. pose proof (to_Inv m Hm) as HInv.
  destruct (erase_effect hasher_ max_size m key HInv)
    as (m' & E & HInv' & Hn & Hc & Hobj & Hes).
  pose proof (inv_store _ _ _ HInv) as Hstore.
  pose proof (inv_store _ _ _ HInv') as Hstore'.
  exists m'. do 4 (split; [done |]). split; [| split].
  - intros v Hat. rewrite !size_entries, Hes.
    assert (Hlen : S (length (filter (λ o : OT, o.1 ≠ key) (entries m)))
                   = length (entries m)).
    { apply length_filter_key; rewrite <- keys_entries; [apply (st_keys _ _ Hstore) |].
      destruct (decide (key ∈ keys (objects_ m))) as [? | Habs]; [done |].
      apply (key_present hasher_ max_size m key HInv) in Habs. congruence. }
    unfold ObjectType in *. lia.
  - intros key' Hne. apply (find_agree hasher_ max_size m m' key' HInv HInv').
    intros id w. rewrite Hobj, list_elem_of_filter. simpl. tauto.
  - intros id o Hne Hderef. apply (deref_stable (objects_ m)); [| | done].
    + apply (st_ids _ _ Hstore').
    + rewrite Hobj. apply list_elem_of_filter. split; [done |].
      apply node_lookup_Some. by apply deref_Ok.
Qed.

(** X6 — [find] and [at] agree: [find] returns [end()] exactly when [at]
    throws [std::out_of_range], and [at] returns [v] exactly when [find]
    returns an iterator to the entry [(key, v)]. *)
Theorem find_agrees_with_at m key :
  usable_map m →
  (find hasher_ m key = Ok End ↔ at_ hasher_ m key = Throw out_of_range) ∧
  (∀ v, at_ hasher_ m key = Ok v ↔
        ∃ id, find hasher_ m key = Ok (Node id) ∧
              deref (objects_ m) (Node id) = Ok (key, v)).
Proof.
  intros Hm. pose proof (to_Inv m Hm) as HInv.
  destruct (find_deref hasher_ max_size m key HInv)
    as [(-> & -> & Habs) | (id & w & -> & Hderef & -> & Hin)].
  - split; [done |]. intros v. split; [done | by intros (id & ? & _)].
  - split; [done |]. intros v. split.
    + intros [= <-]. by exists id.
    + intros (id' & [= <-] & Hderef'). rewrite Hderef in Hderef'. by injection Hderef' as <-.
Qed.

(** X7 — [operator[]] either throws [std::bad_alloc] or returns an iterator
    to the entry of the key: the container is unchanged when the key is
    present, and the entry [(key, ValueType{})] is added in front when it is
    absent. *)
Theorem subscript_finds_or_adds_default m key :
  usable_map m →
  subscript hasher_ ValueType_default max_size m key = Throw bad_alloc ∨
  ∃ m' it w, subscript hasher_ ValueType_default max_size m key = Ok (m', it) ∧
    deref (objects_ m') it = Ok (key, w) ∧ at_ hasher_ m' key = Ok w ∧
    (∀ v, at_ hasher_ m key = Ok v → m' = m ∧ w = v) ∧
    (at_ hasher_ m key = Throw out_of_range →
     w = ValueType_default ∧ entries m' = (key, ValueType_default) :: entries m).
Proof.
  intros Hm. pose proof (to_Inv m Hm) as HInv. unfold subscript.
  destruct (insert_total hasher_ max_size max_size_ok m (key, ValueType_default) HInv)
    as [-> | (m' & it & E)]; [by left | right].
  destruct (insert_effect hasher_ max_size max_size_ok m key ValueType_default m' it HInv E)
    as (HInv' & _ & Hobj & Hsame & id & w & -> & Hin).
  pose proof (inv_store _ _ _ HInv') as Hstore'.
  exists m', (Node id), w. split; [done |].
  destruct (find_deref hasher_ max_size m' key HInv')
    as [(_ & _ & Habs') | (id' & w' & _ & Hderef & Hat & Hin')].
  { exfalso. apply Habs'. apply elem_of_keys. by exists id, w. }
  destruct (store_ok_key_unique _ _ id' id key w' w Hstore' Hin' Hin) as [-> ->].
  split; [done |]. split; [done |]. split.
  - intros v Hv. destruct (decide (key ∈ keys (objects_ m))) as [Hpres | Habs].
    + rewrite (Hsame Hpres) in *. split; [done |]. congruence.
    + apply (key_present hasher_ max_size m key HInv) in Habs. congruence.
  - intros Habs. apply (key_present hasher_ max_size m key HInv) in Habs.
    rewrite decide_False in Hobj by done.
    assert (Hnew : (next_node m, (key, ValueType_default)) ∈ objects_ m')
      by (rewrite Hobj; left).
    destruct (store_ok_key_unique _ _ id (next_node m) key w ValueType_default
                Hstore' Hin Hnew) as [_ ->].
    split; [done |]. unfold entries. by rewrite Hobj.
Qed.

End further_properties.

Section further_properties_2.

Context {KeyType ValueType : Type} `{EqDecision KeyType}.
Variable hasher_ : KeyType → Z.
Variable ValueType_default : ValueType.
Variable max_size : Z.
Hypothesis max_size_ok :
  min_neighbourhood_size_ ≤ max_size ∧ max_size * size_modifier_ < size_modulus.

Local Abbreviation node := (nat * (KeyType * ValueType))%type.
Local Abbreviation HM := (@HashMap KeyType ValueType).
Local Abbreviation OT := (KeyType * ValueType)%type.
Local Abbreviation usable_map := (usable hasher_ ValueType_default max_size).
Local Abbreviation to_Inv := (usable_Inv hasher_ ValueType_default max_size max_size_ok).
Implicit Types (m : HM) (es values : list OT) (bs : list Bucket).

(** X8 — The size is the number of occupied buckets, so it never exceeds
    the capacity. *)
Theorem size_counts_occupied_buckets m :
  usable_map m →
  size m = Z.of_nat (length (occupied (buckets_ m))) ∧ size m ≤ capacity m.
Proof.
  intros Hm. pose proof (size_occupied hasher_ max_size m (to_Inv m Hm)) as Hsz.
  split; [done |]. rewrite Hsz. apply occupied_bound.
Qed.

(** X9 — The chain of a home bucket, which [FindObject] walks, has at most
    [H] buckets, all of them in the [H] buckets from the home on. *)
Theorem chain_length_bound m h :
  usable_map m → 0 ≤ h < capacity m →
  Z.of_nat (length (chain (buckets_ m) h)) ≤ neighbourhood_size_ m ∧
  ∀ i, i ∈ chain (buckets_ m) h →
       h ≤ i < h + neighbourhood_size_ m ∧ i < capacity m.
Proof.
  intros Hm Hh. destruct (to_Inv m Hm) as [_ [Hpos _ _] Hok _]. unfold capacity in *.
  rewrite (chain_occupants _ _ h Hok Hh). split.
  - apply occupants_length; [done | done | lia].
  - intros i Hi. destruct (occupants_window _ _ h i Hok Hh Hi). lia.
Qed.

(** X10 — The range constructor and the constructor from an initializer
    list either throw [std::bad_alloc] or build a container in which each
    key has the value of its first occurrence in the sequence, and whose
    size is the number of distinct keys. *)
Theorem range_constructor_first_wins values :
  HashMap_range hasher_ max_size values = Throw bad_alloc ∨
  ∃ m, HashMap_range hasher_ max_size values = Ok m ∧ usable_map m ∧
    (∀ key, at_ hasher_ m key = at_of key values) ∧
    size m = Z.of_nat (length (remove_dups (values.*1))) ∧
    entries m = insert_entries [] values.
Proof.
  unfold HashMap_range.
  pose proof (Inv_new (ValueType:=ValueType) hasher_ max_size max_size_ok) as HInv0.
  destruct (insert_all_total hasher_ max_size max_size_ok HashMap_new values HInv0)
    as [-> | (m & E)]; [by left | right].
  exists m. split; [done |].
  destruct (insert_all_effect hasher_ max_size max_size_ok HashMap_new values m HInv0 E)
    as (HInv & _ & Hes).
  change (entries HashMap_new) with (@nil OT) in Hes.
  split; [| split; [| split; [| done]]].
  - apply (insert_all_usable hasher_ ValueType_default max_size HashMap_new values);
      [apply usable_new | done].
  - intros key. rewrite (at_entries hasher_ max_size m key HInv), Hes.
    unfold at_of. by rewrite insert_entries_first_value.
  - rewrite size_entries, Hes. by rewrite insert_entries_length.
Qed.

(** X11 — The copy constructor either throws [std::bad_alloc] or builds a
    container with the entries of the original, in the reverse iteration
    order: [at] agrees on every key, the size is the same, and the capacity
    and the neighbourhood size are at least those of the original. *)
Theorem copy_constructor_copies other :
  usable_map other →
  HashMap_copy hasher_ max_size other = Throw bad_alloc ∨
  ∃ m, HashMap_copy hasher_ max_size other = Ok m ∧
    entries m = reverse (entries other) ∧
    (∀ key, at_ hasher_ m key = at_ hasher_ other key) ∧
    size m = size other ∧
    capacity other ≤ capacity m ∧
    neighbourhood_size_ other ≤ neighbourhood_size_ m.
Proof.
  intros Hother. pose proof (to_Inv other Hother) as HInv.
  destruct (copy_effect hasher_ max_size max_size_ok other HInv)
    as [-> | (m & E & HInv' & Hes & Hc & Hn & _)]; [by left | right].
  exists m. split; [done |]. split; [done |].
  pose proof (st_keys _ _ (inv_store _ _ _ HInv)) as Hkeys. rewrite keys_entries in Hkeys.
  split; [| split; [| done]].
  - intros key. rewrite (at_entries hasher_ max_size m key HInv').
    rewrite (at_entries hasher_ max_size other key HInv). unfold at_of. rewrite Hes.
    rewrite (first_value_same_elements key (reverse (entries other)) (entries other)).
    + done.
    + rewrite fmap_reverse. by rewrite reverse_Permutation.
    + done.
    + intros x. apply elem_of_reverse.
  - rewrite !size_entries, Hes. by rewrite length_reverse.
Qed.

(** X12 — [insert] of an absent key followed by [erase] of that key gives
    back the entries: the same sequence, the same size, and [find] and [at]
    as before for every key.  (The table may have grown.) *)
Theorem insert_then_erase m key v m1 it :
  usable_map m → find hasher_ m key = Ok End →
  insert hasher_ max_size m (key, v) = Ok (m1, it) →
  ∃ m2, erase hasher_ m1 key = Ok m2 ∧
    entries m2 = entries m ∧ size m2 = size m ∧
    ∀ key', find hasher_ m2 key' = find hasher_ m key' ∧
            at_ hasher_ m2 key' = at_ hasher_ m key'.
Proof.
  intros Hm Hfind E. pose proof (to_Inv m Hm) as HInv.
  apply (key_present hasher_ max_size m key HInv) in Hfind as Habs.
  destruct (insert_effect hasher_ max_size max_size_ok m key v m1 it HInv E)
    as (HInv1 & _ & Hobj & _).
  rewrite decide_False in Hobj by done.
  destruct (erase_effect hasher_ max_size m1 key HInv1)
    as (m2 & E2 & HInv2 & _ & _ & Hobj2 & _).
  assert (Hback : objects_ m2 = objects_ m).
  { rewrite Hobj2, Hobj.
    rewrite filter_cons_False by (simpl; intros Hne; by apply Hne).
    apply filter_all. intros [i [k w]] Hx Heq. simpl in Heq. subst k.
    apply Habs. apply elem_of_keys. by exists i, w. }
  exists m2. split; [done |]. unfold entries, size. rewrite Hback.
  split; [done |]. split; [done |]. intros key'.
  apply (find_agree hasher_ max_size m m2 key' HInv HInv2). intros id w. by rewrite Hback.
Qed.

(** X13 — A store through the iterator that [find] returns for a key
    ([it->second = v]) changes the value [at] returns for that key and
    nothing else: the iterators [find] returns, the values of the other
    keys, the size and the bucket table are as before. *)
Theorem assign_through_handle m key id v :
  usable_map m → find hasher_ m key = Ok (Node id) →
  ∃ m', assign m (Node id) v = Ok m' ∧ usable_map m' ∧
    at_ hasher_ m' key = Ok v ∧
    (∀ key', find hasher_ m' key' = find hasher_ m key') ∧
    (∀ key', key' ≠ key → at_ hasher_ m' key' = at_ hasher_ m key') ∧
    size m' = size m ∧ buckets_ m' = buckets_ m.
Proof.
  intros Hm Hfind. pose proof (to_Inv m Hm) as HInv.
  destruct (find_deref hasher_ max_size m key HInv)
    as [(E & _) | (id' & w & E & _ & _ & Hin)]; rewrite E in Hfind; [done |].
  injection Hfind as ->.
  destruct (assign_at hasher_ max_size m id key w v HInv Hin)
    as (m' & Eas & _ & Hat & Hf & Ho & Hsz & Hbs & _).
  exists m'. split; [done |]. split; [by eapply usable_assign |]. done.
Qed.

(** X14 — [map[key] = v] either throws [std::bad_alloc] or leaves a
    container in which [at(key)] returns [v] and every other key has the
    value it had; the size is the same when the key was present and one
    more when it was absent. *)
Theorem subscript_assign_overwrites m key v :
  usable_map m →
  subscript_assign hasher_ ValueType_default max_size m key v = Throw bad_alloc ∨
  ∃ m', subscript_assign hasher_ ValueType_default max_size m key v = Ok m' ∧
    usable_map m' ∧ at_ hasher_ m' key = Ok v ∧
    (∀ key', key' ≠ key → at_ hasher_ m' key' = at_ hasher_ m key') ∧
    (∀ w, at_ hasher_ m key = Ok w → size m' = size m) ∧
    (at_ hasher_ m key = Throw out_of_range → size m' = size m + 1).
Proof.
  intros Hm. pose proof (to_Inv m Hm) as HInv. unfold subscript_assign, subscript.
  destruct (insert_total hasher_ max_size max_size_ok m (key, ValueType_default) HInv)
    as [-> | (m1 & it & E)]; [by left | right].
  rewrite E. cbn [bind].
  destruct (insert_effect hasher_ max_size max_size_ok m key ValueType_default m1 it HInv E)
    as (HInv1 & _ & Hobj & Hsame & id & w & -> & Hin).
  assert (Hm1 : usable_map m1) by (by eapply usable_insert).
  destruct (assign_at hasher_ max_size m1 id key w v HInv1 Hin)
    as (m' & Eas & _ & Hat & _ & Ho & Hsz & _).
  exists m'. split; [done |]. split; [by eapply usable_assign |]. split; [done |].
  split; [| split].
  - intros key' Hne. rewrite (Ho key' Hne).
    assert (Hkeep : insert hasher_ max_size m (key, ValueType_default) = Ok (m1, Node id))
      by done.
    apply (find_agree hasher_ max_size m m1 key' HInv HInv1).
    intros i w'. rewrite Hobj. destruct (decide (key ∈ keys (objects_ m))); [done |].
    rewrite elem_of_cons. split; [| by right].
    intros [[= _ ? _] | ?]; [congruence | done].
  - intros w0 Hw0. rewrite Hsz. destruct (decide (key ∈ keys (objects_ m))) as [Hp | Ha].
    + by rewrite (Hsame Hp).
    + apply (key_present hasher_ max_size m key HInv) in Ha. congruence.
  - intros Ha. apply (key_present hasher_ max_size m key HInv) in Ha.
    rewrite decide_False in Hobj by done. rewrite Hsz. unfold size. rewrite Hobj.
    simpl length. lia.
Qed.

(** X15 — What a loop from [begin()] to [end()] visits is the mapping: each
    key occurs once, the number of entries is the size, [at] returns the
    value paired with the key and throws for the keys that do not occur, and
    [empty] tells whether there is an entry. *)
Theorem entries_are_the_mapping m :
  usable_map m →
  NoDup ((entries m).*1) ∧ size m = Z.of_nat (length (entries m)) ∧
  (∀ key, at_ hasher_ m key = at_of key (entries m)) ∧
  (∀ key v, (key, v) ∈ entries m ↔ at_ hasher_ m key = Ok v) ∧
  (empty m = true ↔ entries m = []) ∧
  (begin_ m = end_ m ↔ entries m = []).
Proof.
  intros Hm. pose proof (to_Inv m Hm) as HInv.
  pose proof (st_keys _ _ (inv_store _ _ _ HInv)) as Hkeys. rewrite keys_entries in Hkeys.
  split; [done |]. split; [apply size_entries |].
  split; [intros key; by apply (at_entries hasher_ max_size) |]. split; [| split].
  - intros key v. rewrite (at_entries hasher_ max_size m key HInv). unfold at_of. split.
    + intros Hin. by rewrite (first_value_NoDup key v (entries m) Hkeys Hin).
    + destruct (first_value key (entries m)) as [w |] eqn:E; [| done].
      intros [= ->]. by apply first_value_Some.
  - unfold empty, entries. destruct (objects_ m); simpl; [done |].
    split; done.
  - unfold begin_, end_, entries. destruct (objects_ m) as [|[id o] l]; simpl; done.
Qed.

(** X16 — [Reallocate] builds the table from the entry list alone.  With a
    capacity or a neighbourhood size above the current one, and within the
    allocator's limit, it returns with the entries untouched and the table
    at the capacity and neighbourhood size asked for; when it returns
    [true], every entry is placed: the container invariant holds and [at]
    returns the value of each key. *)
Theorem Reallocate_rebuilds_from_entries m c n :
  store_ok (objects_ m) (next_node m) →
  0 < n ≤ c → c ≤ max_size →
  capacity m < c ∨ neighbourhood_size_ m < n →
  ∃ m' ok, Reallocate hasher_ max_size m c n = Ok (m', ok) ∧
    objects_ m' = objects_ m ∧ capacity m' = c ∧ neighbourhood_size_ m' = n ∧
    (ok = true →
     Inv hasher_ max_size m' ∧ ∀ key, at_ hasher_ m' key = at_of key (entries m)).
Proof.
  intros Hstore Hn Hc Hgrow. destruct max_size_ok as [Hmin Hbound].
  unfold Reallocate, capacity in *.
  destruct ((c <=? vsize (buckets_ m)) && (n <=? neighbourhood_size_ m)) eqn:E.
  { apply andb_true_iff in E as [?%Z.leb_le ?%Z.leb_le]. lia. }
  destruct (Z.ltb_spec max_size c) as [? | _]; [lia |]. cbn zeta.
  destruct (reinsert_spec hasher_ max_size (conj Hmin Hbound)
              (mkHashMap (objects_ m) (replicate (Z.to_nat c) Bucket_default) n (next_node m))
              [] (objects_ m)) as (m' & ok & E' & Hobj & Hnext & Hnbh & Hsz & Hfin);
    cbn [objects_ buckets_ neighbourhood_size_]; try done.
  { apply (st_ids _ _ Hstore). }
  { rewrite vsize_replicate; lia. }
  { apply table_ok_empty. small. }
  { apply nodes_ok_empty. lia. }
  cbn [objects_ buckets_ neighbourhood_size_ next_node] in *.
  rewrite vsize_replicate in Hsz by lia.
  exists m', ok. split; [done |]. split; [done |]. split; [done |]. split; [done |].
  intros Hok. destruct (Hfin Hok) as [Htable Hnodes].
  assert (HInv' : Inv hasher_ max_size m').
  { split.
    - by rewrite Hobj, Hnext.
    - split; unfold capacity; lia.
    - by rewrite Hnbh.
    - by rewrite Hobj. }
  split; [done |]. intros key. rewrite (at_entries hasher_ max_size m' key HInv').
  unfold entries. by rewrite Hobj.
Qed.

(** X17 — [HandleCollision] ends: within 64 passes of its loop it either
    throws [std::bad_alloc] or returns with the entries untouched and every
    one of them placed (the container invariant holds); the capacity and the
    neighbourhood size have grown by powers of 3. *)
Theorem HandleCollision_ends m :
  store_ok (objects_ m) (next_node m) → capacity_ok max_size m →
  HandleCollision hasher_ max_size collision_fuel m = Throw bad_alloc ∨
  ∃ m', HandleCollision hasher_ max_size collision_fuel m = Ok m' ∧
    objects_ m' = objects_ m ∧ Inv hasher_ max_size m' ∧ grown m m' ∧
    ∀ key, at_ hasher_ m' key = at_of key (entries m).
Proof.
  intros Hstore Hcap.
  destruct (HandleCollision_effect hasher_ max_size max_size_ok m Hstore Hcap)
    as [-> | (m' & E & Hobj & HInv' & Hg)]; [by left | right].
  exists m'. do 4 (split; [done |]). intros key.
  rewrite (at_entries hasher_ max_size m' key HInv'). unfold entries. by rewrite Hobj.
Qed.

(** X18 — The probe for a free bucket does not wrap around: when every
    bucket from the home of the key to the end of the table is occupied,
    [InsertObject] returns [buckets_.end()] and leaves the table as it is,
    whatever the buckets before the home hold. *)
Theorem InsertObject_does_not_wrap m id (o : OT) :
  0 < capacity m → deref (objects_ m) (Node id) = Ok o →
  (∀ i, home_index hasher_ (buckets_ m) o.1 ≤ i < capacity m →
        ob_at (buckets_ m) i ≠ EMPTY_BUCKET) →
  InsertObject hasher_ m (Node id) = Ok (m, capacity m).
Proof.
  intros Hpos Hderef Hfull. by apply (InsertObject_blocked hasher_ m id o).
Qed.

(** X19 — The hop loop ends, and keeps the table consistent and every
    placed entry placed.  When it yields a free bucket, that bucket is empty
    and lies at or after the start bucket, within the neighbourhood: the
    test [free_bucket < start_bucket] that follows the loop is never
    true. *)
Theorem hop_loop_ends_near_home (placed : list node) bs nbh start_bucket free_bucket :
  nodes_ok hasher_ placed bs → table_ok bs nbh →
  0 ≤ start_bucket ≤ free_bucket → free_bucket < vsize bs →
  ob_at bs free_bucket = EMPTY_BUCKET →
  (∀ i, start_bucket ≤ i < free_bucket → ob_at bs i ≠ EMPTY_BUCKET) →
  ∃ bs' r, hop_loop (scan_fuel bs) bs nbh start_bucket free_bucket = Ok (bs', r) ∧
    nodes_ok hasher_ placed bs' ∧ table_ok bs' nbh ∧ vsize bs' = vsize bs ∧
    ∀ f, r = Some f →
      start_bucket ≤ f ≤ free_bucket ∧ f < start_bucket + nbh ∧
      ob_at bs' f = EMPTY_BUCKET.
Proof.
  intros Hnodes Hok Hs Hf Hemp Hoccs.
  apply (hop_loop_spec (nodes_ok hasher_ placed)); try done.
  - apply nodes_ok_move_stable.
  - unfold scan_fuel, vsize in *. lia.
Qed.

(** X20 — No public operation on a usable container runs into undefined
    behaviour or fails to end: [find] and [erase] return, [at] returns or
    throws [std::out_of_range], and [insert], [operator[]] and the copy
    constructor return or throw [std::bad_alloc]. *)
Theorem operations_return_or_throw m key v :
  usable_map m →
  (∃ it, find hasher_ m key = Ok it ∧ it ≠ Singular) ∧
  (∃ m', erase hasher_ m key = Ok m') ∧
  ((∃ w, at_ hasher_ m key = Ok w) ∨ at_ hasher_ m key = Throw out_of_range) ∧
  ((∃ m' id, insert hasher_ max_size m (key, v) = Ok (m', Node id)) ∨
   insert hasher_ max_size m (key, v) = Throw bad_alloc) ∧
  ((∃ m' id, subscript hasher_ ValueType_default max_size m key = Ok (m', Node id)) ∨
   subscript hasher_ ValueType_default max_size m key = Throw bad_alloc) ∧
  ((∃ m', HashMap_copy hasher_ max_size m = Ok m') ∨
   HashMap_copy hasher_ max_size m = Throw bad_alloc).
Proof.
  intros Hm. pose proof (to_Inv m Hm) as HInv.
  split; [| split; [| split; [| split; [| split]]]].
  - destruct (find_deref hasher_ max_size m key HInv)
      as [(-> & _) | (id & w & -> & _)]; eexists; done.
  - destruct (erase_spec hasher_ max_size m key HInv) as (m' & -> & _). by exists m'.
  - destruct (at_spec hasher_ max_size m key HInv) as [[_ ->] | (id & w & _ & ->)];
      [by right | left; by exists w].
  - destruct (insert_spec hasher_ max_size max_size_ok m (key, v) HInv)
      as [-> | (m' & id & w & -> & _)]; [by right | left; by exists m', id].
  - unfold subscript.
    destruct (insert_spec hasher_ max_size max_size_ok m (key, ValueType_default) HInv)
      as [-> | (m' & id & w & -> & _)]; [by right | left; by exists m', id].
  - destruct (copy_effect hasher_ max_size max_size_ok m HInv)
      as [-> | (m' & -> & _)]; [by right | left; by exists m'].
Qed.

(** X21 — [FindObject] returns [buckets_.end()] when the key is absent, and
    otherwise the bucket that holds the entry of the key, which lies within
    the [H] buckets from the home of the key on. *)
Theorem FindObject_within_neighbourhood m key :
  usable_map m →
  ∃ r, FindObject hasher_ m key = Ok r ∧
    ((r = capacity m ∧ at_ hasher_ m key = Throw out_of_range) ∨
     (home_index hasher_ (buckets_ m) key ≤ r ∧
      r < home_index hasher_ (buckets_ m) key + neighbourhood_size_ m ∧
      r < capacity m ∧
      ob_at (buckets_ m) r = home_index hasher_ (buckets_ m) key ∧
      ∃ id v, it_at (buckets_ m) r = Node id ∧
              deref (objects_ m) (Node id) = Ok (key, v) ∧
              at_ hasher_ m key = Ok v)).
Proof.
  intros Hm. pose proof (to_Inv m Hm) as HInv.
  pose proof HInv as [Hstore Hcap Hok Hnodes].
  pose proof (st_ids _ _ Hstore) as Hnd.
  destruct (FindObject_spec hasher_ m key (Inv_pos hasher_ max_size m HInv) Hok Hnodes Hstore)
    as (r & E & [[-> Habs] | (Hr & Hoccr & id & v & Hit & Hin)]).
  - exists (vsize (buckets_ m)). split; [done |]. left. split; [done |].
    by apply (key_present hasher_ max_size m key HInv).
  - exists r. split; [done |]. right.
    destruct (nd_node _ _ _ Hnodes r Hr Hoccr) as (id' & o & Hit' & Hin' & Hhome).
    rewrite Hit in Hit'. injection Hit' as <-.
    pose proof (node_lookup_elem_of _ _ _ Hnd Hin) as E1.
    pose proof (node_lookup_elem_of _ _ _ Hnd Hin') as E2.
    rewrite E1 in E2. injection E2 as <-. cbn [fst] in Hhome.
    destruct (tb_home _ _ Hok r Hr Hoccr) as [Hlo Hhi]. rewrite Hhome in Hlo, Hhi.
    unfold capacity. split; [lia |]. split; [lia |]. split; [lia |]. split; [done |].
    exists id, v. split; [done |]. split; [by apply deref_Ok |].
    destruct (at_spec hasher_ max_size m key HInv) as [[Habs _] | (i & w & Hi & ->)].
    + exfalso. apply Habs. apply elem_of_keys. by exists id, v.
    + by destruct (store_ok_key_unique _ _ i id key w v Hstore Hi Hin) as [_ ->].
Qed.

(** X22 — [insert] of an absent key whose first free bucket at or after
    its home lies within the neighbourhood does not throw and does not
    rehash: the entry goes into that bucket, where [FindObject] finds it,
    and no other bucket changes its occupant. *)
Theorem insert_takes_first_free_bucket m key v f :
  usable_map m → find hasher_ m key = Ok End →
  home_index hasher_ (buckets_ m) key ≤ f < capacity m →
  f < home_index hasher_ (buckets_ m) key + neighbourhood_size_ m →
  ob_at (buckets_ m) f = EMPTY_BUCKET →
  (∀ i, home_index hasher_ (buckets_ m) key ≤ i < f →
        ob_at (buckets_ m) i ≠ EMPTY_BUCKET) →
  ∃ m', insert hasher_ max_size m (key, v) = Ok (m', begin_ m') ∧
    FindObject hasher_ m' key = Ok f ∧
    capacity m' = capacity m ∧ neighbourhood_size_ m' = neighbourhood_size_ m ∧
    ∀ j, j ≠ f → ob_at (buckets_ m') j = ob_at (buckets_ m) j ∧
                 it_at (buckets_ m') j = it_at (buckets_ m) j.
Proof.
  intros Hm Hfind Hf Hnbh Hemp Hoccs. pose proof (to_Inv m Hm) as HInv.
  apply (key_present hasher_ max_size m key HInv) in Hfind as Habs.
  pose proof HInv as [Hstore Hcap Hok Hnodes].
  pose proof (Inv_pos hasher_ max_size m HInv) as Hpos.
  pose proof (tb_size _ _ Hok) as Hsize.
  pose proof (home_index_range hasher_ (buckets_ m) key Hpos) as Hhome.
  set (m1 := mkHashMap ((next_node m, (key, v)) :: objects_ m) (buckets_ m)
               (neighbourhood_size_ m) (S (next_node m))).
  destruct (InsertObject_fast hasher_ m1 (next_node m) (key, v) f)
    as (bs' & Eins & Hok' & Hsz' & Hob' & Hit'); try done.
  { cbn [m1 objects_ deref node_lookup]. by rewrite Nat.eqb_refl. }
  cbn [m1 buckets_ neighbourhood_size_ fst] in Hok', Hsz', Hob', Hit'.
  assert (E : insert hasher_ max_size m (key, v)
              = Ok (with_buckets m1 bs', Node (next_node m))).
  { unfold insert. cbn [fst snd].
    destruct (FindObject_spec hasher_ m key Hpos Hok Hnodes Hstore)
      as (r & -> & [[-> _] | (_ & _ & id & w & _ & Hin)]); cbn [bind].
    2: { exfalso. apply Habs. apply elem_of_keys. by exists id, w. }
    rewrite Z.eqb_refl. cbn [negb]. cbn zeta.
    match goal with |- context [InsertObject _ ?x _] => change x with m1 end.
    rewrite Eins. cbn [bind].
    cbn [with_buckets buckets_]. unfold capacity in *.
    destruct (Z.eqb_spec f (vsize bs')) as [? | _]; [lia |]. cbn [bind].
    cbn [with_buckets buckets_]. rewrite read_in_range by lia. cbn [bind]. fold_views.
    rewrite Hit'. unfold upd. by rewrite decide_True. }
  destruct (insert_spec hasher_ max_size max_size_ok m (key, v) HInv)
    as [E' | (m' & id & w & E' & HInv' & Hin & _)]; [congruence |].
  rewrite E in E'. injection E' as <- <-.
  exists (with_buckets m1 bs'). split; [done |].
  pose proof HInv' as [Hstore' _ Hok2 Hnodes'].
  cbn [with_buckets m1 buckets_ objects_ neighbourhood_size_ next_node] in *.
  split; [| split; [done | split; [done |]]].
  - destruct (FindObject_spec hasher_ (with_buckets m1 bs') key
                (Inv_pos hasher_ max_size _ HInv') Hok2 Hnodes' Hstore')
      as (r & -> & [[_ Habs'] | (Hr & Hoccr & id & w' & Hitr & Hin')]).
    { exfalso. apply Habs'. apply elem_of_keys. by exists (next_node m), w. }
    f_equal. cbn [with_buckets m1 buckets_ objects_] in *.
    destruct (store_ok_key_unique _ _ id (next_node m) key w' w Hstore' Hin' Hin) as [-> _].
    unfold capacity in *.
    apply (nd_inj _ _ _ Hnodes'); [done | lia | done | |].
    + rewrite Hob'. unfold upd. rewrite decide_True by done.
      pose proof (home_index_range hasher_ (buckets_ m) key Hpos). small.
    + rewrite Hitr, Hit'. unfold upd. by rewrite decide_True.
  - intros j Hj. rewrite Hob', Hit'. unfold upd. by rewrite !decide_False.
Qed.

(** X23 — [insert] of an absent key into a container that holds as many
    entries as it has buckets triples the capacity at least. *)
Theorem insert_into_full_table_triples m key v m' it :
  usable_map m → size m = capacity m → find hasher_ m key = Ok End →
  insert hasher_ max_size m (key, v) = Ok (m', it) →
  3 * capacity m ≤ capacity m'.
Proof.
  intros Hm Hfull Hfind. pose proof (to_Inv m Hm) as HInv.
  apply (key_present hasher_ max_size m key HInv) in Hfind as Habs.
  pose proof HInv as [Hstore Hcap Hok Hnodes].
  pose proof (Inv_pos hasher_ max_size m HInv) as Hpos.
  assert (Hall : ∀ i, 0 ≤ i < vsize (buckets_ m) → ob_at (buckets_ m) i ≠ EMPTY_BUCKET).
  { apply occupied_all. rewrite <- (size_occupied hasher_ max_size m HInv). done. }
  unfold insert. cbn [fst snd].
  destruct (FindObject_spec hasher_ m key Hpos Hok Hnodes Hstore)
    as (r & -> & [[-> _] | (_ & _ & id & w & _ & Hin)]); cbn [bind].
  2: { exfalso. apply Habs. apply elem_of_keys. by exists id, w. }
  rewrite Z.eqb_refl. cbn [negb]. cbn zeta.
  match goal with |- context [InsertObject _ ?x _] => set (m1 := x) end.
  rewrite (InsertObject_blocked hasher_ m1 (next_node m) (key, v)).
  - cbn [bind]. unfold capacity at 1. rewrite Z.eqb_refl.
    destruct (HandleCollision hasher_ max_size collision_fuel m1) as [m2 | | |] eqn:Ecol;
      try done.
    cbn [bind].
    destruct (FindObject hasher_ m2 key) as [r | | |]; try done. cbn [bind].
    destruct (read (buckets_ m2) r) as [b | | |]; try done. cbn [bind].
    intros [= <- _].
    apply (HandleCollision_full hasher_ max_size max_size_ok collision_fuel m1 m2);
      [| | | done].
    + cbn [m1 objects_ next_node]. by apply store_ok_cons.
    + destruct Hcap as [? ? ?]. by split.
    + unfold size, capacity in *. cbn [m1 objects_ buckets_]. simpl length. lia.
  - done.
  - cbn [m1 objects_ deref node_lookup]. by rewrite Nat.eqb_refl.
  - intros i Hi. apply Hall. cbn [m1 buckets_ fst] in Hi. unfold capacity in Hi.
    pose proof (home_index_range hasher_ (buckets_ m) key Hpos).
    cbn [m1 buckets_] in Hi. lia.
Qed.

(** X24 — [erase] of a key followed by [insert] of that key with a value
    either throws [std::bad_alloc] or leaves the key with that value,
    whatever it held before, and every other key with the value it had. *)
Theorem erase_then_insert m key v m1 :
  usable_map m → erase hasher_ m key = Ok m1 →
  insert hasher_ max_size m1 (key, v) = Throw bad_alloc ∨
  ∃ m2 it, insert hasher_ max_size m1 (key, v) = Ok (m2, it) ∧
    at_ hasher_ m2 key = Ok v ∧ deref (objects_ m2) it = Ok (key, v) ∧
    ∀ key', key' ≠ key → at_ hasher_ m2 key' = at_ hasher_ m key'.
Proof.
  intros Hm Her. pose proof (to_Inv m Hm) as HInv.
  destruct (erase_spec hasher_ max_size m key HInv)
    as (m1' & E1 & HInv1 & _ & _ & _ & Habs1 & Hmem & _).
  rewrite E1 in Her. injection Her as ->.
  destruct (insert_total hasher_ max_size max_size_ok m1 (key, v) HInv1)
    as [-> | (m2 & it & E2)]; [by left | right].
  exists m2, it. split; [done |].
  destruct (insert_effect hasher_ max_size max_size_ok m1 key v m2 it HInv1 E2)
    as (HInv2 & _ & Hobj & _ & id & w & -> & Hin).
  rewrite decide_False in Hobj by done.
  pose proof (inv_store _ _ _ HInv2) as Hstore2.
  assert (Hnew : (next_node m1, (key, v)) ∈ objects_ m2) by (rewrite Hobj; left).
  destruct (store_ok_key_unique _ _ id (next_node m1) key w v Hstore2 Hin Hnew) as [-> ->].
  destruct (find_deref hasher_ max_size m2 key HInv2)
    as [(_ & _ & Habs2) | (id & w & _ & _ & Hat & Hin2)].
  { exfalso. apply Habs2. apply elem_of_keys. by exists (next_node m1), v. }
  destruct (store_ok_key_unique _ _ id (next_node m1) key w v Hstore2 Hin2 Hnew) as [-> ->].
  split; [done |]. split.
  { apply deref_Ok. apply node_lookup_elem_of; [apply (st_ids _ _ Hstore2) | done]. }
  intros key' Hne.
  destruct (find_agree hasher_ max_size m1 m2 key' HInv1 HInv2) as [_ E12].
  { intros i w'. rewrite Hobj, elem_of_cons. split; [| by right].
    intros [[= _ ? _] | ?]; [congruence | done]. }
  destruct (find_agree hasher_ max_size m m1 key' HInv HInv1) as [_ E01].
  { intros i w'. rewrite Hmem. simpl. tauto. }
  congruence.
Qed.

End further_properties_2.

(** * The further properties at concrete containers *)

Lemma map_of_five_usable : usable int_hasher 0 int_max_size map_of_five.
Proof. apply reachable_usable, map_of_five_reachable. Qed.

Lemma map_of_five_find_7 : find int_hasher map_of_five 7 = Ok End.
Proof. vm_compute. reflexivity. Qed.

Lemma map_of_five_insert_7 :
  insert int_hasher int_max_size map_of_five (7, 70) = Ok (map_of_six, Node 5).
Proof. vm_compute. reflexivity. Qed.

Lemma map_of_five_find_3 : find int_hasher map_of_five 3 = Ok (Node 3).
Proof. vm_compute. reflexivity. Qed.

Lemma map_of_five_store :
  store_ok (objects_ map_of_five) (next_node map_of_five).
Proof.
  apply (inv_store int_hasher int_max_size).
  apply (usable_Inv int_hasher 0 int_max_size int_max_size_ok), map_of_five_usable.
Qed.

Lemma table_of_five_nodes : nodes_ok int_hasher (objects_ map_of_five) table_of_five.
Proof.
  apply (inv_nodes int_hasher int_max_size map_of_five).
  apply (usable_Inv int_hasher 0 int_max_size int_max_size_ok), map_of_five_usable.
Qed.

Lemma map_awaiting_rehash_full i :
  home_index int_hasher (buckets_ map_awaiting_rehash) (4, 40).1 ≤ i
    < capacity map_awaiting_rehash →
  ob_at (buckets_ map_awaiting_rehash) i ≠ EMPTY_BUCKET.
Proof.
  replace (home_index int_hasher (buckets_ map_awaiting_rehash) (4, 40).1) with 0
    by reflexivity.
  replace (capacity map_awaiting_rehash) with 4 by reflexivity.
  intros Hi. assert (i = 0 ∨ i = 1 ∨ i = 2 ∨ i = 3) as [-> | [-> | [-> | ->]]] by lia;
    by vm_compute.
Qed.

Lemma insert_new_key_witness :
  usable int_hasher 0 int_max_size map_of_five ∧
  find int_hasher map_of_five 7 = Ok End ∧
  (insert int_hasher int_max_size map_of_five (7, 70) = Throw bad_alloc ∨
   ∃ m' it, insert int_hasher int_max_size map_of_five (7, 70) = Ok (m', it) ∧
     it = begin_ m' ∧ find int_hasher m' 7 = Ok it ∧
     deref (objects_ m') it = Ok (7, 70) ∧ at_ int_hasher m' 7 = Ok 70 ∧
     entries m' = (7, 70) :: entries map_of_five ∧ size m' = size map_of_five + 1).
Proof.
  split; [exact map_of_five_usable |]. split; [exact map_of_five_find_7 |].
  exact (insert_new_key int_hasher 0 int_max_size int_max_size_ok map_of_five 7 70
           map_of_five_usable map_of_five_find_7).
Defined.

Lemma insert_keeps_other_entries_witness :
  usable int_hasher 0 int_max_size map_of_five ∧
  insert int_hasher int_max_size map_of_five (7, 70) = Ok (map_of_six, Node 5) ∧
  (∀ key', key' ≠ 7 →
     find int_hasher map_of_six key' = find int_hasher map_of_five key' ∧
     at_ int_hasher map_of_six key' = at_ int_hasher map_of_five key') ∧
  (∀ id o, deref (objects_ map_of_five) (Node id) = Ok o →
           deref (objects_ map_of_six) (Node id) = Ok o).
Proof.
  split; [exact map_of_five_usable |]. split; [exact map_of_five_insert_7 |].
  exact (insert_keeps_other_entries int_hasher 0 int_max_size int_max_size_ok
           map_of_five 7 70 map_of_six (Node 5) map_of_five_usable map_of_five_insert_7).
Defined.

Lemma insert_never_shrinks_witness :
  usable int_hasher 0 int_max_size map_of_five ∧
  insert int_hasher int_max_size map_of_five (7, 70) = Ok (map_of_six, Node 5) ∧
  grown map_of_five map_of_six ∧ capacity map_of_five ≤ capacity map_of_six ∧
  neighbourhood_size_ map_of_five ≤ neighbourhood_size_ map_of_six.
Proof.
  split; [exact map_of_five_usable |]. split; [exact map_of_five_insert_7 |].
  exact (insert_never_shrinks int_hasher 0 int_max_size int_max_size_ok
           map_of_five (7, 70) map_of_six (Node 5) map_of_five_usable map_of_five_insert_7).
Defined.

Lemma capacity_is_four_times_power_of_three_witness :
  usable int_hasher 0 int_max_size map_of_five ∧
  ∃ a b : nat, capacity map_of_five = 4 * 3 ^ Z.of_nat a ∧
               neighbourhood_size_ map_of_five = 4 * 3 ^ Z.of_nat b ∧ (b ≤ a)%nat.
Proof.
  split; [exact map_of_five_usable |].
  exact (capacity_is_four_times_power_of_three int_hasher 0 int_max_size int_max_size_ok
           map_of_five map_of_five_usable).
Defined.

Lemma erase_removes_only_key_witness :
  usable int_hasher 0 int_max_size map_of_five ∧
  ∃ m', erase int_hasher map_of_five 3 = Ok m' ∧
    entries m' = filter (λ o, o.1 ≠ 3) (entries map_of_five) ∧
    capacity m' = capacity map_of_five ∧
    neighbourhood_size_ m' = neighbourhood_size_ map_of_five ∧
    (∀ v, at_ int_hasher map_of_five 3 = Ok v → size m' = size map_of_five - 1) ∧
    (∀ key', key' ≠ 3 →
       find int_hasher m' key' = find int_hasher map_of_five key' ∧
       at_ int_hasher m' key' = at_ int_hasher map_of_five key') ∧
    (∀ id o, o.1 ≠ 3 → deref (objects_ map_of_five) (Node id) = Ok o →
             deref (objects_ m') (Node id) = Ok o).
Proof.
  split; [exact map_of_five_usable |].
  exact (erase_removes_only_key int_hasher 0 int_max_size int_max_size_ok
           map_of_five 3 map_of_five_usable).
Defined.

Lemma find_agrees_with_at_witness :
  usable int_hasher 0 int_max_size map_of_five ∧
  (find int_hasher map_of_five 3 = Ok End ↔
   at_ int_hasher map_of_five 3 = Throw out_of_range) ∧
  (∀ v, at_ int_hasher map_of_five 3 = Ok v ↔
        ∃ id, find int_hasher map_of_five 3 = Ok (Node id) ∧
              deref (objects_ map_of_five) (Node id) = Ok (3, v)).
Proof.
  split; [exact map_of_five_usable |].
  exact (find_agrees_with_at int_hasher 0 int_max_size int_max_size_ok
           map_of_five 3 map_of_five_usable).
Defined.

Lemma subscript_finds_or_adds_default_witness :
  usable int_hasher 0 int_max_size map_of_five ∧
  (subscript int_hasher 0 int_max_size map_of_five 7 = Throw bad_alloc ∨
   ∃ m' it w, subscript int_hasher 0 int_max_size map_of_five 7 = Ok (m', it) ∧
     deref (objects_ m') it = Ok (7, w) ∧ at_ int_hasher m' 7 = Ok w ∧
     (∀ v, at_ int_hasher map_of_five 7 = Ok v → m' = map_of_five ∧ w = v) ∧
     (at_ int_hasher map_of_five 7 = Throw out_of_range →
      w = 0 ∧ entries m' = (7, 0) :: entries map_of_five)).
Proof.
  split; [exact map_of_five_usable |].
  exact (subscript_finds_or_adds_default int_hasher 0 int_max_size int_max_size_ok
           map_of_five 7 map_of_five_usable).
Defined.

Lemma size_counts_occupied_buckets_witness :
  usable int_hasher 0 int_max_size map_of_five ∧
  size map_of_five = Z.of_nat (length (occupied (buckets_ map_of_five))) ∧
  size map_of_five ≤ capacity map_of_five.
Proof.
  split; [exact map_of_five_usable |].
  exact (size_counts_occupied_buckets int_hasher 0 int_max_size int_max_size_ok
           map_of_five map_of_five_usable).
Defined.

Lemma chain_length_bound_witness :
  usable int_hasher 0 int_max_size map_of_five ∧
  0 ≤ 3 < capacity map_of_five ∧
  Z.of_nat (length (chain (buckets_ map_of_five) 3)) ≤ neighbourhood_size_ map_of_five ∧
  ∀ i, i ∈ chain (buckets_ map_of_five) 3 →
       3 ≤ i < 3 + neighbourhood_size_ map_of_five ∧ i < capacity map_of_five.
Proof.
  assert (Hh : 0 ≤ 3 < capacity map_of_five)
    by (replace (capacity map_of_five) with 12 by reflexivity; lia).
  split; [exact map_of_five_usable |]. split; [exact Hh |].
  exact (chain_length_bound int_hasher 0 int_max_size int_max_size_ok
           map_of_five 3 map_of_five_usable Hh).
Defined.

Lemma range_constructor_first_wins_witness :
  HashMap_range int_hasher int_max_size [(3, 4); (3, 5); (4, 7); (-1, -3)]
    = Throw bad_alloc ∨
  ∃ m, HashMap_range int_hasher int_max_size [(3, 4); (3, 5); (4, 7); (-1, -3)] = Ok m ∧
    usable int_hasher 0 int_max_size m ∧
    (∀ key, at_ int_hasher m key = at_of key [(3, 4); (3, 5); (4, 7); (-1, -3)]) ∧
    size m = Z.of_nat (length (remove_dups ([(3, 4); (3, 5); (4, 7); (-1, -3)].*1))) ∧
    entries m = insert_entries [] [(3, 4); (3, 5); (4, 7); (-1, -3)].
Proof.
  exact (range_constructor_first_wins int_hasher 0 int_max_size int_max_size_ok
           [(3, 4); (3, 5); (4, 7); (-1, -3)]).
Defined.

Lemma copy_constructor_copies_witness :
  usable int_hasher 0 int_max_size map_of_five ∧
  (HashMap_copy int_hasher int_max_size map_of_five = Throw bad_alloc ∨
   ∃ m, HashMap_copy int_hasher int_max_size map_of_five = Ok m ∧
     entries m = reverse (entries map_of_five) ∧
     (∀ key, at_ int_hasher m key = at_ int_hasher map_of_five key) ∧
     size m = size map_of_five ∧
     capacity map_of_five ≤ capacity m ∧
     neighbourhood_size_ map_of_five ≤ neighbourhood_size_ m).
Proof.
  split; [exact map_of_five_usable |].
  exact (copy_constructor_copies int_hasher 0 int_max_size int_max_size_ok
           map_of_five map_of_five_usable).
Defined.

Lemma insert_then_erase_witness :
  usable int_hasher 0 int_max_size map_of_five ∧
  find int_hasher map_of_five 7 = Ok End ∧
  insert int_hasher int_max_size map_of_five (7, 70) = Ok (map_of_six, Node 5) ∧
  ∃ m2, erase int_hasher map_of_six 7 = Ok m2 ∧
    entries m2 = entries map_of_five ∧ size m2 = size map_of_five ∧
    ∀ key', find int_hasher m2 key' = find int_hasher map_of_five key' ∧
            at_ int_hasher m2 key' = at_ int_hasher map_of_five key'.
Proof.
  split; [exact map_of_five_usable |]. split; [exact map_of_five_find_7 |].
  split; [exact map_of_five_insert_7 |].
  exact (insert_then_erase int_hasher 0 int_max_size int_max_size_ok
           map_of_five 7 70 map_of_six (Node 5)
           map_of_five_usable map_of_five_find_7 map_of_five_insert_7).
Defined.

Lemma assign_through_handle_witness :
  usable int_hasher 0 int_max_size map_of_five ∧
  find int_hasher map_of_five 3 = Ok (Node 3) ∧
  ∃ m', assign map_of_five (Node 3) 99 = Ok m' ∧ usable int_hasher 0 int_max_size m' ∧
    at_ int_hasher m' 3 = Ok 99 ∧
    (∀ key', find int_hasher m' key' = find int_hasher map_of_five key') ∧
    (∀ key', key' ≠ 3 → at_ int_hasher m' key' = at_ int_hasher map_of_five key') ∧
    size m' = size map_of_five ∧ buckets_ m' = buckets_ map_of_five.
Proof.
  split; [exact map_of_five_usable |]. split; [exact map_of_five_find_3 |].
  exact (assign_through_handle int_hasher 0 int_max_size int_max_size_ok
           map_of_five 3 3%nat 99 map_of_five_usable map_of_five_find_3).
Defined.

Lemma subscript_assign_overwrites_witness :
  usable int_hasher 0 int_max_size map_of_five ∧
  (subscript_assign int_hasher 0 int_max_size map_of_five 3 7 = Throw bad_alloc ∨
   ∃ m', subscript_assign int_hasher 0 int_max_size map_of_five 3 7 = Ok m' ∧
     usable int_hasher 0 int_max_size m' ∧ at_ int_hasher m' 3 = Ok 7 ∧
     (∀ key', key' ≠ 3 → at_ int_hasher m' key' = at_ int_hasher map_of_five key') ∧
     (∀ w, at_ int_hasher map_of_five 3 = Ok w → size m' = size map_of_five) ∧
     (at_ int_hasher map_of_five 3 = Throw out_of_range →
      size m' = size map_of_five + 1)).
Proof.
  split; [exact map_of_five_usable |].
  exact (subscript_assign_overwrites int_hasher 0 int_max_size int_max_size_ok
           map_of_five 3 7 map_of_five_usable).
Defined.

Lemma entries_are_the_mapping_witness :
  usable int_hasher 0 int_max_size map_of_five ∧
  NoDup ((entries map_of_five).*1) ∧
  size map_of_five = Z.of_nat (length (entries map_of_five)) ∧
  (∀ key, at_ int_hasher map_of_five key = at_of key (entries map_of_five)) ∧
  (∀ key v, (key, v) ∈ entries map_of_five ↔ at_ int_hasher map_of_five key = Ok v) ∧
  (empty map_of_five = true ↔ entries map_of_five = []) ∧
  (begin_ map_of_five = end_ map_of_five ↔ entries map_of_five = []).
Proof.
  split; [exact map_of_five_usable |].
  exact (entries_are_the_mapping int_hasher 0 int_max_size int_max_size_ok
           map_of_five map_of_five_usable).
Defined.

Lemma Reallocate_rebuilds_from_entries_witness :
  store_ok (objects_ map_of_five) (next_node map_of_five) ∧
  0 < 4 ≤ 36 ∧ 36 ≤ int_max_size ∧
  (capacity map_of_five < 36 ∨ neighbourhood_size_ map_of_five < 4) ∧
  ∃ m' ok, Reallocate int_hasher int_max_size map_of_five 36 4 = Ok (m', ok) ∧
    objects_ m' = objects_ map_of_five ∧ capacity m' = 36 ∧
    neighbourhood_size_ m' = 4 ∧
    (ok = true →
     Inv int_hasher int_max_size m' ∧
     ∀ key, at_ int_hasher m' key = at_of key (entries map_of_five)).
Proof.
  assert (Hn : 0 < 4 ≤ 36) by lia.
  assert (Hc : 36 ≤ int_max_size) by (unfold int_max_size; lia).
  assert (Hgrow : capacity map_of_five < 36 ∨ neighbourhood_size_ map_of_five < 4).
  { left. replace (capacity map_of_five) with 12 by reflexivity. lia. }
  split; [exact map_of_five_store |]. split; [exact Hn |]. split; [exact Hc |].
  split; [exact Hgrow |].
  exact (Reallocate_rebuilds_from_entries int_hasher int_max_size int_max_size_ok
           map_of_five 36 4 map_of_five_store Hn Hc Hgrow).
Defined.

Lemma HandleCollision_ends_witness :
  store_ok (objects_ map_awaiting_rehash) (next_node map_awaiting_rehash) ∧
  capacity_ok int_max_size map_awaiting_rehash ∧
  (HandleCollision int_hasher int_max_size collision_fuel map_awaiting_rehash
     = Throw bad_alloc ∨
   ∃ m', HandleCollision int_hasher int_max_size collision_fuel map_awaiting_rehash
           = Ok m' ∧
     objects_ m' = objects_ map_awaiting_rehash ∧ Inv int_hasher int_max_size m' ∧
     grown map_awaiting_rehash m' ∧
     ∀ key, at_ int_hasher m' key = at_of key (entries map_awaiting_rehash)).
Proof.
  split; [exact map_awaiting_rehash_store |].
  split; [exact map_awaiting_rehash_capacity |].
  exact (HandleCollision_ends int_hasher int_max_size int_max_size_ok
           map_awaiting_rehash map_awaiting_rehash_store map_awaiting_rehash_capacity).
Defined.

Lemma InsertObject_does_not_wrap_witness :
  0 < capacity map_awaiting_rehash ∧
  deref (objects_ map_awaiting_rehash) (Node 4) = Ok (4, 40) ∧
  (∀ i, home_index int_hasher (buckets_ map_awaiting_rehash) (4, 40).1 ≤ i
          < capacity map_awaiting_rehash →
        ob_at (buckets_ map_awaiting_rehash) i ≠ EMPTY_BUCKET) ∧
  InsertObject int_hasher map_awaiting_rehash (Node 4)
    = Ok (map_awaiting_rehash, capacity map_awaiting_rehash).
Proof.
  assert (Hpos : 0 < capacity map_awaiting_rehash)
    by (replace (capacity map_awaiting_rehash) with 4 by reflexivity; lia).
  assert (Hderef : deref (objects_ map_awaiting_rehash) (Node 4) = Ok (4, 40))
    by reflexivity.
  split; [exact Hpos |]. split; [exact Hderef |].
  split; [exact map_awaiting_rehash_full |].
  exact (InsertObject_does_not_wrap int_hasher map_awaiting_rehash 4%nat (4, 40)
           Hpos Hderef map_awaiting_rehash_full).
Defined.

Lemma hop_loop_ends_near_home_witness :
  nodes_ok int_hasher (objects_ map_of_five) table_of_five ∧
  table_ok table_of_five 4 ∧ 0 ≤ 0 ≤ 5 ∧ 5 < vsize table_of_five ∧
  ob_at table_of_five 5 = EMPTY_BUCKET ∧
  (∀ i, 0 ≤ i < 5 → ob_at table_of_five i ≠ EMPTY_BUCKET) ∧
  ∃ bs' r, hop_loop (scan_fuel table_of_five) table_of_five 4 0 5 = Ok (bs', r) ∧
    nodes_ok int_hasher (objects_ map_of_five) bs' ∧ table_ok bs' 4 ∧
    vsize bs' = vsize table_of_five ∧
    ∀ f, r = Some f → 0 ≤ f ≤ 5 ∧ f < 0 + 4 ∧ ob_at bs' f = EMPTY_BUCKET.
Proof.
  assert (Hs : 0 ≤ 0 ≤ 5) by lia.
  assert (Hf : 5 < vsize table_of_five)
    by (replace (vsize table_of_five) with 12 by reflexivity; lia).
  assert (Hemp : ob_at table_of_five 5 = EMPTY_BUCKET) by reflexivity.
  split; [exact table_of_five_nodes |]. split; [exact table_of_five_ok |].
  split; [exact Hs |]. split; [exact Hf |]. split; [exact Hemp |].
  split; [exact table_of_five_run |].
  exact (hop_loop_ends_near_home int_hasher (objects_ map_of_five) table_of_five 4 0 5
           table_of_five_nodes table_of_five_ok Hs Hf Hemp table_of_five_run).
Defined.

Lemma operations_return_or_throw_witness :
  usable int_hasher 0 int_max_size map_of_five ∧
  (∃ it, find int_hasher map_of_five 3 = Ok it ∧ it ≠ Singular) ∧
  (∃ m', erase int_hasher map_of_five 3 = Ok m') ∧
  ((∃ w, at_ int_hasher map_of_five 3 = Ok w) ∨
   at_ int_hasher map_of_five 3 = Throw out_of_range) ∧
  ((∃ m' id, insert int_hasher int_max_size map_of_five (3, 0) = Ok (m', Node id)) ∨
   insert int_hasher int_max_size map_of_five (3, 0) = Throw bad_alloc) ∧
  ((∃ m' id, subscript int_hasher 0 int_max_size map_of_five 3 = Ok (m', Node id)) ∨
   subscript int_hasher 0 int_max_size map_of_five 3 = Throw bad_alloc) ∧
  ((∃ m', HashMap_copy int_hasher int_max_size map_of_five = Ok m') ∨
   HashMap_copy int_hasher int_max_size map_of_five = Throw bad_alloc).
Proof.
  split; [exact map_of_five_usable |].
  exact (operations_return_or_throw int_hasher 0 int_max_size int_max_size_ok
           map_of_five 3 0 map_of_five_usable).
Defined.

Lemma FindObject_within_neighbourhood_witness :
  usable int_hasher 0 int_max_size map_of_five ∧
  ∃ r, FindObject int_hasher map_of_five 3 = Ok r ∧
    ((r = capacity map_of_five ∧ at_ int_hasher map_of_five 3 = Throw out_of_range) ∨
     (home_index int_hasher (buckets_ map_of_five) 3 ≤ r ∧
      r < home_index int_hasher (buckets_ map_of_five) 3
          + neighbourhood_size_ map_of_five ∧
      r < capacity map_of_five ∧
      ob_at (buckets_ map_of_five) r = home_index int_hasher (buckets_ map_of_five) 3 ∧
      ∃ id v, it_at (buckets_ map_of_five) r = Node id ∧
              deref (objects_ map_of_five) (Node id) = Ok (3, v) ∧
              at_ int_hasher map_of_five 3 = Ok v)).
Proof.
  split; [exact map_of_five_usable |].
  exact (FindObject_within_neighbourhood int_hasher 0 int_max_size int_max_size_ok
           map_of_five 3 map_of_five_usable).
Defined.

Lemma map_of_five_find_14 : find int_hasher map_of_five 14 = Ok End.
Proof. vm_compute. reflexivity. Qed.

Lemma map_of_five_run_from_2 i :
  home_index int_hasher (buckets_ map_of_five) 14 ≤ i < 5 →
  ob_at (buckets_ map_of_five) i ≠ EMPTY_BUCKET.
Proof.
  replace (home_index int_hasher (buckets_ map_of_five) 14) with 2 by reflexivity.
  intros Hi. assert (i = 2 ∨ i = 3 ∨ i = 4) as [-> | [-> | ->]] by lia; by vm_compute.
Qed.

Lemma insert_takes_first_free_bucket_witness :
  usable int_hasher 0 int_max_size map_of_five ∧
  find int_hasher map_of_five 14 = Ok End ∧
  home_index int_hasher (buckets_ map_of_five) 14 ≤ 5 < capacity map_of_five ∧
  5 < home_index int_hasher (buckets_ map_of_five) 14
      + neighbourhood_size_ map_of_five ∧
  ob_at (buckets_ map_of_five) 5 = EMPTY_BUCKET ∧
  (∀ i, home_index int_hasher (buckets_ map_of_five) 14 ≤ i < 5 →
        ob_at (buckets_ map_of_five) i ≠ EMPTY_BUCKET) ∧
  ∃ m', insert int_hasher int_max_size map_of_five (14, 140) = Ok (m', begin_ m') ∧
    FindObject int_hasher m' 14 = Ok 5 ∧
    capacity m' = capacity map_of_five ∧
    neighbourhood_size_ m' = neighbourhood_size_ map_of_five ∧
    ∀ j, j ≠ 5 → ob_at (buckets_ m') j = ob_at (buckets_ map_of_five) j ∧
                 it_at (buckets_ m') j = it_at (buckets_ map_of_five) j.
Proof.
  assert (Hf : home_index int_hasher (buckets_ map_of_five) 14 ≤ 5
               < capacity map_of_five).
  { replace (home_index int_hasher (buckets_ map_of_five) 14) with 2 by reflexivity.
    replace (capacity map_of_five) with 12 by reflexivity. lia. }
  assert (Hnbh : 5 < home_index int_hasher (buckets_ map_of_five) 14
                     + neighbourhood_size_ map_of_five).
  { replace (home_index int_hasher (buckets_ map_of_five) 14) with 2 by reflexivity.
    replace (neighbourhood_size_ map_of_five) with 4 by reflexivity. lia. }
  assert (Hemp : ob_at (buckets_ map_of_five) 5 = EMPTY_BUCKET) by reflexivity.
  split; [exact map_of_five_usable |]. split; [exact map_of_five_find_14 |].
  split; [exact Hf |]. split; [exact Hnbh |]. split; [exact Hemp |].
  split; [exact map_of_five_run_from_2 |].
  exact (insert_takes_first_free_bucket int_hasher 0 int_max_size int_max_size_ok
           map_of_five 14 140 5 map_of_five_usable map_of_five_find_14
           Hf Hnbh Hemp map_of_five_run_from_2).
Defined.

Lemma map_of_four_usable : usable int_hasher 0 int_max_size map_of_four.
Proof.
  apply (insert_all_usable int_hasher 0 int_max_size HashMap_new
           [(0, 0); (1, 10); (2, 20); (3, 30)]); [apply usable_new | by vm_compute].
Qed.

Lemma map_of_four_full : size map_of_four = capacity map_of_four.
Proof. reflexivity. Qed.

Lemma map_of_four_find_4 : find int_hasher map_of_four 4 = Ok End.
Proof. vm_compute. reflexivity. Qed.

Lemma map_of_four_insert_4 :
  insert int_hasher int_max_size map_of_four (4, 40) = Ok (map_of_five, Node 4).
Proof. vm_compute. reflexivity. Qed.

Lemma insert_into_full_table_triples_witness :
  usable int_hasher 0 int_max_size map_of_four ∧
  size map_of_four = capacity map_of_four ∧
  find int_hasher map_of_four 4 = Ok End ∧
  insert int_hasher int_max_size map_of_four (4, 40) = Ok (map_of_five, Node 4) ∧
  3 * capacity map_of_four ≤ capacity map_of_five.
Proof.
  split; [exact map_of_four_usable |]. split; [exact map_of_four_full |].
  split; [exact map_of_four_find_4 |]. split; [exact map_of_four_insert_4 |].
  exact (insert_into_full_table_triples int_hasher 0 int_max_size int_max_size_ok
           map_of_four 4 40 map_of_five (Node 4)
           map_of_four_usable map_of_four_full map_of_four_find_4 map_of_four_insert_4).
Defined.

Lemma map_of_five_erase_3 : erase int_hasher map_of_five 3 = Ok map_without_three.
Proof. vm_compute. reflexivity. Qed.

Lemma erase_then_insert_witness :
  usable int_hasher 0 int_max_size map_of_five ∧
  erase int_hasher map_of_five 3 = Ok map_without_three ∧
  (insert int_hasher int_max_size map_without_three (3, 33) = Throw bad_alloc ∨
   ∃ m2 it, insert int_hasher int_max_size map_without_three (3, 33) = Ok (m2, it) ∧
     at_ int_hasher m2 3 = Ok 33 ∧ deref (objects_ m2) it = Ok (3, 33) ∧
     ∀ key', key' ≠ 3 → at_ int_hasher m2 key' = at_ int_hasher map_of_five key').
Proof.
  split; [exact map_of_five_usable |]. split; [exact map_of_five_erase_3 |].
  exact (erase_then_insert int_hasher 0 int_max_size int_max_size_ok
           map_of_five 3 33 map_without_three map_of_five_usable map_of_five_erase_3).
Defined.
